(** * Tidal provider adapter: session lifecycle and catalogue operations

    A shallow embedding of
    [music_assistant/server/providers/tidal/__init__.py].

    The adapter is a Python class whose methods await helper coroutines
    (wrappers around the vendor SDK), read and write the host's
    configuration store, and mutate a handful of cached instance fields.
    It is modelled as a state-and-exception monad over

    - the instance fields of [TidalProvider],
    - the host configuration store (a finite map from keys to strings),
    - a log of the calls made to collaborators, kept so that statements
      such as "no network call" or "exactly one call" can be expressed.

    What the collaborators answer is not part of this file's source: it
    is supplied by an environment record, one field per helper, each
    field giving the outcome (a value or a raised exception) of a call
    as a function of its arguments. *)

From Stdlib Require Import ZArith Ascii String List Lia DecimalString.
From stdpp Require Import base option list strings gmap.

Local Open Scope Z_scope.

(** ** Python values *)

(** A [datetime] object.  A naive one, as [datetime.now()] returns it, is
    its reading in microseconds on the local time line; an aware one
    carries its UTC offset as well.  [fromisoformat] gives an aware
    object for a string that ends in an offset. *)
Inductive datetime : Type :=
| Naive (t : Z)
| Aware (t : Z) (utcoffset : Z).

(** [d > t] for a naive [t]: comparing an aware object with a naive one
    raises [TypeError]. *)
Definition later_than (d : datetime) (t : Z) : bool + string :=
  match d with
  | Naive e => inl (bool_decide (e > t))
  | Aware _ _ => inr "can't compare offset-naive and offset-aware datetimes"
  end.

(** [timedelta(minutes=m)] *)
Definition timedelta_minutes (m : Z) : Z := m * 60 * 1000000.

(** [str(n)] for an [int]. *)
Definition str (n : Z) : string := NilZero.string_of_int (Z.to_int n).

(** Exceptions. [MediaNotFoundError] carries its message and, when it was
    raised with [raise ... from err], the exception it was raised from. *)
#[warnings="-register-all"]
Inductive exn : Type :=
| MediaNotFoundError (msg : string) (cause : option exn)
| TypeError (msg : string)
| AttributeError (msg : string)
| ValueError (msg : string)
| OtherError (descr : string).

(** Outcome of evaluating an expression: a value, or a raised exception. *)
Inductive result (A : Type) : Type :=
| Ok (a : A)
| Raise (e : exn).
Arguments Ok {A} a.
Arguments Raise {A} e.

(** ** SDK objects and normalized entities *)

(** Modelled from the spec: the SDK's session object ([tidalapi.Session],
    a type of the vendor SDK).  Section 4.1: "a new session object
    exposing a (possibly rotated) access token, refresh token, expiry
    timestamp, and user id".  The expiry is a [datetime] object, naive
    or aware as the SDK made it. *)
Module TidalSession.
Record t : Type := mk {
    access_token : string;
    refresh_token : string;
    expiry_time : datetime;
    user_id : Z                     (* session.user.id *)
  }.
End TidalSession.

(** SDK track object: the attributes the adapter reads. *)
Module TidalTrack.
Record t : Type := mk {
    id : Z;
    available : bool;
    duration : Z
  }.
End TidalTrack.

Module TidalPlaylist.
Record t : Type := mk {
    id : string;
    name : string
  }.
End TidalPlaylist.

Module TidalArtist.
Record t : Type := mk { id : Z; name : string }.
End TidalArtist.

Module TidalAlbum.
Record t : Type := mk { id : Z; name : string }.
End TidalAlbum.

(** Normalized entities of the host: the fields the adapter touches. *)
Module Track.
Record t : Type := mk {
    item_id : string;
    name : string;
    position : option Z
  }.
(** [track.position = p] *)
Definition set_position (p : Z) (tr : t) : t :=
    {| item_id := item_id tr; name := name tr; position := Some p |}.
End Track.

Module Playlist.
Record t : Type := mk { item_id : string; name : string }.
End Playlist.

Module Artist.
Record t : Type := mk { item_id : string; name : string }.
End Artist.

Module Album.
Record t : Type := mk { item_id : string; name : string }.
End Album.

Inductive ContentType : Type := FLAC | MP3 | AAC | OGG.

Inductive MediaType : Type :=
| MT_ARTIST | MT_ALBUM | MT_TRACK | MT_PLAYLIST | MT_RADIO.

Module StreamDetails.
Record t : Type := mk {
    item_id : Z;
    provider : string;
    content_type : ContentType;
    duration : Z;
    direct : string
  }.
End StreamDetails.

Module SearchResults.
Record t : Type := mk {
    artists : list Artist.t;
    albums : list Album.t;
    playlists : list Playlist.t;
    tracks : list (option Track.t)   (* whatever [parse_track] returned *)
  }.
End SearchResults.

(** The dictionary the search helper returns: one list per kind. *)
Module SearchHits.
Record t : Type := mk {
    artists : list TidalArtist.t;
    albums : list TidalAlbum.t;
    playlists : list TidalPlaylist.t;
    tracks : list TidalTrack.t
  }.
End SearchHits.

(** ** Collaborators *)

(** Every awaited helper call, configuration write and host-database
    call is appended to a log. *)
Inductive Call : Type :=
| call_tidal_session (token_type : string) (access_token refresh_token : option string)
    (expiry_time : option datetime)
| call_config_set (key value : string)
| call_search (session : option TidalSession.t) (query : string)
    (media_types : option (list MediaType)) (limit : Z)
| call_get_album_tracks (session : option TidalSession.t) (prov_album_id : string)
| call_get_artist_toptracks (session : option TidalSession.t) (prov_artist_id : string)
| call_get_playlist_tracks (session : option TidalSession.t) (prov_playlist_id : string)
| call_parse_track (track_obj : option TidalTrack.t)
| call_parse_artist (artist_obj : TidalArtist.t)
| call_parse_album (album_obj : TidalAlbum.t)
| call_parse_playlist (playlist_obj : TidalPlaylist.t)
| call_add_remove_playlist_tracks (session : option TidalSession.t)
    (prov_playlist_id : string) (prov_track_ids : list string) (add : bool)
| call_create_playlist (session : option TidalSession.t) (user_id : option Z) (name : string)
| call_add_db_item (playlist : Playlist.t)
| call_get_track (session : option TidalSession.t) (prov_track_id : string)
| call_get_track_url (session : option TidalSession.t) (prov_track_id : string)
| call_get_artist (session : option TidalSession.t) (prov_artist_id : string)
| call_get_album (session : option TidalSession.t) (prov_album_id : string)
| call_get_playlist (session : option TidalSession.t) (prov_playlist_id : string)
| call_get_library_artists (session : option TidalSession.t) (user_id : option Z)
| call_get_library_albums (session : option TidalSession.t) (user_id : option Z)
| call_get_library_tracks (session : option TidalSession.t) (user_id : option Z)
| call_get_library_playlists (session : option TidalSession.t) (user_id : option Z)
| call_get_artist_albums (session : option TidalSession.t) (prov_artist_id : string)
| call_get_similar_tracks (session : option TidalSession.t) (prov_track_id : string)
    (limit : Z)
| call_library_items_add_remove (session : option TidalSession.t) (user_id : option Z)
    (prov_item_id : string) (media_type : MediaType) (add : bool).

(** The environment of one operation: what each collaborator answers,
    the clock, and the constants and [datetime] conversions the module
    imports.  The fields of [helpers] carry the names of the functions
    imported from [.helpers].

    A field gives the outcome of a call as it is written at the call
    site; for a translation function, the outcome of awaiting what the
    call returns.  The translation functions are mostly called with the
    instance as [tidal_provider=self] (in [search], with the SDK object
    alone); the instance does not change while an operation translates,
    so it is not an argument here.  [get_track] may answer [None]: the
    adapter tests what it returns for truth. *)
Module helpers.
Record Env : Type := mkEnv {
  (* music_assistant.constants *)
  CONF_USERNAME : string;
  CONF_ACCESS_TOKEN : string;
  CONF_REFRESH_TOKEN : string;
  CONF_EXPIRY_TIME : string;
  (* datetime: [now] is the reading of the naive [datetime.now()] *)
  now : Z;
  isoformat : datetime -> string;
  fromisoformat : string -> option datetime;   (* None: ValueError *)
  (* .helpers *)
  tidal_session :
    string -> option string -> option string -> option datetime -> result TidalSession.t;
  search :
    option TidalSession.t -> string -> option (list MediaType) -> Z -> result SearchHits.t;
  get_album_tracks : option TidalSession.t -> string -> result (list TidalTrack.t);
  get_artist_toptracks : option TidalSession.t -> string -> result (list TidalTrack.t);
  get_playlist_tracks : option TidalSession.t -> string -> result (list TidalTrack.t);
  get_track : option TidalSession.t -> string -> result (option TidalTrack.t);
  get_track_url : option TidalSession.t -> string -> result string;
  get_artist : option TidalSession.t -> string -> result TidalArtist.t;
  get_album : option TidalSession.t -> string -> result TidalAlbum.t;
  get_playlist : option TidalSession.t -> string -> result TidalPlaylist.t;
  create_playlist : option TidalSession.t -> option Z -> string -> result TidalPlaylist.t;
  add_remove_playlist_tracks :
    option TidalSession.t -> string -> list string -> bool -> result unit;
  get_library_artists : option TidalSession.t -> option Z -> result (list TidalArtist.t);
  get_library_albums : option TidalSession.t -> option Z -> result (list TidalAlbum.t);
  get_library_tracks : option TidalSession.t -> option Z -> result (list TidalTrack.t);
  get_library_playlists :
    option TidalSession.t -> option Z -> result (list TidalPlaylist.t);
  get_artist_albums : option TidalSession.t -> string -> result (list TidalAlbum.t);
  get_similar_tracks : option TidalSession.t -> string -> Z -> result (list TidalTrack.t);
  library_items_add_remove :
    option TidalSession.t -> option Z -> string -> MediaType -> bool -> result unit;
  (* translation functions; [None] is a falsy result *)
  parse_track : option TidalTrack.t -> result (option Track.t);
  parse_artist : TidalArtist.t -> result Artist.t;
  parse_album : TidalAlbum.t -> result Album.t;
  parse_playlist : TidalPlaylist.t -> result Playlist.t;
  (* mass.music.playlists *)
  add_db_item : Playlist.t -> result Playlist.t
}.
End helpers.

(** ** The provider instance and the monad of its methods *)

Module TidalProvider.
Import helpers.

(** Instance fields.  The class declares the six cached fields with
    default [None]; [instance_id] comes from the base class.
    [_cache_dir], which [handle_setup] assigns and no method reads, is
    left out. *)
Record t : Type := mk {
  instance_id : string;
  _token_type : option string;
  _access_token : option string;
  _refresh_token : option string;
  _expiry_time : option datetime;
  _tidal_user_id : option Z;
  _tidal_session : option TidalSession.t
}.

(** [TidalProvider(mass, manifest, config)]: a fresh instance. *)
Definition new (iid : string) : t :=
  {| instance_id := iid; _token_type := None; _access_token := None;
     _refresh_token := None; _expiry_time := None; _tidal_user_id := None;
     _tidal_session := None |}.

(** What a method can read and change: the instance, [mass.config], and
    the log of collaborator calls. *)
Record State : Type := mkState {
  self : t;
  config : gmap string string;
  calls : list Call
}.

Definition M (A : Type) : Type := State -> result A * State.

Definition ret {A} (a : A) : M A := fun st => (Ok a, st).

Definition raise {A} (e : exn) : M A := fun st => (Raise e, st).

Definition bind {A B} (m : M A) (k : A -> M B) : M B :=
  fun st =>
    match m st with
    | (Ok a, st') => k a st'
    | (Raise e, st') => (Raise e, st')
    end.

Notation "x <- m ;; k" := (bind m (fun x => k))
  (at level 100, m at next level, right associativity, only parsing).
Notation "m ;;; k" := (bind m (fun _ => k))
  (at level 100, right associativity, only parsing).

(** [try: m except MediaNotFoundError as err: h err]; any other exception
    propagates. *)
Definition try_except_not_found {A} (m : M A) (h : exn -> M A) : M A :=
  fun st =>
    match m st with
    | (Raise (MediaNotFoundError msg c), st') => h (MediaNotFoundError msg c) st'
    | r => r
    end.

Definition get_self : M t := fun st => (Ok (self st), st).

Definition set_self (f : t -> t) : M unit :=
  fun st => (Ok tt, {| self := f (self st); config := config st; calls := calls st |}).

Definition log (c : Call) : M unit :=
  fun st => (Ok tt, {| self := self st; config := config st; calls := calls st ++ [c] |}).

(** [await helper(args)], or a plain call [helper(args)]: the call is
    logged, then its outcome returned or raised. *)
Definition await {A} (c : Call) (r : result A) : M A :=
  log c ;;; fun st => (r, st).

(** [self.mass.config.get(key)] *)
Definition config_get (key : string) : M (option string) :=
  fun st => (Ok (config st !! key), st).

(** [self.mass.config.set(key, value)] *)
Definition config_set (key value : string) : M unit :=
  log (call_config_set key value) ;;;
  fun st => (Ok tt, {| self := self st; config := <[key := value]> (config st);
                      calls := calls st |}).

(** Field assignments [self._x = v]. *)
Definition with_access_token (v : option string) (p : t) : t :=
  {| instance_id := instance_id p; _token_type := _token_type p; _access_token := v;
     _refresh_token := _refresh_token p; _expiry_time := _expiry_time p;
     _tidal_user_id := _tidal_user_id p; _tidal_session := _tidal_session p |}.

Definition with_refresh_token (v : option string) (p : t) : t :=
  {| instance_id := instance_id p; _token_type := _token_type p;
     _access_token := _access_token p; _refresh_token := v;
     _expiry_time := _expiry_time p; _tidal_user_id := _tidal_user_id p;
     _tidal_session := _tidal_session p |}.

Definition with_expiry_time (v : option datetime) (p : t) : t :=
  {| instance_id := instance_id p; _token_type := _token_type p;
     _access_token := _access_token p; _refresh_token := _refresh_token p;
     _expiry_time := v; _tidal_user_id := _tidal_user_id p;
     _tidal_session := _tidal_session p |}.

Definition with_tidal_user_id (v : option Z) (p : t) : t :=
  {| instance_id := instance_id p; _token_type := _token_type p;
     _access_token := _access_token p; _refresh_token := _refresh_token p;
     _expiry_time := _expiry_time p; _tidal_user_id := v;
     _tidal_session := _tidal_session p |}.

Definition with_tidal_session (v : option TidalSession.t) (p : t) : t :=
  {| instance_id := instance_id p; _token_type := _token_type p;
     _access_token := _access_token p; _refresh_token := _refresh_token p;
     _expiry_time := _expiry_time p; _tidal_user_id := _tidal_user_id p;
     _tidal_session := v |}.

Definition TOKEN_TYPE : string := "Bearer".

(** [f"providers/{self.instance_id}/values/{conf}"] *)
Definition conf_key (p : t) (conf : string) : string :=
  "providers/" +:+ instance_id p +:+ "/values/" +:+ conf.

(** *** login *)

(** The condition of [login]'s [if], with the short-circuit of [and]:
    the expiry comparison is evaluated only when a session is cached and
    its access token equals the cached one; comparing [None], or an
    aware [datetime], with the naive [datetime.now() + timedelta(...)]
    raises [TypeError]. *)
Definition login_condition (now : Z) (p : t) : result bool :=
  match _tidal_session p with
  | None => Ok false
  | Some s =>
      if bool_decide (Some (TidalSession.access_token s) = _access_token p) then
        match _expiry_time p with
        | None => Raise (TypeError "'>' not supported between instances of 'NoneType' and 'datetime.datetime'")
        | Some e =>
            match later_than e (now + timedelta_minutes 30) with
            | inl b => Ok b
            | inr msg => Raise (TypeError msg)
            end
        end
      else Ok false
  end.

Definition login (E : Env) : M (option TidalSession.t) :=
  p <- get_self ;;
  c <- (fun st => (login_condition (now E) p, st)) ;;
  if (c : bool) then ret (_tidal_session p)
  else
    session <- await
      (call_tidal_session TOKEN_TYPE (_access_token p) (_refresh_token p) (_expiry_time p))
      (tidal_session E TOKEN_TYPE (_access_token p) (_refresh_token p) (_expiry_time p)) ;;
    config_set (conf_key p (CONF_USERNAME E)) (str (TidalSession.user_id session)) ;;;
    config_set (conf_key p (CONF_ACCESS_TOKEN E)) (TidalSession.access_token session) ;;;
    config_set (conf_key p (CONF_REFRESH_TOKEN E)) (TidalSession.refresh_token session) ;;;
    config_set (conf_key p (CONF_EXPIRY_TIME E))
      (isoformat E (TidalSession.expiry_time session)) ;;;
    set_self (with_access_token (Some (TidalSession.access_token session))) ;;;
    set_self (with_refresh_token (Some (TidalSession.refresh_token session))) ;;;
    set_self (with_expiry_time (Some (TidalSession.expiry_time session))) ;;;
    set_self (with_tidal_user_id (Some (TidalSession.user_id session))) ;;;
    set_self (with_tidal_session (Some session)) ;;;
    p' <- get_self ;;
    ret (_tidal_session p').

(** *** handle_setup and setup *)

(** [if v is not None and v: ...]: a non-empty string. *)
Definition truthy_str (v : option string) : option string :=
  match v with
  | Some s => if bool_decide (s = "") then None else Some s
  | None => None
  end.

(** [datetime.fromisoformat] reports the string it was given in quotes
    (its [repr], which for a string without quotes or escapes is the
    string between apostrophes). *)
Definition handle_setup (E : Env) : M unit :=
  p <- get_self ;;
  access_token <- config_get (conf_key p (CONF_ACCESS_TOKEN E)) ;;
  refresh_token <- config_get (conf_key p (CONF_REFRESH_TOKEN E)) ;;
  expiry_time <- config_get (conf_key p (CONF_EXPIRY_TIME E)) ;;
  match truthy_str access_token with
  | Some v => set_self (with_access_token (Some v))
  | None => ret tt
  end ;;;
  match truthy_str refresh_token with
  | Some v => set_self (with_refresh_token (Some v))
  | None => ret tt
  end ;;;
  match truthy_str expiry_time with
  | Some v =>
      match fromisoformat E v with
      | Some d => set_self (with_expiry_time (Some d))
      | None => raise (ValueError ("Invalid isoformat string: '" +:+ v +:+ "'"))
      end
  | None => ret tt
  end ;;;
  login E ;;;
  ret tt.

(** [setup(mass, manifest, config)]: construct the instance, run
    [handle_setup]; the instance is returned only if that did not raise. *)
Definition setup (E : Env) (iid : string) (cfg : gmap string string) : result unit * State :=
  handle_setup E {| self := new iid; config := cfg; calls := [] |}.

(** *** search *)

(** [s.replace(old, new)] for a one-character [old]. *)
Fixpoint str_replace_char (old : ascii) (new : string) (s : string) : string :=
  match s with
  | EmptyString => EmptyString
  | String c s' =>
      if Ascii.eqb c old then new +:+ str_replace_char old new s'
      else String c (str_replace_char old new s')
  end.

Definition apostrophe : ascii := Ascii.ascii_of_nat 39.

(** [for x in l: acc.append(await f(x))] *)
Fixpoint for_append {A B} (f : A -> M B) (l : list A) (acc : list B) : M (list B) :=
  match l with
  | [] => ret acc
  | x :: l' => y <- f x ;; for_append f l' (acc ++ [y])
  end.

(** [if l: for x in l: ...] *)
Definition if_any_for_append {A B} (f : A -> M B) (l : list A) : M (list B) :=
  if bool_decide (l = []) then ret [] else for_append f l [].

Definition search (E : Env) (search_query : string)
    (media_types : option (list MediaType)) (limit : Z) : M SearchResults.t :=
  let search_query := str_replace_char apostrophe "" search_query in
  p <- get_self ;;
  results <- await (call_search (_tidal_session p) search_query media_types limit)
                   (helpers.search E (_tidal_session p) search_query media_types limit) ;;
  artists <- if_any_for_append
    (fun artist => await (call_parse_artist artist) (parse_artist E artist))
    (SearchHits.artists results) ;;
  albums <- if_any_for_append
    (fun album => await (call_parse_album album) (parse_album E album))
    (SearchHits.albums results) ;;
  playlists <- if_any_for_append
    (fun playlist => await (call_parse_playlist playlist) (parse_playlist E playlist))
    (SearchHits.playlists results) ;;
  tracks <- if_any_for_append
    (fun track => await (call_parse_track (Some track)) (parse_track E (Some track)))
    (SearchHits.tracks results) ;;
  ret {| SearchResults.artists := artists; SearchResults.albums := albums;
         SearchResults.playlists := playlists; SearchResults.tracks := tracks |}.

(** *** Track listings *)

(** The loop of [get_album_tracks] and of [get_artist_toptracks] (the two
    bodies are the same): [for index, track_obj in enumerate(tracks, 1)].
    Assigning [position] on a [None] translation raises. *)
Fixpoint enumerate_tracks_loop (E : Env) (index : Z) (tracks : list TidalTrack.t)
    (result : list Track.t) : M (list Track.t) :=
  match tracks with
  | [] => ret result
  | track_obj :: rest =>
      if TidalTrack.available track_obj then
        track <- await (call_parse_track (Some track_obj)) (parse_track E (Some track_obj)) ;;
        match track with
        | None => raise (AttributeError "'NoneType' object has no attribute 'position'")
        | Some tr =>
            enumerate_tracks_loop E (index + 1) rest (result ++ [Track.set_position index tr])
        end
      else enumerate_tracks_loop E (index + 1) rest result
  end.

Definition get_album_tracks (E : Env) (prov_album_id : string) : M (list Track.t) :=
  p <- get_self ;;
  tracks <- await (call_get_album_tracks (_tidal_session p) prov_album_id)
                  (helpers.get_album_tracks E (_tidal_session p) prov_album_id) ;;
  enumerate_tracks_loop E 1 tracks [].

Definition get_artist_toptracks (E : Env) (prov_artist_id : string) : M (list Track.t) :=
  p <- get_self ;;
  tracks <- await (call_get_artist_toptracks (_tidal_session p) prov_artist_id)
                  (helpers.get_artist_toptracks E (_tidal_session p) prov_artist_id) ;;
  enumerate_tracks_loop E 1 tracks [].

(** What the body of a [for] over a generator decides after each item. *)
Inductive Flow (S : Type) : Type :=
| Continue (acc : S)
| Break (acc : S).
Arguments Continue {S} acc.
Arguments Break {S} acc.

Definition flow_value {S} (f : Flow S) : S :=
  match f with Continue acc => acc | Break acc => acc end.

(** The asynchronous generator [get_playlist_tracks], driven by its
    consumer: [body] is run at each [yield] and may leave the loop, after
    which the generator is not resumed; the loop reports whether it was
    left ([Break]) or the generator ran out ([Continue]).
    [for index, track_obj in enumerate(tracks)], position [index + 1]. *)
Fixpoint playlist_tracks_loop {S} (E : Env) (body : Track.t -> S -> M (Flow S))
    (index : Z) (tracks : list TidalTrack.t) (acc : S) : M (Flow S) :=
  match tracks with
  | [] => ret (Continue acc)
  | track_obj :: rest =>
      if TidalTrack.available track_obj then
        track <- await (call_parse_track (Some track_obj)) (parse_track E (Some track_obj)) ;;
        match track with
        | Some tr =>
            f <- body (Track.set_position (index + 1) tr) acc ;;
            match f with
            | Continue acc' => playlist_tracks_loop E body (index + 1) rest acc'
            | Break acc' => ret (Break acc')
            end
        | None => playlist_tracks_loop E body (index + 1) rest acc
        end
      else playlist_tracks_loop E body (index + 1) rest acc
  end.

Definition iter_playlist_tracks {S} (E : Env) (prov_playlist_id : string)
    (body : Track.t -> S -> M (Flow S)) (acc : S) : M S :=
  p <- get_self ;;
  tracks <- await (call_get_playlist_tracks (_tidal_session p) prov_playlist_id)
                  (helpers.get_playlist_tracks E (_tidal_session p) prov_playlist_id) ;;
  f <- playlist_tracks_loop E body 0 tracks acc ;;
  ret (flow_value f).

(** [get_playlist_tracks] consumed to its end: every yielded track. *)
Definition get_playlist_tracks (E : Env) (prov_playlist_id : string) : M (list Track.t) :=
  iter_playlist_tracks E prov_playlist_id (fun track acc => ret (Continue (acc ++ [track]))) [].

(** *** Playlist mutation *)

(** [track.position in positions_to_remove] *)
Definition position_in (position : option Z) (positions_to_remove : list Z) : bool :=
  match position with
  | Some p => bool_decide (p ∈ positions_to_remove)
  | None => false
  end.

(** Body of the [async for] in [remove_playlist_tracks]. *)
Definition remove_body (positions_to_remove : list Z) (track : Track.t)
    (prov_track_ids : list string) : M (Flow (list string)) :=
  let prov_track_ids :=
    if position_in (Track.position track) positions_to_remove
    then prov_track_ids ++ [Track.item_id track] else prov_track_ids in
  if bool_decide (length prov_track_ids = length positions_to_remove)
  then ret (Break prov_track_ids) else ret (Continue prov_track_ids).

Definition remove_playlist_tracks (E : Env) (prov_playlist_id : string)
    (positions_to_remove : list Z) : M unit :=
  prov_track_ids <-
    iter_playlist_tracks E prov_playlist_id (remove_body positions_to_remove) [] ;;
  p <- get_self ;;
  await (call_add_remove_playlist_tracks (_tidal_session p) prov_playlist_id prov_track_ids false)
        (add_remove_playlist_tracks E (_tidal_session p) prov_playlist_id prov_track_ids false).

Definition create_playlist (E : Env) (name : string) : M Playlist.t :=
  p <- get_self ;;
  playlist_obj <- await (call_create_playlist (_tidal_session p) (_tidal_user_id p) name)
                        (helpers.create_playlist E (_tidal_session p) (_tidal_user_id p) name) ;;
  playlist <- await (call_parse_playlist playlist_obj) (parse_playlist E playlist_obj) ;;
  await (call_add_db_item playlist) (add_db_item E playlist).

(** *** Stream resolution *)

Definition get_stream_details (E : Env) (item_id : string) : M StreamDetails.t :=
  p <- get_self ;;
  track <- await (call_get_track (_tidal_session p) item_id)
                 (helpers.get_track E (_tidal_session p) item_id) ;;
  url <- await (call_get_track_url (_tidal_session p) item_id)
               (helpers.get_track_url E (_tidal_session p) item_id) ;;
  match track with
  | None => raise (MediaNotFoundError ("track " +:+ item_id +:+ " not found") None)
  | Some track =>
      login E ;;;
      p' <- get_self ;;
      ret {| StreamDetails.item_id := TidalTrack.id track;
             StreamDetails.provider := instance_id p';
             StreamDetails.content_type := FLAC;
             StreamDetails.duration := TidalTrack.duration track;
             StreamDetails.direct := url |}
  end.

(** *** Single-entity fetches

    The translation functions are coroutine functions: every listing
    awaits what they return.  The four single-entity fetches call them
    without [await]: inside the [try] the helper's fetch is awaited, but
    the translation is only created, as a coroutine that has not run;
    that coroutine is what the method returns. *)

(** A coroutine that has not been awaited: the call it stands for and
    the outcome the call will have once it is awaited. *)
Inductive Awaitable (A : Type) : Type :=
| Pending (c : Call) (r : result A).
Arguments Pending {A} c r.

(** Awaiting it runs the call. *)
Definition await_pending {A} (a : Awaitable A) : M A :=
  match a with Pending c r => await c r end.

Definition get_artist (E : Env) (prov_artist_id : string) : M (Awaitable Artist.t) :=
  try_except_not_found
    (p <- get_self ;;
     artist_obj <- await (call_get_artist (_tidal_session p) prov_artist_id)
                         (helpers.get_artist E (_tidal_session p) prov_artist_id) ;;
     ret (Pending (call_parse_artist artist_obj) (parse_artist E artist_obj)))
    (fun err => raise (MediaNotFoundError ("Artist " +:+ prov_artist_id +:+ " not found")
                                          (Some err))).

Definition get_album (E : Env) (prov_album_id : string) : M (Awaitable Album.t) :=
  try_except_not_found
    (p <- get_self ;;
     album_obj <- await (call_get_album (_tidal_session p) prov_album_id)
                        (helpers.get_album E (_tidal_session p) prov_album_id) ;;
     ret (Pending (call_parse_album album_obj) (parse_album E album_obj)))
    (fun err => raise (MediaNotFoundError ("Album " +:+ prov_album_id +:+ " not found")
                                          (Some err))).

Definition get_track (E : Env) (prov_track_id : string)
    : M (Awaitable (option Track.t)) :=
  try_except_not_found
    (p <- get_self ;;
     track_obj <- await (call_get_track (_tidal_session p) prov_track_id)
                        (helpers.get_track E (_tidal_session p) prov_track_id) ;;
     ret (Pending (call_parse_track track_obj) (parse_track E track_obj)))
    (fun err => raise (MediaNotFoundError ("Track " +:+ prov_track_id +:+ " not found")
                                          (Some err))).

Definition get_playlist (E : Env) (prov_playlist_id : string)
    : M (Awaitable Playlist.t) :=
  try_except_not_found
    (p <- get_self ;;
     playlist_obj <- await (call_get_playlist (_tidal_session p) prov_playlist_id)
                           (helpers.get_playlist E (_tidal_session p) prov_playlist_id) ;;
     ret (Pending (call_parse_playlist playlist_obj) (parse_playlist E playlist_obj)))
    (fun err => raise (MediaNotFoundError ("Playlist " +:+ prov_playlist_id +:+ " not found")
                                          (Some err))).

(** *** Library listings and the remaining delegations

    The library listings are generators; they are given here consumed to
    their end. *)

Definition get_library_artists (E : Env) : M (list Artist.t) :=
  p <- get_self ;;
  artists_obj <- await (call_get_library_artists (_tidal_session p) (_tidal_user_id p))
    (helpers.get_library_artists E (_tidal_session p) (_tidal_user_id p)) ;;
  for_append (fun artist => await (call_parse_artist artist) (parse_artist E artist))
    artists_obj [].

Definition get_library_albums (E : Env) : M (list Album.t) :=
  p <- get_self ;;
  albums_obj <- await (call_get_library_albums (_tidal_session p) (_tidal_user_id p))
    (helpers.get_library_albums E (_tidal_session p) (_tidal_user_id p)) ;;
  for_append (fun album => await (call_parse_album album) (parse_album E album))
    albums_obj [].

Definition get_library_tracks (E : Env) : M (list (option Track.t)) :=
  p <- get_self ;;
  tracks_obj <- await (call_get_library_tracks (_tidal_session p) (_tidal_user_id p))
    (helpers.get_library_tracks E (_tidal_session p) (_tidal_user_id p)) ;;
  for_append (fun track => await (call_parse_track (Some track)) (parse_track E (Some track)))
    (filter (fun track => TidalTrack.available track = true) tracks_obj) [].

Definition get_library_playlists (E : Env) : M (list Playlist.t) :=
  p <- get_self ;;
  playlists_obj <- await (call_get_library_playlists (_tidal_session p) (_tidal_user_id p))
    (helpers.get_library_playlists E (_tidal_session p) (_tidal_user_id p)) ;;
  for_append (fun playlist => await (call_parse_playlist playlist) (parse_playlist E playlist))
    playlists_obj [].

Definition get_artist_albums (E : Env) (prov_artist_id : string) : M (list Album.t) :=
  p <- get_self ;;
  albums <- await (call_get_artist_albums (_tidal_session p) prov_artist_id)
    (helpers.get_artist_albums E (_tidal_session p) prov_artist_id) ;;
  for_append (fun album_obj => await (call_parse_album album_obj) (parse_album E album_obj))
    albums [].

(** [for track_obj in similar_tracks_obj: if track_obj.available: ...
    if track: tracks.append(track)] *)
Fixpoint similar_tracks_loop (E : Env) (similar_tracks_obj : list TidalTrack.t)
    (tracks : list Track.t) : M (list Track.t) :=
  match similar_tracks_obj with
  | [] => ret tracks
  | track_obj :: rest =>
      if TidalTrack.available track_obj then
        track <- await (call_parse_track (Some track_obj)) (parse_track E (Some track_obj)) ;;
        match track with
        | Some tr => similar_tracks_loop E rest (tracks ++ [tr])
        | None => similar_tracks_loop E rest tracks
        end
      else similar_tracks_loop E rest tracks
  end.

Definition get_similar_tracks (E : Env) (prov_track_id : string) (limit : Z)
    : M (list Track.t) :=
  p <- get_self ;;
  similar_tracks_obj <- await (call_get_similar_tracks (_tidal_session p) prov_track_id limit)
    (helpers.get_similar_tracks E (_tidal_session p) prov_track_id limit) ;;
  similar_tracks_loop E similar_tracks_obj [].

Definition library_add (E : Env) (prov_item_id : string) (media_type : MediaType) : M unit :=
  p <- get_self ;;
  await (call_library_items_add_remove (_tidal_session p) (_tidal_user_id p)
           prov_item_id media_type true)
    (library_items_add_remove E (_tidal_session p) (_tidal_user_id p)
           prov_item_id media_type true).

Definition library_remove (E : Env) (prov_item_id : string) (media_type : MediaType)
    : M unit :=
  p <- get_self ;;
  await (call_library_items_add_remove (_tidal_session p) (_tidal_user_id p)
           prov_item_id media_type false)
    (library_items_add_remove E (_tidal_session p) (_tidal_user_id p)
           prov_item_id media_type false).

Definition add_playlist_tracks (E : Env) (prov_playlist_id : string)
    (prov_track_ids : list string) : M unit :=
  p <- get_self ;;
  await (call_add_remove_playlist_tracks (_tidal_session p) prov_playlist_id
           prov_track_ids true)
    (add_remove_playlist_tracks E (_tidal_session p) prov_playlist_id prov_track_ids true).

(** *** Reachable states *)

(** The public operations of an instance, with their arguments. *)
Inductive Operation : Type :=
| op_handle_setup
| op_login
| op_search (search_query : string) (media_types : option (list MediaType)) (limit : Z)
| op_get_library_artists
| op_get_library_albums
| op_get_library_tracks
| op_get_library_playlists
| op_get_album_tracks (prov_album_id : string)
| op_get_artist_albums (prov_artist_id : string)
| op_get_artist_toptracks (prov_artist_id : string)
| op_get_playlist_tracks (prov_playlist_id : string)
| op_get_similar_tracks (prov_track_id : string) (limit : Z)
| op_library_add (prov_item_id : string) (media_type : MediaType)
| op_library_remove (prov_item_id : string) (media_type : MediaType)
| op_add_playlist_tracks (prov_playlist_id : string) (prov_track_ids : list string)
| op_remove_playlist_tracks (prov_playlist_id : string) (positions_to_remove : list Z)
| op_create_playlist (name : string)
| op_get_stream_details (item_id : string)
| op_get_artist (prov_artist_id : string)
| op_get_album (prov_album_id : string)
| op_get_track (prov_track_id : string)
| op_get_playlist (prov_playlist_id : string).

(** The state an operation leaves behind, whether it returned or raised. *)
Definition after {A} (m : M A) (st : State) : State := snd (m st).

Definition run (E : Env) (o : Operation) : State -> State :=
  match o with
  | op_handle_setup => after (handle_setup E)
  | op_login => after (login E)
  | op_search q mt l => after (search E q mt l)
  | op_get_library_artists => after (get_library_artists E)
  | op_get_library_albums => after (get_library_albums E)
  | op_get_library_tracks => after (get_library_tracks E)
  | op_get_library_playlists => after (get_library_playlists E)
  | op_get_album_tracks i => after (get_album_tracks E i)
  | op_get_artist_albums i => after (get_artist_albums E i)
  | op_get_artist_toptracks i => after (get_artist_toptracks E i)
  | op_get_playlist_tracks i => after (get_playlist_tracks E i)
  | op_get_similar_tracks i l => after (get_similar_tracks E i l)
  | op_library_add i mt => after (library_add E i mt)
  | op_library_remove i mt => after (library_remove E i mt)
  | op_add_playlist_tracks i ids => after (add_playlist_tracks E i ids)
  | op_remove_playlist_tracks i ps => after (remove_playlist_tracks E i ps)
  | op_create_playlist n => after (create_playlist E n)
  | op_get_stream_details i => after (get_stream_details E i)
  | op_get_artist i => after (get_artist E i)
  | op_get_album i => after (get_album E i)
  | op_get_track i => after (get_track E i)
  | op_get_playlist i => after (get_playlist E i)
  end.

(** States reachable through [setup] and the public operations.  Each
    step has its own environment (the collaborators may answer
    differently every time), and between operations the host may rewrite
    its configuration store. *)
Inductive reachable : State -> Prop :=
| reach_setup (E : Env) (iid : string) (cfg : gmap string string) :
    reachable (snd (setup E iid cfg))
| reach_run (E : Env) (o : Operation) (st : State) :
    reachable st -> reachable (run E o st)
| reach_config (st : State) (cfg : gmap string string) :
    reachable st -> reachable {| self := self st; config := cfg; calls := calls st |}.

(** *** Configuration schema *)

Inductive ConfigEntryType : Type :=
| CET_BOOLEAN | CET_STRING | CET_INTEGER | CET_FLOAT | CET_LABEL.

Record ConfigEntry : Type := mkConfigEntry {
  key : string;
  type : ConfigEntryType;
  label : string;
  required : bool;
  hidden : bool
}.

(** [get_config_entries(mass, manifest)] *)
Definition get_config_entries (E : Env) : list ConfigEntry :=
  [ {| key := CONF_USERNAME E; type := CET_STRING; label := "User ID";
       required := false; hidden := true |};
    {| key := CONF_ACCESS_TOKEN E; type := CET_STRING; label := "Access Token";
       required := false; hidden := true |};
    {| key := CONF_REFRESH_TOKEN E; type := CET_STRING; label := "Refresh Token";
       required := false; hidden := true |};
    {| key := CONF_EXPIRY_TIME E; type := CET_STRING; label := "Expiry Time";
       required := false; hidden := true |} ].

End TidalProvider.

(** ** Concrete environments

    Small collaborators on which the operations can be run. *)

Module Example.
Import helpers TidalProvider.

(** A stand-in for [isoformat]: the reading, followed by the offset of
    an aware object. *)
Definition iso_reading (d : datetime) : string :=
  match d with
  | Naive t => str t
  | Aware t utcoffset => str t +:+ "+" +:+ str utcoffset
  end.

(** [parse_track]: the track's id as item id; [None] is not a track. *)
Definition parse_track (o : option TidalTrack.t) : result (option Track.t) :=
  match o with
  | Some tr => Ok (Some {| Track.item_id := str (TidalTrack.id tr); Track.name := "";
                           Track.position := None |})
  | None => Raise (MediaNotFoundError "no track object" None)
  end.

Definition parse_playlist (o : TidalPlaylist.t) : result Playlist.t :=
  Ok {| Playlist.item_id := TidalPlaylist.id o; Playlist.name := TidalPlaylist.name o |}.

(** An environment answering every session request with [session], every
    track listing with [tracks], and every track lookup with [track] and
    [url]. *)
Definition env (clock : Z) (session : result TidalSession.t)
    (tracks : result (list TidalTrack.t)) (track : result (option TidalTrack.t))
    (url : result string) : Env :=
  {| CONF_USERNAME := "username";
     CONF_ACCESS_TOKEN := "access_token";
     CONF_REFRESH_TOKEN := "refresh_token";
     CONF_EXPIRY_TIME := "expiry_time";
     now := clock;
     isoformat := iso_reading;
     fromisoformat := fun _ => None;
     tidal_session := fun _ _ _ _ => session;
     helpers.search := fun _ _ _ _ =>
       Ok {| SearchHits.artists := []; SearchHits.albums := [];
             SearchHits.playlists := []; SearchHits.tracks := [] |};
     helpers.get_album_tracks := fun _ _ => tracks;
     helpers.get_artist_toptracks := fun _ _ => tracks;
     helpers.get_playlist_tracks := fun _ _ => tracks;
     helpers.get_track := fun _ _ => track;
     get_track_url := fun _ _ => url;
     helpers.get_artist := fun _ i => Raise (MediaNotFoundError i None);
     helpers.get_album := fun _ i => Raise (MediaNotFoundError i None);
     helpers.get_playlist := fun _ i => Raise (MediaNotFoundError i None);
     helpers.create_playlist := fun _ _ n =>
       Ok {| TidalPlaylist.id := "p1"; TidalPlaylist.name := n |};
     add_remove_playlist_tracks := fun _ _ _ _ => Ok tt;
     helpers.get_library_artists := fun _ _ => Ok [];
     helpers.get_library_albums := fun _ _ => Ok [];
     helpers.get_library_tracks := fun _ _ => tracks;
     helpers.get_library_playlists := fun _ _ => Ok [];
     helpers.get_artist_albums := fun _ _ => Ok [];
     helpers.get_similar_tracks := fun _ _ _ => tracks;
     library_items_add_remove := fun _ _ _ _ _ => Ok tt;
     helpers.parse_track := parse_track;
     parse_artist := fun a =>
       Ok {| Artist.item_id := str (TidalArtist.id a); Artist.name := TidalArtist.name a |};
     parse_album := fun a =>
       Ok {| Album.item_id := str (TidalAlbum.id a); Album.name := TidalAlbum.name a |};
     helpers.parse_playlist := parse_playlist;
     add_db_item := fun p => Ok p |}.

Definition session1 : TidalSession.t :=
  {| TidalSession.access_token := "at1"; TidalSession.refresh_token := "rt1";
     TidalSession.expiry_time := Naive 86400000000; TidalSession.user_id := 42 |}.

Definition session2 : TidalSession.t :=
  {| TidalSession.access_token := "at2"; TidalSession.refresh_token := "rt2";
     TidalSession.expiry_time := Naive 172800000000; TidalSession.user_id := 42 |}.

(** An instance whose cache holds [session1]. *)
Definition logged_in : State :=
  {| self := {| instance_id := "tidal"; _token_type := None;
                _access_token := Some "at1"; _refresh_token := Some "rt1";
                _expiry_time := Some (Naive 86400000000); _tidal_user_id := Some 42;
                _tidal_session := Some session1 |};
     config := ∅; calls := [] |}.

(** A freshly constructed instance. *)
Definition fresh : State := {| self := new "tidal"; config := ∅; calls := [] |}.

Definition track (i : Z) (avail : bool) : TidalTrack.t :=
  {| TidalTrack.id := i; TidalTrack.available := avail; TidalTrack.duration := 180 |}.

Definition no_track : result (option TidalTrack.t) := Ok None.

Definition env0 : Env := env 0 (Ok session1) (Ok []) no_track (Ok "").

(** A listing of three track objects, the second one not available. *)
Definition album3 : list TidalTrack.t := [track 11 true; track 12 false; track 13 true].

Definition env_album : Env := env 0 (Ok session1) (Ok album3) no_track (Ok "").

(** A playlist of five available tracks. *)
Definition playlist5 : list TidalTrack.t :=
  [track 101 true; track 102 true; track 103 true; track 104 true; track 105 true].

Definition env_playlist : Env := env 0 (Ok session1) (Ok playlist5) no_track (Ok "").

(** The translation of [track i _]. *)
Definition parsed (i : Z) : Track.t :=
  {| Track.item_id := str i; Track.name := ""; Track.position := None |}.

(** The metadata lookup finds no track and the URL lookup fails. *)
Definition env_no_url : Env :=
  env 0 (Ok session1) (Ok []) no_track (Raise (OtherError "404 Client Error")).

(** The metadata lookup finds no track; the URL lookup answers. *)
Definition env_no_track : Env := env 0 (Ok session1) (Ok []) no_track (Ok "").

(** Track 7 can be streamed. *)
Definition env_stream : Env :=
  env 0 (Ok session1) (Ok []) (Ok (Some (track 7 true))) (Ok "https://cdn.example/7.flac").

(** The track lookup itself reports that there is no such track. *)
Definition env_missing : Env :=
  env 0 (Ok session1) (Ok []) (Raise (MediaNotFoundError "no such track" None)) (Ok "").

(** The SDK rotates the tokens. *)
Definition env2 : Env := env 0 (Ok session2) (Ok []) no_track (Ok "").

(** The SDK cannot be reached; the clock is past the cached expiry. *)
Definition env_offline : Env :=
  env 86400000000 (Raise (OtherError "connection refused")) (Ok []) no_track (Ok "").

(** [env2] with a [fromisoformat] that reads back what [isoformat]
    wrote for the expiry of [session2]. *)
Definition env2_reading : Env :=
  {| CONF_USERNAME := CONF_USERNAME env2;
     CONF_ACCESS_TOKEN := CONF_ACCESS_TOKEN env2;
     CONF_REFRESH_TOKEN := CONF_REFRESH_TOKEN env2;
     CONF_EXPIRY_TIME := CONF_EXPIRY_TIME env2;
     now := 0;
     isoformat := isoformat env2;
     fromisoformat := fun v =>
       if bool_decide (v = "172800000000") then Some (Naive 172800000000) else None;
     tidal_session := tidal_session env2;
     helpers.search := helpers.search env2;
     helpers.get_album_tracks := helpers.get_album_tracks env2;
     helpers.get_artist_toptracks := helpers.get_artist_toptracks env2;
     helpers.get_playlist_tracks := helpers.get_playlist_tracks env2;
     helpers.get_track := helpers.get_track env2;
     get_track_url := get_track_url env2;
     helpers.get_artist := helpers.get_artist env2;
     helpers.get_album := helpers.get_album env2;
     helpers.get_playlist := helpers.get_playlist env2;
     helpers.create_playlist := helpers.create_playlist env2;
     add_remove_playlist_tracks := add_remove_playlist_tracks env2;
     helpers.get_library_artists := helpers.get_library_artists env2;
     helpers.get_library_albums := helpers.get_library_albums env2;
     helpers.get_library_tracks := helpers.get_library_tracks env2;
     helpers.get_library_playlists := helpers.get_library_playlists env2;
     helpers.get_artist_albums := helpers.get_artist_albums env2;
     helpers.get_similar_tracks := helpers.get_similar_tracks env2;
     library_items_add_remove := library_items_add_remove env2;
     helpers.parse_track := helpers.parse_track env2;
     parse_artist := parse_artist env2;
     parse_album := parse_album env2;
     helpers.parse_playlist := helpers.parse_playlist env2;
     add_db_item := add_db_item env2 |}.

(** A configuration store whose expiry entry is not an ISO date. *)
Definition cfg_bad_expiry : gmap string string :=
  <["providers/tidal/values/expiry_time" := "tomorrow"]>
    (<["providers/tidal/values/access_token" := "at0"]> ∅).

(** A playlist whose second track has no translation. *)
Definition env_untranslated : Env :=
  {| CONF_USERNAME := CONF_USERNAME env0;
     CONF_ACCESS_TOKEN := CONF_ACCESS_TOKEN env0;
     CONF_REFRESH_TOKEN := CONF_REFRESH_TOKEN env0;
     CONF_EXPIRY_TIME := CONF_EXPIRY_TIME env0;
     now := 0;
     isoformat := isoformat env0;
     fromisoformat := fromisoformat env0;
     tidal_session := tidal_session env0;
     helpers.search := helpers.search env0;
     helpers.get_album_tracks := fun _ _ => Ok [track 1 true; track 2 true; track 3 true];
     helpers.get_artist_toptracks := fun _ _ => Ok [track 1 true; track 2 true; track 3 true];
     helpers.get_playlist_tracks := fun _ _ => Ok [track 1 true; track 2 true; track 3 true];
     helpers.get_track := helpers.get_track env0;
     get_track_url := get_track_url env0;
     helpers.get_artist := helpers.get_artist env0;
     helpers.get_album := helpers.get_album env0;
     helpers.get_playlist := helpers.get_playlist env0;
     helpers.create_playlist := helpers.create_playlist env0;
     add_remove_playlist_tracks := add_remove_playlist_tracks env0;
     helpers.get_library_artists := fun _ _ =>
       Ok [ {| TidalArtist.id := 1; TidalArtist.name := "A" |};
            {| TidalArtist.id := 2; TidalArtist.name := "B" |} ];
     helpers.get_library_albums := helpers.get_library_albums env0;
     helpers.get_library_tracks := fun _ _ => Ok [track 1 true; track 2 true; track 3 false];
     helpers.get_library_playlists := helpers.get_library_playlists env0;
     helpers.get_artist_albums := helpers.get_artist_albums env0;
     helpers.get_similar_tracks := fun _ _ _ =>
       Ok [track 1 true; track 2 true; track 3 false];
     library_items_add_remove := library_items_add_remove env0;
     helpers.parse_track := fun o =>
       match o with
       | Some t => if bool_decide (TidalTrack.id t = 2) then Ok None else parse_track o
       | None => parse_track o
       end;
     parse_artist := parse_artist env0;
     parse_album := parse_album env0;
     helpers.parse_playlist := helpers.parse_playlist env0;
     add_db_item := add_db_item env0 |}.

(** Track 7 is found, but its translation reports it missing. *)
Definition env_parse_missing : Env :=
  {| CONF_USERNAME := CONF_USERNAME env0;
     CONF_ACCESS_TOKEN := CONF_ACCESS_TOKEN env0;
     CONF_REFRESH_TOKEN := CONF_REFRESH_TOKEN env0;
     CONF_EXPIRY_TIME := CONF_EXPIRY_TIME env0;
     now := 0;
     isoformat := isoformat env0;
     fromisoformat := fromisoformat env0;
     tidal_session := tidal_session env0;
     helpers.search := helpers.search env0;
     helpers.get_album_tracks := helpers.get_album_tracks env0;
     helpers.get_artist_toptracks := helpers.get_artist_toptracks env0;
     helpers.get_playlist_tracks := helpers.get_playlist_tracks env0;
     helpers.get_track := fun _ _ => Ok (Some (track 7 true));
     get_track_url := get_track_url env0;
     helpers.get_artist := helpers.get_artist env0;
     helpers.get_album := helpers.get_album env0;
     helpers.get_playlist := helpers.get_playlist env0;
     helpers.create_playlist := helpers.create_playlist env0;
     add_remove_playlist_tracks := add_remove_playlist_tracks env0;
     helpers.get_library_artists := helpers.get_library_artists env0;
     helpers.get_library_albums := helpers.get_library_albums env0;
     helpers.get_library_tracks := helpers.get_library_tracks env0;
     helpers.get_library_playlists := helpers.get_library_playlists env0;
     helpers.get_artist_albums := helpers.get_artist_albums env0;
     helpers.get_similar_tracks := helpers.get_similar_tracks env0;
     library_items_add_remove := library_items_add_remove env0;
     helpers.parse_track := fun _ => Raise (MediaNotFoundError "track has no album" None);
     parse_artist := parse_artist env0;
     parse_album := parse_album env0;
     helpers.parse_playlist := helpers.parse_playlist env0;
     add_db_item := add_db_item env0 |}.

(** A search that finds an artist, an album, a playlist and two tracks. *)
Definition hits1 : SearchHits.t :=
  {| SearchHits.artists := [ {| TidalArtist.id := 1; TidalArtist.name := "Sinead OBrien" |} ];
     SearchHits.albums := [ {| TidalAlbum.id := 21; TidalAlbum.name := "Time Bend" |} ];
     SearchHits.playlists := [ {| TidalPlaylist.id := "p9"; TidalPlaylist.name := "Mix" |} ];
     SearchHits.tracks := [ track 31 true; track 32 false ] |}.

Definition env_hits : Env :=
  {| CONF_USERNAME := CONF_USERNAME env0;
     CONF_ACCESS_TOKEN := CONF_ACCESS_TOKEN env0;
     CONF_REFRESH_TOKEN := CONF_REFRESH_TOKEN env0;
     CONF_EXPIRY_TIME := CONF_EXPIRY_TIME env0;
     now := 0;
     isoformat := isoformat env0;
     fromisoformat := fromisoformat env0;
     tidal_session := tidal_session env0;
     helpers.search := fun _ _ _ _ => Ok hits1;
     helpers.get_album_tracks := helpers.get_album_tracks env0;
     helpers.get_artist_toptracks := helpers.get_artist_toptracks env0;
     helpers.get_playlist_tracks := helpers.get_playlist_tracks env0;
     helpers.get_track := helpers.get_track env0;
     get_track_url := get_track_url env0;
     helpers.get_artist := helpers.get_artist env0;
     helpers.get_album := helpers.get_album env0;
     helpers.get_playlist := helpers.get_playlist env0;
     helpers.create_playlist := helpers.create_playlist env0;
     add_remove_playlist_tracks := add_remove_playlist_tracks env0;
     helpers.get_library_artists := helpers.get_library_artists env0;
     helpers.get_library_albums := helpers.get_library_albums env0;
     helpers.get_library_tracks := helpers.get_library_tracks env0;
     helpers.get_library_playlists := helpers.get_library_playlists env0;
     helpers.get_artist_albums := helpers.get_artist_albums env0;
     helpers.get_similar_tracks := helpers.get_similar_tracks env0;
     library_items_add_remove := library_items_add_remove env0;
     helpers.parse_track := helpers.parse_track env0;
     parse_artist := parse_artist env0;
     parse_album := parse_album env0;
     helpers.parse_playlist := helpers.parse_playlist env0;
     add_db_item := add_db_item env0 |}.

(** A store whose expiry entry carries a UTC offset, and collaborators
    that read it as an aware [datetime] and an SDK whose session keeps
    the expiry it was given. *)
Definition cfg_aware : gmap string string :=
  <["providers/tidal/values/expiry_time" := "2030-01-01T00:00:00+00:00"]>
    (<["providers/tidal/values/access_token" := "at1"]> ∅).

Definition env_aware : Env :=
  {| CONF_USERNAME := CONF_USERNAME env0;
     CONF_ACCESS_TOKEN := CONF_ACCESS_TOKEN env0;
     CONF_REFRESH_TOKEN := CONF_REFRESH_TOKEN env0;
     CONF_EXPIRY_TIME := CONF_EXPIRY_TIME env0;
     now := 0;
     isoformat := isoformat env0;
     fromisoformat := fun v =>
       if bool_decide (v = "2030-01-01T00:00:00+00:00")
       then Some (Aware 1893456000000000 0) else None;
     tidal_session := fun _ _ _ expiry =>
       Ok {| TidalSession.access_token := "at1"; TidalSession.refresh_token := "rt1";
             TidalSession.expiry_time :=
               match expiry with Some d => d | None => Naive 86400000000 end;
             TidalSession.user_id := 42 |};
     helpers.search := helpers.search env0;
     helpers.get_album_tracks := helpers.get_album_tracks env0;
     helpers.get_artist_toptracks := helpers.get_artist_toptracks env0;
     helpers.get_playlist_tracks := helpers.get_playlist_tracks env0;
     helpers.get_track := helpers.get_track env0;
     get_track_url := get_track_url env0;
     helpers.get_artist := helpers.get_artist env0;
     helpers.get_album := helpers.get_album env0;
     helpers.get_playlist := helpers.get_playlist env0;
     helpers.create_playlist := helpers.create_playlist env0;
     add_remove_playlist_tracks := add_remove_playlist_tracks env0;
     helpers.get_library_artists := helpers.get_library_artists env0;
     helpers.get_library_albums := helpers.get_library_albums env0;
     helpers.get_library_tracks := helpers.get_library_tracks env0;
     helpers.get_library_playlists := helpers.get_library_playlists env0;
     helpers.get_artist_albums := helpers.get_artist_albums env0;
     helpers.get_similar_tracks := helpers.get_similar_tracks env0;
     library_items_add_remove := library_items_add_remove env0;
     helpers.parse_track := helpers.parse_track env0;
     parse_artist := parse_artist env0;
     parse_album := parse_album env0;
     helpers.parse_playlist := helpers.parse_playlist env0;
     add_db_item := add_db_item env0 |}.

End Example.

(** * Properties *)

Import helpers TidalProvider.

(** The arguments [login] hands to [tidal_session], and the call as it
    appears in the log. *)
Definition session_request (p : TidalProvider.t) : Call :=
  call_tidal_session TOKEN_TYPE (_access_token p) (_refresh_token p) (_expiry_time p).

Definition session_answer (E : Env) (p : TidalProvider.t) : result TidalSession.t :=
  tidal_session E TOKEN_TYPE (_access_token p) (_refresh_token p) (_expiry_time p).

(** The four configuration writes of a refresh, in order. *)
Definition refresh_writes (E : Env) (p : TidalProvider.t) (s : TidalSession.t)
    : list (string * string) :=
  [ (conf_key p (CONF_USERNAME E), str (TidalSession.user_id s));
    (conf_key p (CONF_ACCESS_TOKEN E), TidalSession.access_token s);
    (conf_key p (CONF_REFRESH_TOKEN E), TidalSession.refresh_token s);
    (conf_key p (CONF_EXPIRY_TIME E), isoformat E (TidalSession.expiry_time s)) ].

(** The instance after a refresh that returned [s]. *)
Definition refreshed (p : TidalProvider.t) (s : TidalSession.t) : TidalProvider.t :=
  {| instance_id := instance_id p; _token_type := _token_type p;
     _access_token := Some (TidalSession.access_token s);
     _refresh_token := Some (TidalSession.refresh_token s);
     _expiry_time := Some (TidalSession.expiry_time s);
     _tidal_user_id := Some (TidalSession.user_id s);
     _tidal_session := Some s |}.

(** The state after a refresh that returned [s]. *)
Definition after_refresh (E : Env) (st : State) (s : TidalSession.t) : State :=
  {| self := refreshed (self st) s;
     config := foldl (fun m kv => <[kv.1 := kv.2]> m) (config st) (refresh_writes E (self st) s);
     calls := calls st ++ session_request (self st)
                :: map (fun kv => call_config_set kv.1 kv.2) (refresh_writes E (self st) s) |}.

(** A cached session handle comes with a cached expiry time and a cached
    access token. *)
Definition session_has_expiry (p : TidalProvider.t) : Prop :=
  forall s : TidalSession.t, _tidal_session p = Some s ->
    is_Some (_expiry_time p) /\ is_Some (_access_token p).

(** A method that never assigns an instance field. *)
Definition keeps_self {A} (m : M A) : Prop :=
  forall st : State, self (snd (m st)) = self st.

(** A method under which a property of the instance is stable, whether
    it returns or raises. *)
Definition preserves (P : TidalProvider.t -> Prop) {A} (m : M A) : Prop :=
  forall st : State, P (self st) -> P (self (snd (m st))).

(** Number of session-establishment calls in a log. *)
Definition is_session_request (c : Call) : bool :=
  match c with call_tidal_session _ _ _ _ => true | _ => false end.

Definition session_requests (l : list Call) : nat :=
  length (List.filter is_session_request l).

(** [st] with one more call in its log. *)
Definition logged (c : Call) (st : State) : State :=
  {| self := self st; config := config st; calls := calls st ++ [c] |}.

(** [enumerate(l, start)] *)
Fixpoint enumerate {A} (start : Z) (l : list A) : list (Z * A) :=
  match l with
  | [] => []
  | x :: l' => (start, x) :: enumerate (start + 1) l'
  end.

(** The translation of a track object is a (truthy) track. *)
Definition translates (E : Env) (t : TidalTrack.t) : bool :=
  match parse_track E (Some t) with
  | Ok (Some _) => true
  | _ => false
  end.

(** An indexed track object that makes it into a listing. *)
Definition survives (E : Env) (it : Z * TidalTrack.t) : bool :=
  TidalTrack.available it.2 && translates E it.2.

(** [r] is the translation of the available track object [it.2], with
    the index [it.1] as its position. *)
Definition carries (E : Env) (r : Track.t) (it : Z * TidalTrack.t) : Prop :=
  TidalTrack.available it.2 = true /\
  exists tr : Track.t, parse_track E (Some it.2) = Ok (Some tr) /\
                      r = Track.set_position it.1 tr.

(** [res] lists [tracks]: in order, one entry per surviving track object,
    each with its index in [enumerate(tracks, 1)]. *)
Definition listed (E : Env) (tracks : list TidalTrack.t) (res : list Track.t) : Prop :=
  Forall2 (carries E) res (List.filter (survives E) (enumerate 1 tracks)).

(** The positions a listing would carry if they were numbered over the
    listing itself. *)
Definition dense_positions (res : list Track.t) : Prop :=
  map Track.position res = map Some (seqZ 1 (Z.of_nat (length res))).

(** Calls to the translation of a track. *)
Definition is_parse_track (c : Call) : Prop :=
  match c with call_parse_track _ => True | _ => False end.

(** [i] is the item id of a track the generator yields from [tracks]
    (enumerated from [index]) at a requested position. *)
Definition picked (E : Env) (positions_to_remove : list Z) (index : Z)
    (tracks : list TidalTrack.t) (i : string) : Prop :=
  exists (k : nat) (t : TidalTrack.t) (tr : Track.t),
    tracks !! k = Some t /\ TidalTrack.available t = true /\
    parse_track E (Some t) = Ok (Some tr) /\
    index + 1 + Z.of_nat k ∈ positions_to_remove /\
    i = Track.item_id tr.

(** [i] is the item id of the track at a requested position [p] that
    lies within the playlist. *)
Definition removable (E : Env) (positions_to_remove : list Z)
    (tracks : list TidalTrack.t) (i : string) : Prop :=
  exists (p : Z) (t : TidalTrack.t) (tr : Track.t),
    p ∈ positions_to_remove /\ 1 <= p <= Z.of_nat (length tracks) /\
    tracks !! Z.to_nat (p - 1) = Some t /\ TidalTrack.available t = true /\
    parse_track E (Some t) = Ok (Some tr) /\ i = Track.item_id tr.

(** What the body of [remove_playlist_tracks]'s loop makes of the ids
    collected so far when it is handed the track [tr] at [position]. *)
Definition collect (positions_to_remove : list Z) (position : Z) (tr : Track.t)
    (prov_track_ids : list string) : list string :=
  if position_in (Some position) positions_to_remove
  then prov_track_ids ++ [Track.item_id tr] else prov_track_ids.

(** The state after the listing request, the translations [parses] and
    the batch removal of [ids] were logged. *)
Definition after_removal (st : State) (prov_playlist_id : string) (parses : list Call)
    (ids : list string) : State :=
  {| self := self st; config := config st;
     calls := calls st ++
       call_get_playlist_tracks (_tidal_session (self st)) prov_playlist_id
       :: parses ++
       [call_add_remove_playlist_tracks (_tidal_session (self st)) prov_playlist_id
          ids false] |}.

(** The message [msg] names [ident]: it contains it literally. *)
Definition names (msg ident : string) : Prop :=
  exists pre post : string, msg = pre +:+ ident +:+ post.

(** The body of the [try] of a single-entity fetch: the helper's fetch,
    then what is made of the object it fetched. *)
Definition fetch_then_parse {O T} (fetched : result O) (parse : O -> result T) : result T :=
  match fetched with
  | Ok o => parse o
  | Raise e => Raise e
  end.

(** [f"{kind} {ident} not found"] *)
Definition not_found_message (kind ident : string) : string :=
  kind +:+ " " +:+ ident +:+ " not found".

(** What a single-entity fetch makes of the object it fetched: the
    coroutine of its translation, not yet run. *)
Definition pending_translation {O T} (c : O -> Call) (parse : O -> result T) (o : O)
    : result (Awaitable T) :=
  Ok (Pending (c o) (parse o)).

(** How the outcome [r] of a single-entity fetch depends on the outcome
    [body] of its [try]: a not-found failure is raised anew with the
    enriched message (and the original as its cause), any other failure
    is raised unchanged, a value is returned. *)
Definition reraises (kind ident : string) {T} (body r : result T) : Prop :=
  (forall (msg : string) (cause : option exn),
     body = Raise (MediaNotFoundError msg cause) ->
     r = Raise (MediaNotFoundError (not_found_message kind ident)
                  (Some (MediaNotFoundError msg cause)))) /\
  (forall e : exn,
     body = Raise e -> (forall msg cause, e <> MediaNotFoundError msg cause) ->
     r = Raise e) /\
  (forall v : T, body = Ok v -> r = Ok v).

(** Calls to a translation function. *)
Definition is_translation (c : Call) : Prop :=
  match c with
  | call_parse_track _ | call_parse_artist _ | call_parse_album _
  | call_parse_playlist _ => True
  | _ => False
  end.

(** A method that changes nothing but the log, and adds to the log only
    calls that satisfy [P]. *)
Definition only_logs (P : Call -> Prop) {A} (m : M A) : Prop :=
  forall st : State, exists new : list Call,
    snd (m st) = {| self := self st; config := config st; calls := calls st ++ new |} /\
    Forall P new.

(** The characters of [s] other than the apostrophe, in order. *)
Definition without_apostrophes (s : string) : list ascii :=
  List.filter (fun c => negb (Ascii.eqb c apostrophe)) (list_ascii_of_string s).


(** What [handle_setup] makes of a stored value: absent and empty are
    the same. *)
Definition stored (E : Env) (p : TidalProvider.t) (cfg : gmap string string)
    (conf : string) : option string :=
  truthy_str (cfg !! conf_key p conf).

(** The instance once [handle_setup] has loaded the two tokens. *)
Definition with_stored_tokens (E : Env) (st : State) : TidalProvider.t :=
  let p := self st in
  let p1 := match stored E p (config st) (CONF_ACCESS_TOKEN E) with
            | Some v => with_access_token (Some v) p
            | None => p
            end in
  match stored E p (config st) (CONF_REFRESH_TOKEN E) with
  | Some v => with_refresh_token (Some v) p1
  | None => p1
  end.

(** A call that establishes a session or writes the configuration. *)
Definition touches_credentials (c : Call) : Prop :=
  match c with
  | call_tidal_session _ _ _ _ | call_config_set _ _ => True
  | _ => False
  end.

(** The tracks the generator [get_playlist_tracks] yields from [tracks]
    (enumerated from [index]) when no translation raises. *)
Fixpoint yielded (E : Env) (index : Z) (tracks : list TidalTrack.t) : list Track.t :=
  match tracks with
  | [] => []
  | t :: rest =>
      if TidalTrack.available t then
        match parse_track E (Some t) with
        | Ok (Some tr) => Track.set_position (index + 1) tr :: yielded E (index + 1) rest
        | _ => yielded E (index + 1) rest
        end
      else yielded E (index + 1) rest
  end.

(** The translation of [t], if [t] is available, does not raise. *)
Definition translation_returns (E : Env) (t : TidalTrack.t) : Prop :=
  TidalTrack.available t = true -> exists r, parse_track E (Some t) = Ok r.

(** The ids [remove_playlist_tracks] is to remove from a listing. *)
Definition ids_at (positions_to_remove : list Z) (listing : list Track.t) : list string :=
  map Track.item_id
    (List.filter (fun r => position_in (Track.position r) positions_to_remove) listing).

(** An available track object with a translation that is no track. *)
Definition untranslated (E : Env) (t : TidalTrack.t) : Prop :=
  TidalTrack.available t = true /\ parse_track E (Some t) = Ok None.

(** A [datetime] object without offset. *)
Definition is_naive (d : datetime) : Prop := exists t : Z, d = Naive t.

(** Collaborators that only produce naive [datetime] objects: what
    [fromisoformat] reads from the store, and the expiry of the sessions
    the SDK answers with. *)
Definition naive_env (E : Env) : Prop :=
  (forall (v : string) (d : datetime), fromisoformat E v = Some d -> is_naive d) /\
  (forall (token_type : string) (access_token refresh_token : option string)
          (expiry_time : option datetime) (s : TidalSession.t),
     tidal_session E token_type access_token refresh_token expiry_time = Ok s ->
     is_naive (TidalSession.expiry_time s)).

(** States reachable through [setup] and the public operations when
    every environment on the way is a [naive_env]. *)
Inductive reachable_naive : State -> Prop :=
| reach_naive_setup (E : Env) (iid : string) (cfg : gmap string string) :
    naive_env E -> reachable_naive (snd (setup E iid cfg))
| reach_naive_run (E : Env) (o : Operation) (st : State) :
    naive_env E -> reachable_naive st -> reachable_naive (run E o st)
| reach_naive_config (st : State) (cfg : gmap string string) :
    reachable_naive st ->
    reachable_naive {| self := self st; config := cfg; calls := calls st |}.

(** The cached expiry, if there is one, is naive. *)
Definition expiry_is_naive (p : TidalProvider.t) : Prop :=
  forall d : datetime, _expiry_time p = Some d -> is_naive d.

Lemma login_slow_path (E : Env) (st : State) :
  login_condition (now E) (self st) = Ok false ->
  login E st =
    match session_answer E (self st) with
    | Ok s => (Ok (Some s), after_refresh E st s)
    | Raise e =>
        (Raise e, {| self := self st; config := config st;
                     calls := calls st ++ [session_request (self st)] |})
    end.
Proof.
  intros Hc. unfold login, bind, get_self. cbn. rewrite Hc. cbn.
  unfold session_answer. destruct (tidal_session E _ _ _ _) as [s|e]; cbn; [|reflexivity].
  unfold after_refresh. cbn. rewrite <- !app_assoc. reflexivity.
Qed.

Lemma login_fast_path (E : Env) (st : State) :
  login_condition (now E) (self st) = Ok true ->
  login E st = (Ok (_tidal_session (self st)), st).
Proof.
  intros Hc. unfold login, bind, get_self. cbn. rewrite Hc. reflexivity.
Qed.

Lemma login_type_error (E : Env) (st : State) (e : exn) :
  login_condition (now E) (self st) = Raise e ->
  login E st = (Raise e, st).
Proof.
  intros Hc. unfold login, bind, get_self. cbn. rewrite Hc. reflexivity.
Qed.

(** ** Session lifecycle *)





(** The converse of C2's premise: off the fast path, a session answered
    by the SDK makes [login] return. *)
Lemma login_refresh_returns (E : Env) (st : State) (s : TidalSession.t) :
  login_condition (now E) (self st) = Ok false ->
  session_answer E (self st) = Ok s ->
  login E st = (Ok (Some s), after_refresh E st s).
Proof.
  intros Hc Hs. rewrite (login_slow_path E st Hc). now rewrite Hs.
Qed.

(** The state after a session request that was logged and nothing else. *)
Lemma login_keeps_cache_on_failure (E : Env) (st : State) (e : exn) :
  session_answer E (self st) = Raise e ->
  self (snd (login E st)) = self st /\ config (snd (login E st)) = config st.
Proof.
  intros Hs.
  destruct (login_condition (now E) (self st)) as [[|]|e'] eqn:Hcond.
  - now rewrite (login_fast_path E st Hcond).
  - rewrite (login_slow_path E st Hcond), Hs. now cbn.
  - now rewrite (login_type_error E st e' Hcond).
Qed.

(** C3.  If the session-establishment call of [login] raises, [login]
    leaves the cached access token, refresh token, expiry time, user id
    and session handle and the configuration store exactly as they were;
    and when the call is made (the fast-path condition is false) the
    exception raised is the one [login] raises, after that single
    request and nothing else: no second attempt, no configuration
    write. *)
Theorem login_failure_leaves_cache
    (E : Env) (st : State) (e : exn) :
  session_answer E (self st) = Raise e ->
  self (snd (login E st)) = self st /\
  config (snd (login E st)) = config st /\
  (login_condition (now E) (self st) = Ok false ->
   login E st =
     (Raise e, {| self := self st; config := config st;
                  calls := calls st ++ [session_request (self st)] |})).
Proof.
  intros Hs.
  destruct (login_keeps_cache_on_failure E st e Hs) as [H1 H2].
  repeat split; try assumption.
  intros Hc. rewrite (login_slow_path E st Hc). now rewrite Hs.
Qed.

Lemma login_failure_leaves_cache_witness :
  let E := Example.env_offline in
  self (snd (login E Example.logged_in)) = self Example.logged_in /\
  config (snd (login E Example.logged_in)) = config Example.logged_in /\
  (login_condition (now E) (self Example.logged_in) = Ok false ->
   login E Example.logged_in =
     (Raise (OtherError "connection refused"),
      {| self := self Example.logged_in; config := config Example.logged_in;
         calls := calls Example.logged_in ++ [session_request (self Example.logged_in)] |})).
Proof.
  intros E.
  apply (login_failure_leaves_cache E Example.logged_in (OtherError "connection refused")).
  reflexivity.
Defined.

(** ** Which methods touch the cached fields *)

Create HintDb tidal.

Lemma keeps_ret {A} (a : A) : keeps_self (ret a).
Proof. now intros st. Qed.

Lemma keeps_raise {A} (e : exn) : keeps_self (@raise A e).
Proof. now intros st. Qed.

Lemma keeps_get_self : keeps_self get_self.
Proof. now intros st. Qed.

Lemma keeps_log (c : Call) : keeps_self (log c).
Proof. now intros st. Qed.

Lemma keeps_config_get (k : string) : keeps_self (config_get k).
Proof. now intros st. Qed.

Lemma keeps_bind {A B} (m : M A) (k : A -> M B) :
  keeps_self m -> (forall a, keeps_self (k a)) -> keeps_self (bind m k).
Proof.
  intros Hm Hk st. unfold bind. specialize (Hm st).
  destruct (m st) as [[a|e] st1]; cbn in *.
  - now rewrite Hk.
  - assumption.
Qed.

Lemma keeps_await {A} (c : Call) (r : result A) : keeps_self (await c r).
Proof. now intros st. Qed.

Lemma keeps_config_set (k v : string) : keeps_self (config_set k v).
Proof. now intros st. Qed.

Lemma keeps_try_except {A} (m : M A) (h : exn -> M A) :
  keeps_self m -> (forall e, keeps_self (h e)) -> keeps_self (try_except_not_found m h).
Proof.
  intros Hm Hh st. unfold try_except_not_found. specialize (Hm st).
  destruct (m st) as [[a|[msg c|msg|msg|msg|d]] st1]; cbn in *; try assumption.
  now rewrite Hh.
Qed.

#[local] Hint Resolve keeps_ret keeps_raise keeps_get_self keeps_log keeps_config_get
  keeps_bind keeps_await keeps_config_set keeps_try_except : tidal.

Lemma keeps_for_append {A B} (f : A -> M B) (l : list A) (acc : list B) :
  (forall x, keeps_self (f x)) -> keeps_self (for_append f l acc).
Proof.
  intros Hf. revert acc. induction l as [|x l IH]; intros acc; cbn; auto with tidal.
Qed.

Lemma keeps_if_any_for_append {A B} (f : A -> M B) (l : list A) :
  (forall x, keeps_self (f x)) -> keeps_self (if_any_for_append f l).
Proof.
  intros Hf. unfold if_any_for_append.
  case_bool_decide; auto using keeps_for_append with tidal.
Qed.

Lemma keeps_enumerate_tracks_loop (E : Env) (tracks : list TidalTrack.t) :
  forall index result, keeps_self (enumerate_tracks_loop E index tracks result).
Proof.
  induction tracks as [|tr rest IH]; intros index result; cbn; auto with tidal.
  destruct (TidalTrack.available tr); [|apply IH].
  apply keeps_bind; [auto with tidal|]. intros [t|]; auto with tidal.
Qed.

Lemma keeps_playlist_tracks_loop {S} (E : Env) (body : Track.t -> S -> M (Flow S))
    (tracks : list TidalTrack.t) :
  (forall t acc, keeps_self (body t acc)) ->
  forall index acc, keeps_self (playlist_tracks_loop E body index tracks acc).
Proof.
  intros Hb. induction tracks as [|tr rest IH]; intros index acc; cbn; auto with tidal.
  destruct (TidalTrack.available tr); [|apply IH].
  apply keeps_bind; [auto with tidal|]. intros [t|]; [|apply IH].
  apply keeps_bind; [apply Hb|]. intros [acc'|acc']; auto with tidal.
Qed.

Lemma keeps_similar_tracks_loop (E : Env) (objs : list TidalTrack.t) :
  forall tracks, keeps_self (similar_tracks_loop E objs tracks).
Proof.
  induction objs as [|tr rest IH]; intros tracks; cbn; auto with tidal.
  destruct (TidalTrack.available tr); [|apply IH].
  apply keeps_bind; [auto with tidal|]. intros [t|]; auto with tidal.
Qed.

Lemma keeps_remove_body (ps : list Z) (t : Track.t) (ids : list string) :
  keeps_self (remove_body ps t ids).
Proof. unfold remove_body. case_bool_decide; auto with tidal. Qed.

#[local] Hint Resolve keeps_for_append keeps_if_any_for_append keeps_enumerate_tracks_loop
  keeps_playlist_tracks_loop keeps_similar_tracks_loop keeps_remove_body : tidal.

Lemma keeps_iter_playlist_tracks {S} (E : Env) (i : string)
    (body : Track.t -> S -> M (Flow S)) (acc : S) :
  (forall t a, keeps_self (body t a)) -> keeps_self (iter_playlist_tracks E i body acc).
Proof. intros Hb. unfold iter_playlist_tracks. auto 6 with tidal. Qed.

#[local] Hint Resolve keeps_iter_playlist_tracks : tidal.

(** Every operation but [handle_setup], [login] and [get_stream_details]
    leaves the instance fields alone. *)
Lemma keeps_self_run (E : Env) (o : Operation) (st : State) :
  o <> op_handle_setup -> o <> op_login ->
  (forall i, o <> op_get_stream_details i) ->
  self (run E o st) = self st.
Proof.
  intros H1 H2 H3.
  destruct o; try congruence; try (now contradiction (H3 item_id));
    unfold run, after;
    match goal with |- self (snd (?m st)) = _ => enough (keeps_self m) as K by apply K end.
  - unfold search. auto 12 with tidal.
  - unfold get_library_artists. auto 6 with tidal.
  - unfold get_library_albums. auto 6 with tidal.
  - unfold get_library_tracks. auto 6 with tidal.
  - unfold get_library_playlists. auto 6 with tidal.
  - unfold get_album_tracks. auto 6 with tidal.
  - unfold get_artist_albums. auto 6 with tidal.
  - unfold get_artist_toptracks. auto 6 with tidal.
  - unfold get_playlist_tracks. auto 6 with tidal.
  - unfold get_similar_tracks. auto 6 with tidal.
  - unfold library_add. auto 6 with tidal.
  - unfold library_remove. auto 6 with tidal.
  - unfold add_playlist_tracks. auto 6 with tidal.
  - unfold remove_playlist_tracks. auto 8 with tidal.
  - unfold create_playlist. auto 8 with tidal.
  - unfold get_artist. auto 8 with tidal.
  - unfold get_album. auto 8 with tidal.
  - unfold get_track. auto 8 with tidal.
  - unfold get_playlist. auto 8 with tidal.
Qed.

Lemma keeps_preserves (P : TidalProvider.t -> Prop) {A} (m : M A) :
  keeps_self m -> preserves P m.
Proof. intros K st HP. now rewrite K. Qed.

Lemma preserves_bind (P : TidalProvider.t -> Prop) {A B} (m : M A) (k : A -> M B) :
  preserves P m -> (forall a, preserves P (k a)) -> preserves P (bind m k).
Proof.
  intros Hm Hk st HP. unfold bind. specialize (Hm st HP).
  destruct (m st) as [[a|e] st1]; cbn in *.
  - now apply Hk.
  - assumption.
Qed.

Lemma refreshed_has_expiry (p : TidalProvider.t) (s : TidalSession.t) :
  session_has_expiry (refreshed p s).
Proof. intros s' _. cbn. split; eexists; reflexivity. Qed.

Lemma login_preserves (E : Env) : preserves session_has_expiry (login E).
Proof.
  intros st HP.
  destruct (login_condition (now E) (self st)) as [[|]|e] eqn:Hc.
  - now rewrite (login_fast_path E st Hc).
  - rewrite (login_slow_path E st Hc).
    destruct (session_answer E (self st)) as [s|e]; cbn; [|assumption].
    apply refreshed_has_expiry.
  - now rewrite (login_type_error E st e Hc).
Qed.

(** Assigning a present value to one of the three fields that
    [handle_setup] loads cannot break the property. *)
Lemma set_access_token_preserves (v : string) :
  preserves session_has_expiry (set_self (with_access_token (Some v))).
Proof.
  intros st HP s Hs. cbn in *. destruct (HP s Hs) as [He _]. split; [exact He|now eexists].
Qed.

Lemma set_refresh_token_preserves (v : option string) :
  preserves session_has_expiry (set_self (with_refresh_token v)).
Proof. intros st HP s Hs. cbn in *. exact (HP s Hs). Qed.

Lemma set_expiry_time_preserves (d : datetime) :
  preserves session_has_expiry (set_self (with_expiry_time (Some d))).
Proof.
  intros st HP s Hs. cbn in *. destruct (HP s Hs) as [_ Ha]. split; [now eexists|exact Ha].
Qed.

Lemma handle_setup_preserves (E : Env) : preserves session_has_expiry (handle_setup E).
Proof.
  unfold handle_setup.
  apply preserves_bind; [apply keeps_preserves; auto with tidal|]. intros p.
  apply preserves_bind; [apply keeps_preserves; auto with tidal|]. intros a.
  apply preserves_bind; [apply keeps_preserves; auto with tidal|]. intros r.
  apply preserves_bind; [apply keeps_preserves; auto with tidal|]. intros x.
  apply preserves_bind.
  { destruct (truthy_str a);
      [apply set_access_token_preserves | apply keeps_preserves; auto with tidal]. }
  intros _. apply preserves_bind.
  { destruct (truthy_str r);
      [apply set_refresh_token_preserves | apply keeps_preserves; auto with tidal]. }
  intros _. apply preserves_bind.
  { destruct (truthy_str x) as [v|]; [|apply keeps_preserves; auto with tidal].
    destruct (fromisoformat E v);
      [apply set_expiry_time_preserves | apply keeps_preserves; auto with tidal]. }
  intros _. apply preserves_bind; [apply login_preserves|].
  intros _. apply keeps_preserves; auto with tidal.
Qed.

Lemma get_stream_details_preserves (E : Env) (i : string) :
  preserves session_has_expiry (get_stream_details E i).
Proof.
  unfold get_stream_details.
  apply preserves_bind; [apply keeps_preserves; auto with tidal|]. intros p.
  apply preserves_bind; [apply keeps_preserves; auto with tidal|]. intros tr.
  apply preserves_bind; [apply keeps_preserves; auto with tidal|]. intros url.
  destruct tr as [tr|]; [|apply keeps_preserves; auto with tidal].
  apply preserves_bind; [apply login_preserves|].
  intros _. apply keeps_preserves; auto with tidal.
Qed.

Lemma run_preserves (E : Env) (o : Operation) (st : State) :
  session_has_expiry (self st) -> session_has_expiry (self (run E o st)).
Proof.
  intros HP.
  destruct o;
    try (rewrite keeps_self_run by (try intros ?; discriminate); exact HP).
  - now apply handle_setup_preserves.
  - now apply login_preserves.
  - now apply get_stream_details_preserves.
Qed.

Lemma reachable_session_has_expiry_inv (st : State) :
  reachable st -> session_has_expiry (self st).
Proof.
  induction 1 as [E iid cfg | E o st _ IH | st cfg _ IH].
  - apply handle_setup_preserves. cbn. intros s Hs. discriminate.
  - now apply run_preserves.
  - exact IH.
Qed.

(** With a cached expiry for every cached handle, the comparison in
    [login]'s condition can only raise over an aware expiry. *)
Lemma login_condition_raises (now : Z) (p : TidalProvider.t) (e : exn) :
  session_has_expiry p -> login_condition now p = Raise e ->
  exists (t utcoffset : Z) (msg : string),
    _expiry_time p = Some (Aware t utcoffset) /\ e = TypeError msg.
Proof.
  intros HP. unfold login_condition.
  destruct (_tidal_session p) as [s|] eqn:Hs; [|discriminate].
  case_bool_decide; [|discriminate].
  destruct (HP s Hs) as [[d Hd] _]. rewrite Hd.
  destruct d as [t|t off]; cbn [later_than]; [discriminate|].
  intros Hr. injection Hr as <-. now eexists t, off, _.
Qed.

Lemma login_condition_naive (now : Z) (p : TidalProvider.t) (t : Z) :
  _expiry_time p = Some (Naive t) -> exists b : bool, login_condition now p = Ok b.
Proof.
  intros He. unfold login_condition. rewrite He. cbn [later_than].
  destruct (_tidal_session p); [|now eexists].
  case_bool_decide; now eexists.
Qed.

(** ** Reachable states *)

(** C10 (amended).  In every state reachable through [setup] and the
    public operations, a cached session handle comes with a cached
    expiry time and a cached access token; hence the comparison of
    [login]'s condition never meets an absent expiry.  It raises a type
    error only over a cached expiry that is an aware [datetime]; over a
    naive one the condition evaluates to a boolean, whatever the clock
    reads. *)
Theorem reachable_session_has_expiry (st : State) :
  reachable st ->
  (forall s : TidalSession.t, _tidal_session (self st) = Some s ->
     _expiry_time (self st) <> None /\ _access_token (self st) <> None) /\
  (forall (now : Z) (e : exn),
     login_condition now (self st) = Raise e ->
     exists (t utcoffset : Z) (msg : string),
       _expiry_time (self st) = Some (Aware t utcoffset) /\ e = TypeError msg) /\
  (forall now t : Z,
     _expiry_time (self st) = Some (Naive t) ->
     exists b : bool, login_condition now (self st) = Ok b).
Proof.
  intros Hr. pose proof (reachable_session_has_expiry_inv st Hr) as HP.
  split; [|split].
  - intros s Hs. destruct (HP s Hs) as [[e He] [a Ha]]. split; congruence.
  - intros now e. now apply login_condition_raises.
  - intros now t. apply login_condition_naive.
Qed.

Lemma reachable_session_has_expiry_witness :
  let st := run Example.env2 (op_get_stream_details "7")
              (snd (setup Example.env0 "tidal" ∅)) in
  (forall s : TidalSession.t, _tidal_session (self st) = Some s ->
     _expiry_time (self st) <> None /\ _access_token (self st) <> None) /\
  (forall (now : Z) (e : exn),
     login_condition now (self st) = Raise e ->
     exists (t utcoffset : Z) (msg : string),
       _expiry_time (self st) = Some (Aware t utcoffset) /\ e = TypeError msg) /\
  (forall now t : Z,
     _expiry_time (self st) = Some (Naive t) ->
     exists b : bool, login_condition now (self st) = Ok b).
Proof.
  intros st. apply (reachable_session_has_expiry st).
  apply reach_run. apply reach_setup.
Defined.

(** C10 as stated fails: the store holds an expiry with a UTC offset,
    [fromisoformat] reads it as an aware [datetime], the SDK's session
    keeps the expiry it was given, and [setup] returns; in the state it
    leaves, a handle and an expiry are cached and the comparison of
    [login]'s condition raises a type error, which [login] raises. *)
Lemma reachable_type_error_counterexample :
  let st := snd (setup Example.env_aware "tidal" Example.cfg_aware) in
  reachable st /\
  fst (setup Example.env_aware "tidal" Example.cfg_aware) = Ok tt /\
  _tidal_session (self st) <> None /\
  _expiry_time (self st) = Some (Aware 1893456000000000 0) /\
  login_condition (now Example.env_aware) (self st)
    = Raise (TypeError "can't compare offset-naive and offset-aware datetimes") /\
  fst (login Example.env_aware st)
    = Raise (TypeError "can't compare offset-naive and offset-aware datetimes").
Proof.
  intros st. split; [apply reach_setup|]. subst st.
  split; [vm_compute; reflexivity|].
  split; [vm_compute; discriminate|].
  split; [vm_compute; reflexivity|].
  split; vm_compute; reflexivity.
Qed.

(** ** Track listings *)

Lemma await_eq {A} (c : Call) (r : result A) (st : State) :
  await c r st = (r, logged c st).
Proof. reflexivity. Qed.

Lemma bind_await {A B} (c : Call) (r : result A) (k : A -> M B) (st : State) :
  bind (await c r) k st =
    match r with
    | Ok a => k a (logged c st)
    | Raise e => (Raise e, logged c st)
    end.
Proof. unfold bind. rewrite await_eq. now destruct r. Qed.

Lemma survives_true (E : Env) (i : Z) (t : TidalTrack.t) (tr : Track.t) :
  TidalTrack.available t = true -> parse_track E (Some t) = Ok (Some tr) ->
  survives E (i, t) = true.
Proof. intros Ha Hp. unfold survives, translates. cbn. now rewrite Ha, Hp. Qed.

Lemma survives_unavailable (E : Env) (i : Z) (t : TidalTrack.t) :
  TidalTrack.available t = false -> survives E (i, t) = false.
Proof. intros Ha. unfold survives. cbn. now rewrite Ha. Qed.

Lemma survives_falsy (E : Env) (i : Z) (t : TidalTrack.t) :
  parse_track E (Some t) = Ok None -> survives E (i, t) = false.
Proof. intros Hp. unfold survives, translates. cbn. rewrite Hp. apply andb_false_r. Qed.

(** The loop of the album and top-track listings, when it returns. *)
Lemma enumerate_tracks_loop_listed (E : Env) (tracks : list TidalTrack.t) :
  forall (index : Z) (result res : list Track.t) (st st' : State),
    enumerate_tracks_loop E index tracks result st = (Ok res, st') ->
    exists new : list Track.t,
      res = result ++ new /\
      Forall2 (carries E) new (List.filter (survives E) (enumerate index tracks)).
Proof.
  induction tracks as [|t rest IH]; intros index result res st st' H; cbn in H.
  - injection H as <- _. exists []. split; [now rewrite app_nil_r | constructor].
  - cbn [enumerate List.filter].
    destruct (TidalTrack.available t) eqn:Ha.
    + rewrite bind_await in H.
      destruct (parse_track E (Some t)) as [[tr|]|e] eqn:Hp; try discriminate.
      apply IH in H as (new & -> & HF).
      rewrite (survives_true E index t tr Ha Hp).
      exists (Track.set_position index tr :: new). split.
      * now rewrite <- app_assoc.
      * constructor; [|exact HF]. split; [exact Ha|]. now exists tr.
    + rewrite (survives_unavailable E index t Ha). exact (IH _ _ _ _ _ H).
Qed.

(** The generator of the playlist listing, consumed to its end. *)
Lemma playlist_tracks_loop_listed (E : Env) (tracks : list TidalTrack.t) :
  forall (index : Z) (acc : list Track.t) (f : Flow (list Track.t)) (st st' : State),
    playlist_tracks_loop E (fun track acc => ret (Continue (acc ++ [track])))
      index tracks acc st = (Ok f, st') ->
    exists new : list Track.t,
      f = Continue (acc ++ new) /\
      Forall2 (carries E) new (List.filter (survives E) (enumerate (index + 1) tracks)).
Proof.
  induction tracks as [|t rest IH]; intros index acc f st st' H; cbn in H.
  - injection H as <- _. exists []. split; [now rewrite app_nil_r | constructor].
  - cbn [enumerate List.filter].
    destruct (TidalTrack.available t) eqn:Ha.
    + rewrite bind_await in H.
      destruct (parse_track E (Some t)) as [[tr|]|e] eqn:Hp; try discriminate.
      * unfold bind at 1 in H. cbn in H.
        apply IH in H as (new & -> & HF).
        rewrite (survives_true E (index + 1) t tr Ha Hp).
        exists (Track.set_position (index + 1) tr :: new). split.
        -- now rewrite <- app_assoc.
        -- constructor; [|exact HF]. split; [exact Ha|]. now exists tr.
      * rewrite (survives_falsy E (index + 1) t Hp). exact (IH _ _ _ _ _ H).
    + rewrite (survives_unavailable E (index + 1) t Ha). exact (IH _ _ _ _ _ H).
Qed.

Lemma get_album_tracks_listed (E : Env) (i : string) (st st' : State)
    (res : list Track.t) :
  get_album_tracks E i st = (Ok res, st') ->
  exists tracks : list TidalTrack.t,
    helpers.get_album_tracks E (_tidal_session (self st)) i = Ok tracks /\
    listed E tracks res.
Proof.
  unfold get_album_tracks. unfold bind at 1. cbn -[bind]. rewrite bind_await.
  destruct (helpers.get_album_tracks E _ i) as [tracks|e]; [|discriminate].
  intros H. apply enumerate_tracks_loop_listed in H as (new & -> & HF).
  now exists tracks.
Qed.

Lemma get_artist_toptracks_listed (E : Env) (i : string) (st st' : State)
    (res : list Track.t) :
  get_artist_toptracks E i st = (Ok res, st') ->
  exists tracks : list TidalTrack.t,
    helpers.get_artist_toptracks E (_tidal_session (self st)) i = Ok tracks /\
    listed E tracks res.
Proof.
  unfold get_artist_toptracks. unfold bind at 1. cbn -[bind]. rewrite bind_await.
  destruct (helpers.get_artist_toptracks E _ i) as [tracks|e]; [|discriminate].
  intros H. apply enumerate_tracks_loop_listed in H as (new & -> & HF).
  now exists tracks.
Qed.

Lemma get_playlist_tracks_listed (E : Env) (i : string) (st st' : State)
    (res : list Track.t) :
  get_playlist_tracks E i st = (Ok res, st') ->
  exists tracks : list TidalTrack.t,
    helpers.get_playlist_tracks E (_tidal_session (self st)) i = Ok tracks /\
    listed E tracks res.
Proof.
  unfold get_playlist_tracks, iter_playlist_tracks. unfold bind at 1. cbn -[bind].
  rewrite bind_await.
  destruct (helpers.get_playlist_tracks E _ i) as [tracks|e]; [|discriminate].
  unfold bind. intros H.
  destruct (playlist_tracks_loop E _ 0 tracks [] _) as [[f|e] st1] eqn:Hl; [|discriminate].
  apply playlist_tracks_loop_listed in Hl as (new & -> & HF).
  injection H as <- _. now exists tracks.
Qed.

Lemma enumerate_lookup {A} (l : list A) :
  forall (start i : Z) (x : A),
    In (i, x) (enumerate start l) ->
    exists k : nat, l !! k = Some x /\ i = start + Z.of_nat k.
Proof.
  induction l as [|y l IH]; intros start i x H; cbn in H; [contradiction|].
  destruct H as [H|H].
  - injection H as <- <-. exists 0%nat. split; [reflexivity|lia].
  - apply IH in H as (k & Hk & ->). exists (S k). split; [exact Hk|lia].
Qed.

Lemma enumerate_fst {A} (l : list A) :
  forall start : Z, map fst (enumerate start l) = seqZ start (Z.of_nat (length l)).
Proof.
  induction l as [|y l IH]; intros start; [reflexivity|].
  cbn [enumerate map fst length]. rewrite IH.
  rewrite (seqZ_cons start) by lia. f_equal. f_equal; lia.
Qed.

Lemma enumerate_length {A} (l : list A) (start : Z) :
  length (enumerate start l) = length l.
Proof. revert start. induction l as [|y l IH]; intros start; cbn; [|rewrite IH]; reflexivity. Qed.

Lemma filter_all {A} (f : A -> bool) (l : list A) :
  length (List.filter f l) = length l -> List.filter f l = l.
Proof.
  induction l as [|x l IH]; [reflexivity|]. cbn.
  pose proof (List.filter_length_le f l) as Hle.
  destruct (f x); cbn; intros H.
  - f_equal. apply IH. lia.
  - lia.
Qed.

Lemma carried_positions (E : Env) (res : list Track.t) (l : list (Z * TidalTrack.t)) :
  Forall2 (carries E) res l -> map Track.position res = map (fun it => Some it.1) l.
Proof.
  induction 1 as [|r it res l (_ & tr & _ & ->) _ IH]; [reflexivity|].
  cbn. now rewrite IH.
Qed.

(** Every listed track is the translation of an available track object
    and carries that object's index in the helper's sequence, counted
    from 1. *)
Lemma listed_sources (E : Env) (tracks : list TidalTrack.t) (res : list Track.t) :
  listed E tracks res ->
  Forall (fun r => exists (k : nat) (t : TidalTrack.t),
            tracks !! k = Some t /\ TidalTrack.available t = true /\
            Track.position r = Some (Z.of_nat k + 1)) res.
Proof.
  unfold listed. intros HF.
  assert (Hin : forall it, In it (List.filter (survives E) (enumerate 1 tracks)) ->
                           In it (enumerate 1 tracks))
    by (intros it Hit; now apply List.filter_In in Hit).
  revert Hin. induction HF as [|r [i t] res l (Ha & tr & _ & ->) _ IH]; intros Hin.
  - constructor.
  - constructor.
    + destruct (enumerate_lookup tracks 1 i t (Hin _ (or_introl eq_refl))) as (k & Hk & ->).
      exists k, t. cbn in *. repeat split; [exact Hk|exact Ha|f_equal; lia].
    + apply IH. intros it Hit. apply Hin. now right.
Qed.

(** When no track object is dropped, the positions are 1..N. *)
Lemma listed_dense (E : Env) (tracks : list TidalTrack.t) (res : list Track.t) :
  listed E tracks res -> length res = length tracks -> dense_positions res.
Proof.
  unfold listed, dense_positions. intros HF Hlen.
  pose proof (Forall2_length _ _ _ HF) as Hl.
  rewrite (carried_positions E _ _ HF).
  rewrite filter_all by (rewrite enumerate_length; lia).
  rewrite Hlen, <- (enumerate_fst tracks 1), map_map. reflexivity.
Qed.

Lemma map_Some_inj {A} (l1 l2 : list A) : map Some l1 = map Some l2 -> l1 = l2.
Proof.
  revert l2. induction l1 as [|x l1 IH]; intros [|y l2] H; try discriminate;
    [reflexivity|].
  cbn in H. injection H as -> H. f_equal. now apply IH.
Qed.

(** Entries kept from [enumerate(l, start)] whose indices are
    [start], [start+1], ... are its first entries. *)
Lemma filter_prefix {A} (f : Z * A -> bool) (l : list A) :
  forall (start : Z) (n : nat),
    map fst (List.filter f (enumerate start l)) = seqZ start (Z.of_nat n) ->
    List.filter f (enumerate start l) = firstn n (enumerate start l).
Proof.
  induction l as [|x l IH]; intros start n H; cbn [enumerate List.filter] in *.
  - now destruct n.
  - destruct (f (start, x)) eqn:Hf.
    + destruct n as [|n].
      { rewrite seqZ_nil in H by lia. discriminate. }
      rewrite (seqZ_cons start) in H by lia. cbn [map fst] in H. injection H as H.
      cbn [firstn]. f_equal. apply IH. rewrite H. f_equal; lia.
    + destruct n as [|n].
      { rewrite seqZ_nil in H by lia.
        destruct (List.filter f (enumerate (start + 1) l)); [reflexivity|discriminate]. }
      exfalso. rewrite (seqZ_cons start) in H by lia.
      destruct (List.filter f (enumerate (start + 1) l)) as [|[i y] F] eqn:HF;
        [discriminate|].
      cbn [map fst] in H. injection H as Hi _.
      assert (Hin : In (i, y) (List.filter f (enumerate (start + 1) l)))
        by (rewrite HF; now left).
      apply List.filter_In in Hin as [Hin _].
      apply enumerate_lookup in Hin as (k & _ & ->). lia.
Qed.

Lemma firstn_enumerate_fst {A} (l : list A) :
  forall (start : Z) (n : nat),
    (n <= length l)%nat ->
    map fst (firstn n (enumerate start l)) = seqZ start (Z.of_nat n).
Proof.
  induction l as [|x l IH]; intros start n Hn.
  - cbn in Hn. now replace n with 0%nat by lia.
  - destruct n as [|n]; [reflexivity|].
    cbn [enumerate firstn map fst]. cbn [length] in Hn. rewrite IH by lia.
    rewrite (seqZ_cons start) by lia. f_equal. f_equal; lia.
Qed.

(** The positions of a listing are 1..N exactly when the entries kept
    are the first N of the helper's sequence, that is when every track
    object that was dropped comes after all that were kept. *)
Lemma listed_dense_iff (E : Env) (tracks : list TidalTrack.t) (res : list Track.t) :
  listed E tracks res ->
  (dense_positions res <->
   List.filter (survives E) (enumerate 1 tracks)
     = firstn (length res) (enumerate 1 tracks)).
Proof.
  unfold listed, dense_positions. intros HF.
  pose proof (Forall2_length _ _ _ HF) as Hl.
  rewrite (carried_positions E _ _ HF).
  rewrite <- (map_map fst Some).
  split.
  - intros H. apply map_Some_inj in H. now apply filter_prefix.
  - intros H. f_equal. rewrite H. apply firstn_enumerate_fst.
    rewrite <- (enumerate_length tracks 1).
    rewrite Hl. apply List.filter_length_le.
Qed.

(** The positions of a listing are those of the surviving entries of
    [enumerate(tracks, 1)]: increasing, with a gap wherever an entry was
    dropped. *)
Lemma listed_positions (E : Env) (tracks : list TidalTrack.t) (res : list Track.t) :
  listed E tracks res ->
  map Track.position res =
    map (fun it => Some it.1) (List.filter (survives E) (enumerate 1 tracks)).
Proof. apply carried_positions. Qed.

(** C4 (amended).  Whenever [get_album_tracks], [get_artist_toptracks]
    or [get_playlist_tracks] returns, its result lists the helper's
    sequence: in order, one entry per track object that is available
    (and translated to a track), so no unavailable track is included;
    each entry carries as its position the 1-based index of its track
    object in the helper's unfiltered sequence.  The positions are
    exactly 1..N if and only if the entries kept are the first N of the
    helper's sequence (every dropped track object comes after all kept
    ones); in particular they are when no track object was dropped. *)
Theorem listings_carry_source_positions (E : Env) :
  (forall (i : string) (st st' : State) (res : list Track.t),
     get_album_tracks E i st = (Ok res, st') ->
     exists tracks, helpers.get_album_tracks E (_tidal_session (self st)) i = Ok tracks /\
                    listed E tracks res) /\
  (forall (i : string) (st st' : State) (res : list Track.t),
     get_artist_toptracks E i st = (Ok res, st') ->
     exists tracks, helpers.get_artist_toptracks E (_tidal_session (self st)) i = Ok tracks /\
                    listed E tracks res) /\
  (forall (i : string) (st st' : State) (res : list Track.t),
     get_playlist_tracks E i st = (Ok res, st') ->
     exists tracks, helpers.get_playlist_tracks E (_tidal_session (self st)) i = Ok tracks /\
                    listed E tracks res) /\
  (forall (tracks : list TidalTrack.t) (res : list Track.t),
     listed E tracks res ->
     Forall (fun r => exists (k : nat) (t : TidalTrack.t),
               tracks !! k = Some t /\ TidalTrack.available t = true /\
               Track.position r = Some (Z.of_nat k + 1)) res /\
     map Track.position res =
       map (fun it => Some it.1) (List.filter (survives E) (enumerate 1 tracks)) /\
     (dense_positions res <->
      List.filter (survives E) (enumerate 1 tracks)
        = firstn (length res) (enumerate 1 tracks)) /\
     (length res = length tracks -> dense_positions res)).
Proof.
  split; [|split; [|split]].
  - apply get_album_tracks_listed.
  - apply get_artist_toptracks_listed.
  - apply get_playlist_tracks_listed.
  - intros tracks res HL. split; [|split; [|split]].
    + now apply (listed_sources E).
    + now apply (listed_positions E).
    + now apply (listed_dense_iff E).
    + now apply (listed_dense E tracks).
Qed.

Lemma listings_carry_source_positions_witness :
  exists tracks : list TidalTrack.t,
    helpers.get_album_tracks Example.env_album
      (_tidal_session (self Example.logged_in)) "album" = Ok tracks /\
    listed Example.env_album tracks
      [ {| Track.item_id := "11"; Track.name := ""; Track.position := Some 1 |};
        {| Track.item_id := "13"; Track.name := ""; Track.position := Some 3 |} ].
Proof.
  apply (proj1 (listings_carry_source_positions Example.env_album)
           "album" Example.logged_in
           (snd (get_album_tracks Example.env_album "album" Example.logged_in))).
  reflexivity.
Defined.

(** C4 as stated fails: of three track objects with the second one
    unavailable, the album listing keeps the first and the third, at
    positions 1 and 3; numbered over the filtered sequence they would
    be 1 and 2. *)
Lemma listing_positions_counterexample :
  exists (res : list Track.t) (st' : State),
    get_album_tracks Example.env_album "album" Example.logged_in = (Ok res, st') /\
    length res = 2%nat /\
    map Track.position res = [Some 1; Some 3] /\
    ~ dense_positions res.
Proof.
  eexists _, _. split; [reflexivity|].
  split; [reflexivity|]. split; [reflexivity|].
  unfold dense_positions. cbn. discriminate.
Qed.

(** ** Removal by position *)

Lemma remove_body_eq (ps : list Z) (p : Z) (tr : Track.t) (ids : list string) (st : State) :
  remove_body ps (Track.set_position p tr) ids st =
    (Ok (if bool_decide (length (collect ps p tr ids) = length ps)
         then Break (collect ps p tr ids) else Continue (collect ps p tr ids)), st).
Proof.
  unfold remove_body, collect. cbn [Track.position Track.item_id Track.set_position].
  now case_bool_decide.
Qed.

Lemma picked_shift (E : Env) (ps : list Z) (index : Z) (t : TidalTrack.t)
    (rest : list TidalTrack.t) (i : string) :
  picked E ps (index + 1) rest i -> picked E ps index (t :: rest) i.
Proof.
  intros (k & t' & tr & Hk & Ha & Hp & Hin & ->).
  exists (S k), t', tr. repeat split; try assumption.
  now replace (index + 1 + Z.of_nat (S k)) with (index + 1 + 1 + Z.of_nat k) by lia.
Qed.

Lemma collect_picked (E : Env) (ps : list Z) (index : Z) (t : TidalTrack.t)
    (rest : list TidalTrack.t) (tr : Track.t) (ids : list string) :
  TidalTrack.available t = true -> parse_track E (Some t) = Ok (Some tr) ->
  exists new, collect ps (index + 1) tr ids = ids ++ new /\
              Forall (picked E ps index (t :: rest)) new.
Proof.
  intros Ha Hp. unfold collect, position_in. case_bool_decide as Hin.
  - exists [Track.item_id tr]. split; [reflexivity|]. constructor; [|constructor].
    exists 0%nat, t, tr. repeat split; try assumption.
    now replace (index + 1 + Z.of_nat 0) with (index + 1) by lia.
  - exists []. split; [now rewrite app_nil_r|constructor].
Qed.

(** The loop of [remove_playlist_tracks]: it only logs translations;
    what it collects was yielded at a requested position; and it raises
    only what a translation raised. *)
Lemma remove_loop_spec (E : Env) (ps : list Z) (tracks : list TidalTrack.t) :
  forall (index : Z) (ids : list string) (st : State),
    (exists parses : list Call,
       snd (playlist_tracks_loop E (remove_body ps) index tracks ids st) =
         {| self := self st; config := config st; calls := calls st ++ parses |} /\
       Forall is_parse_track parses) /\
    match fst (playlist_tracks_loop E (remove_body ps) index tracks ids st) with
    | Ok f => exists new, flow_value f = ids ++ new /\ Forall (picked E ps index tracks) new
    | Raise e => exists t, In t tracks /\ parse_track E (Some t) = Raise e
    end.
Proof.
  induction tracks as [|t rest IH]; intros index ids st.
  - cbn. split.
    + exists []. rewrite app_nil_r. split; [now destruct st|constructor].
    + exists []. split; [now rewrite app_nil_r|constructor].
  - cbn [playlist_tracks_loop].
    assert (Hrest : forall ids1 st1,
      (exists parses, st1 = {| self := self st; config := config st;
                               calls := calls st ++ parses |} /\
                      Forall is_parse_track parses) ->
      (exists new1, ids1 = ids ++ new1 /\ Forall (picked E ps index (t :: rest)) new1) ->
      (exists parses,
         snd (playlist_tracks_loop E (remove_body ps) (index + 1) rest ids1 st1) =
           {| self := self st; config := config st; calls := calls st ++ parses |} /\
         Forall is_parse_track parses) /\
      match fst (playlist_tracks_loop E (remove_body ps) (index + 1) rest ids1 st1) with
      | Ok f => exists new, flow_value f = ids ++ new /\
                            Forall (picked E ps index (t :: rest)) new
      | Raise e => exists t', In t' (t :: rest) /\ parse_track E (Some t') = Raise e
      end).
    { intros ids1 st1 (parses1 & -> & HP1) (new1 & -> & HN1).
      destruct (IH (index + 1) (ids ++ new1)
                  {| self := self st; config := config st;
                     calls := calls st ++ parses1 |}) as [(parses & Hs & HP) Hr].
      split.
      - exists (parses1 ++ parses). rewrite Hs. cbn. rewrite <- app_assoc.
        split; [reflexivity|]. now apply Forall_app.
      - destruct (fst (playlist_tracks_loop E _ _ rest _ _)) as [f|e].
        + destruct Hr as (new & Hf & HN). exists (new1 ++ new).
          rewrite Hf, <- app_assoc. split; [reflexivity|].
          apply Forall_app. split; [exact HN1|].
          eapply Forall_impl; [exact HN|]. intros i. apply picked_shift.
        + destruct Hr as (t' & Hin & Hp). exists t'. split; [now right|exact Hp]. }
    destruct (TidalTrack.available t) eqn:Ha.
    + rewrite bind_await.
      destruct (parse_track E (Some t)) as [[tr|]|e] eqn:Hp.
      * unfold bind at 1 2. rewrite remove_body_eq.
        destruct (collect_picked E ps index t rest tr ids Ha Hp) as (new1 & Hc & HN1).
        case_bool_decide.
        -- cbn. split.
           ++ exists [call_parse_track (Some t)]. split; [reflexivity|].
              constructor; [exact I|constructor].
           ++ exists new1. split; assumption.
        -- apply Hrest.
           ++ exists [call_parse_track (Some t)]. split; [reflexivity|].
              constructor; [exact I|constructor].
           ++ exists new1. split; assumption.
      * apply Hrest.
        -- exists [call_parse_track (Some t)]. split; [reflexivity|].
           constructor; [exact I|constructor].
        -- exists []. split; [now rewrite app_nil_r|constructor].
      * cbn. split.
        -- exists [call_parse_track (Some t)]. split; [reflexivity|].
           constructor; [exact I|constructor].
        -- exists t. split; [now left|exact Hp].
    + apply Hrest.
      * exists []. rewrite app_nil_r. split; [now destruct st|constructor].
      * exists []. split; [now rewrite app_nil_r|constructor].
Qed.

(** One turn of the loop of [remove_playlist_tracks]. *)
Lemma remove_loop_cons (E : Env) (ps : list Z) (index : Z) (t : TidalTrack.t)
    (rest : list TidalTrack.t) (ids : list string) (st : State) :
  playlist_tracks_loop E (remove_body ps) index (t :: rest) ids st =
    if TidalTrack.available t then
      match parse_track E (Some t) with
      | Ok (Some tr) =>
          if bool_decide (length (collect ps (index + 1) tr ids) = length ps)
          then (Ok (Break (collect ps (index + 1) tr ids)),
                logged (call_parse_track (Some t)) st)
          else playlist_tracks_loop E (remove_body ps) (index + 1) rest
                 (collect ps (index + 1) tr ids) (logged (call_parse_track (Some t)) st)
      | Ok None =>
          playlist_tracks_loop E (remove_body ps) (index + 1) rest ids
            (logged (call_parse_track (Some t)) st)
      | Raise e => (Raise e, logged (call_parse_track (Some t)) st)
      end
    else playlist_tracks_loop E (remove_body ps) (index + 1) rest ids st.
Proof.
  cbn [playlist_tracks_loop]. destruct (TidalTrack.available t); [|reflexivity].
  rewrite bind_await. destruct (parse_track E (Some t)) as [[tr|]|e]; try reflexivity.
  unfold bind at 1. rewrite remove_body_eq. now case_bool_decide.
Qed.

(** The loop is left only with as many ids as requested positions. *)
Lemma remove_loop_break_count (E : Env) (ps : list Z) (tracks : list TidalTrack.t) :
  forall (index : Z) (ids ids' : list string) (st st' : State),
    playlist_tracks_loop E (remove_body ps) index tracks ids st = (Ok (Break ids'), st') ->
    length ids' = length ps.
Proof.
  induction tracks as [|t rest IH]; intros index ids ids' st st' H.
  - discriminate.
  - rewrite remove_loop_cons in H.
    destruct (TidalTrack.available t); [|exact (IH _ _ _ _ _ H)].
    destruct (parse_track E (Some t)) as [[tr|]|e]; [| exact (IH _ _ _ _ _ H) | discriminate].
    case_bool_decide as Hlen; [|exact (IH _ _ _ _ _ H)].
    injection H as <- _. exact Hlen.
Qed.

(** Once a yielded track brings the number of collected ids to the
    number of requested positions, the loop is left there: whatever
    follows that track in the playlist is neither translated nor looked
    at. *)
Lemma remove_loop_break_early (E : Env) (ps : list Z) (pre : list TidalTrack.t) :
  forall (index : Z) (ids ids1 : list string) (st st1 : State)
         (t : TidalTrack.t) (tr : Track.t) (post : list TidalTrack.t),
    playlist_tracks_loop E (remove_body ps) index pre ids st = (Ok (Continue ids1), st1) ->
    TidalTrack.available t = true ->
    parse_track E (Some t) = Ok (Some tr) ->
    length (collect ps (index + Z.of_nat (length pre) + 1) tr ids1) = length ps ->
    playlist_tracks_loop E (remove_body ps) index (pre ++ t :: post) ids st =
      (Ok (Break (collect ps (index + Z.of_nat (length pre) + 1) tr ids1)),
       logged (call_parse_track (Some t)) st1).
Proof.
  induction pre as [|u pre IH]; intros index ids ids1 st st1 t tr post H Ha Hp Hlen.
  - cbn in H. injection H as <- <-. cbn [app length] in *.
    replace (index + Z.of_nat 0 + 1) with (index + 1) in * by lia.
    rewrite remove_loop_cons, Ha, Hp. now rewrite bool_decide_eq_true_2.
  - cbn [app length] in *.
    replace (index + Z.of_nat (S (length pre)) + 1)
      with (index + 1 + Z.of_nat (length pre) + 1) in * by lia.
    rewrite remove_loop_cons in H |- *.
    destruct (TidalTrack.available u); [|now apply IH].
    destruct (parse_track E (Some u)) as [[tru|]|e]; [| now apply IH | discriminate].
    case_bool_decide; [discriminate|now apply IH].
Qed.

Lemma picked_removable (E : Env) (ps : list Z) (tracks : list TidalTrack.t) (i : string) :
  picked E ps 0 tracks i -> removable E ps tracks i.
Proof.
  intros (k & t & tr & Hk & Ha & Hp & Hin & ->).
  pose proof (lookup_lt_Some _ _ _ Hk) as Hlt.
  exists (0 + 1 + Z.of_nat k), t, tr. repeat split; try assumption; try lia.
  now replace (Z.to_nat (0 + 1 + Z.of_nat k - 1)) with k by lia.
Qed.

Lemma remove_playlist_tracks_eq (E : Env) (i : string) (ps : list Z) (st : State)
    (tracks : list TidalTrack.t) :
  helpers.get_playlist_tracks E (_tidal_session (self st)) i = Ok tracks ->
  remove_playlist_tracks E i ps st =
    match playlist_tracks_loop E (remove_body ps) 0 tracks []
            (logged (call_get_playlist_tracks (_tidal_session (self st)) i) st) with
    | (Ok f, st1) =>
        (add_remove_playlist_tracks E (_tidal_session (self st1)) i (flow_value f) false,
         logged (call_add_remove_playlist_tracks (_tidal_session (self st1)) i
                   (flow_value f) false) st1)
    | (Raise e, st1) => (Raise e, st1)
    end.
Proof.
  intros Hh. unfold remove_playlist_tracks, iter_playlist_tracks.
  unfold bind at 1 2. cbn [get_self]. rewrite bind_await, Hh. unfold bind at 1.
  destruct (playlist_tracks_loop E (remove_body ps) 0 tracks [] _) as [[f|e] st1];
    reflexivity.
Qed.

(** [remove_playlist_tracks] on a playlist whose listing the helper
    answers with [tracks]. *)
Lemma remove_playlist_tracks_spec (E : Env) (i : string) (ps : list Z) (st : State)
    (tracks : list TidalTrack.t) :
  helpers.get_playlist_tracks E (_tidal_session (self st)) i = Ok tracks ->
  (exists (e : exn) (t : TidalTrack.t),
     In t tracks /\ parse_track E (Some t) = Raise e /\
     fst (remove_playlist_tracks E i ps st) = Raise e) \/
  (exists (ids : list string) (parses : list Call),
     remove_playlist_tracks E i ps st =
       (add_remove_playlist_tracks E (_tidal_session (self st)) i ids false,
        after_removal st i parses ids) /\
     Forall is_parse_track parses /\
     Forall (removable E ps tracks) ids).
Proof.
  intros Hh. rewrite (remove_playlist_tracks_eq E i ps st tracks Hh).
  destruct (remove_loop_spec E ps tracks 0 []
              (logged (call_get_playlist_tracks (_tidal_session (self st)) i) st))
    as [(parses & Hs & HP) Hr].
  destruct (playlist_tracks_loop E (remove_body ps) 0 tracks [] _) as [[f|e] st1];
    cbn [fst snd] in *.
  - right. destruct Hr as (new & Hf & HN). cbn [app] in Hf.
    exists new, parses. subst st1. rewrite Hf. unfold after_removal, logged. cbn.
    split; [|split].
    + now rewrite <- !app_assoc.
    + exact HP.
    + eapply Forall_impl; [exact HN|]. intros x. apply picked_removable.
  - left. destruct Hr as (t & Hin & Hp). now exists e, t.
Qed.

Lemma collect_in (ps : list Z) (p : Z) (tr : Track.t) (ids : list string) :
  p ∈ ps -> collect ps p tr ids = ids ++ [Track.item_id tr].
Proof. intros H. unfold collect, position_in. now rewrite bool_decide_eq_true_2. Qed.

Lemma collect_out (ps : list Z) (p : Z) (tr : Track.t) (ids : list string) :
  p ∉ ps -> collect ps p tr ids = ids.
Proof. intros H. unfold collect, position_in. now rewrite bool_decide_eq_false_2. Qed.

(** Positions 2 and 4 of a five-track playlist: the loop is left at the
    fourth track, and the batch holds the ids of the second and the
    fourth. *)
Lemma remove_two_of_five (E : Env) (i : string) (st : State) (ps : list Z)
    (t1 t2 t3 t4 t5 : TidalTrack.t) (r1 r2 r3 r4 r5 : Track.t) :
  length ps = 2%nat -> (forall p : Z, p ∈ ps <-> p = 2 \/ p = 4) ->
  helpers.get_playlist_tracks E (_tidal_session (self st)) i = Ok [t1; t2; t3; t4; t5] ->
  Forall (fun t => TidalTrack.available t = true) [t1; t2; t3; t4; t5] ->
  Forall2 (fun t r => parse_track E (Some t) = Ok (Some r))
    [t1; t2; t3; t4; t5] [r1; r2; r3; r4; r5] ->
  remove_playlist_tracks E i ps st =
    (add_remove_playlist_tracks E (_tidal_session (self st)) i
       [Track.item_id r2; Track.item_id r4] false,
     after_removal st i
       [call_parse_track (Some t1); call_parse_track (Some t2);
        call_parse_track (Some t3); call_parse_track (Some t4)]
       [Track.item_id r2; Track.item_id r4]).
Proof.
  intros Hlen Hps Hh Ha Hp.
  apply Forall_cons in Ha as [A1 Ha]. apply Forall_cons in Ha as [A2 Ha].
  apply Forall_cons in Ha as [A3 Ha]. apply Forall_cons in Ha as [A4 _].
  apply Forall2_cons in Hp as [P1 Hp]. apply Forall2_cons in Hp as [P2 Hp].
  apply Forall2_cons in Hp as [P3 Hp]. apply Forall2_cons in Hp as [P4 _].
  rewrite (remove_playlist_tracks_eq E i ps st _ Hh).
  rewrite remove_loop_cons, A1, P1.
  rewrite (collect_out ps (0 + 1)) by (rewrite Hps; lia).
  rewrite bool_decide_eq_false_2 by (rewrite Hlen; discriminate).
  rewrite remove_loop_cons, A2, P2.
  rewrite (collect_in ps (0 + 1 + 1)) by (rewrite Hps; lia).
  rewrite bool_decide_eq_false_2 by (rewrite Hlen; discriminate).
  rewrite remove_loop_cons, A3, P3.
  rewrite (collect_out ps (0 + 1 + 1 + 1)) by (rewrite Hps; lia).
  rewrite bool_decide_eq_false_2 by (rewrite Hlen; discriminate).
  rewrite remove_loop_cons, A4, P4.
  rewrite (collect_in ps (0 + 1 + 1 + 1 + 1)) by (rewrite Hps; lia).
  rewrite bool_decide_eq_true_2 by (rewrite Hlen; reflexivity).
  unfold after_removal, logged. cbn. now rewrite <- !app_assoc.
Qed.

(** C5.  On a playlist of five available tracks, [remove_playlist_tracks]
    with the positions 2 and 4 (in either order) issues one batch removal, of exactly the ids
    of the second and the fourth track, having stopped at the fourth
    (the fifth is never translated).  On any playlist and for any
    requested positions, unless a translation raises, the operation ends
    with one batch removal whose outcome is its own, and every id of the
    batch belongs to a track at a requested position between 1 and the
    playlist length: a requested position beyond the length removes
    nothing and raises nothing.  And the loop is left at the first
    yielded track that brings the number of collected ids to the number
    of requested positions, whatever follows it in the playlist. *)
Theorem remove_playlist_tracks_by_position (E : Env) (i : string) (st : State) :
  (forall (ps : list Z) (t1 t2 t3 t4 t5 : TidalTrack.t) (r1 r2 r3 r4 r5 : Track.t),
     length ps = 2%nat -> (forall p : Z, p ∈ ps <-> p = 2 \/ p = 4) ->
     helpers.get_playlist_tracks E (_tidal_session (self st)) i
       = Ok [t1; t2; t3; t4; t5] ->
     Forall (fun t => TidalTrack.available t = true) [t1; t2; t3; t4; t5] ->
     Forall2 (fun t r => parse_track E (Some t) = Ok (Some r))
       [t1; t2; t3; t4; t5] [r1; r2; r3; r4; r5] ->
     remove_playlist_tracks E i ps st =
       (add_remove_playlist_tracks E (_tidal_session (self st)) i
          [Track.item_id r2; Track.item_id r4] false,
        after_removal st i
          [call_parse_track (Some t1); call_parse_track (Some t2);
           call_parse_track (Some t3); call_parse_track (Some t4)]
          [Track.item_id r2; Track.item_id r4])) /\
  (forall (ps : list Z) (tracks : list TidalTrack.t),
     helpers.get_playlist_tracks E (_tidal_session (self st)) i = Ok tracks ->
     (exists (e : exn) (t : TidalTrack.t),
        In t tracks /\ parse_track E (Some t) = Raise e /\
        fst (remove_playlist_tracks E i ps st) = Raise e) \/
     (exists (ids : list string) (parses : list Call),
        remove_playlist_tracks E i ps st =
          (add_remove_playlist_tracks E (_tidal_session (self st)) i ids false,
           after_removal st i parses ids) /\
        Forall is_parse_track parses /\
        Forall (removable E ps tracks) ids)) /\
  (forall (ps : list Z) (pre post : list TidalTrack.t) (index : Z)
          (ids ids1 : list string) (st0 st1 : State) (t : TidalTrack.t) (tr : Track.t),
     playlist_tracks_loop E (remove_body ps) index pre ids st0
       = (Ok (Continue ids1), st1) ->
     TidalTrack.available t = true ->
     parse_track E (Some t) = Ok (Some tr) ->
     length (collect ps (index + Z.of_nat (length pre) + 1) tr ids1) = length ps ->
     playlist_tracks_loop E (remove_body ps) index (pre ++ t :: post) ids st0 =
       (Ok (Break (collect ps (index + Z.of_nat (length pre) + 1) tr ids1)),
        logged (call_parse_track (Some t)) st1)).
Proof.
  split; [|split].
  - intros. now apply (remove_two_of_five E i st ps t1 t2 t3 t4 t5 r1 r2 r3 r4 r5).
  - intros ps tracks. apply remove_playlist_tracks_spec.
  - intros ps pre post index ids ids1 st0 st1 t tr. apply remove_loop_break_early.
Qed.

Lemma remove_playlist_tracks_by_position_witness :
  remove_playlist_tracks Example.env_playlist "pl" [2; 4] Example.logged_in =
    (Ok tt,
     after_removal Example.logged_in "pl"
       [call_parse_track (Some (Example.track 101 true));
        call_parse_track (Some (Example.track 102 true));
        call_parse_track (Some (Example.track 103 true));
        call_parse_track (Some (Example.track 104 true))]
       ["102"; "104"]).
Proof.
  apply (proj1 (remove_playlist_tracks_by_position Example.env_playlist "pl"
                  Example.logged_in) [2; 4]
           (Example.track 101 true) (Example.track 102 true) (Example.track 103 true)
           (Example.track 104 true) (Example.track 105 true)
           (Example.parsed 101) (Example.parsed 102) (Example.parsed 103)
           (Example.parsed 104) (Example.parsed 105)).
  - reflexivity.
  - intros p. rewrite !elem_of_cons, elem_of_nil. tauto.
  - reflexivity.
  - repeat constructor.
  - repeat constructor.
Defined.

(** A position beyond the playlist: the fifth track is reached, one id
    is removed, nothing is raised. *)
Example remove_position_out_of_range :
  remove_playlist_tracks Example.env_playlist "pl" [2; 9] Example.logged_in =
    (Ok tt,
     after_removal Example.logged_in "pl"
       [call_parse_track (Some (Example.track 101 true));
        call_parse_track (Some (Example.track 102 true));
        call_parse_track (Some (Example.track 103 true));
        call_parse_track (Some (Example.track 104 true));
        call_parse_track (Some (Example.track 105 true))]
       ["102"]).
Proof. vm_compute. reflexivity. Qed.

(** ** Stream resolution *)

Lemma login_instance_id (E : Env) (st : State) :
  instance_id (self (snd (login E st))) = instance_id (self st).
Proof.
  destruct (login_condition (now E) (self st)) as [[|]|e] eqn:Hc.
  - now rewrite (login_fast_path E st Hc).
  - rewrite (login_slow_path E st Hc). now destruct (session_answer E (self st)).
  - now rewrite (login_type_error E st e Hc).
Qed.

(** [get_stream_details], step by step. *)
Lemma get_stream_details_eq (E : Env) (i : string) (st : State) :
  get_stream_details E i st =
    let session := _tidal_session (self st) in
    let st1 := logged (call_get_track session i) st in
    let st2 := logged (call_get_track_url session i) st1 in
    match helpers.get_track E session i with
    | Raise e => (Raise e, st1)
    | Ok track =>
        match get_track_url E session i with
        | Raise e => (Raise e, st2)
        | Ok url =>
            match track with
            | None => (Raise (MediaNotFoundError ("track " +:+ i +:+ " not found") None), st2)
            | Some track =>
                match login E st2 with
                | (Ok _, st3) =>
                    (Ok {| StreamDetails.item_id := TidalTrack.id track;
                           StreamDetails.provider := instance_id (self st3);
                           StreamDetails.content_type := FLAC;
                           StreamDetails.duration := TidalTrack.duration track;
                           StreamDetails.direct := url |}, st3)
                | (Raise e, st3) => (Raise e, st3)
                end
            end
        end
    end.
Proof.
  unfold get_stream_details. unfold bind at 1. cbn [get_self]. rewrite bind_await.
  destruct (helpers.get_track E _ i) as [track|e]; [|reflexivity].
  rewrite bind_await. cbn [self logged].
  destruct (get_track_url E _ i) as [url|e]; [|reflexivity].
  destruct track as [track|]; [|reflexivity].
  unfold bind at 1. cbn zeta.
  destruct (login E _) as [[h|e] st3]; reflexivity.
Qed.

(** C6 (amended).  When the metadata lookup yields no track and the
    stream-URL lookup, which is made before the track is checked,
    returns, [get_stream_details] fails with a not-found error whose
    message names the identifier.  When the URL lookup raises, that
    failure is what [get_stream_details] raises, whatever the metadata
    lookup yielded.  When the metadata lookup yields a track and
    [get_stream_details] returns a descriptor, the URL lookup returned,
    [login] was run after the two lookups and returned, the state is the
    one [login] left, and the descriptor carries the track's id, the
    instance id as provider tag, the FLAC content type, the track's
    duration and the URL. *)
Theorem stream_details_after_lookups (E : Env) (i : string) (st : State) :
  let session := _tidal_session (self st) in
  let st2 := logged (call_get_track_url session i) (logged (call_get_track session i) st) in
  (forall url : string,
     helpers.get_track E session i = Ok None ->
     get_track_url E session i = Ok url ->
     get_stream_details E i st =
       (Raise (MediaNotFoundError ("track " +:+ i +:+ " not found") None), st2) /\
     names ("track " +:+ i +:+ " not found") i) /\
  (forall (track : option TidalTrack.t) (e : exn),
     helpers.get_track E session i = Ok track ->
     get_track_url E session i = Raise e ->
     get_stream_details E i st = (Raise e, st2)) /\
  (forall (track : TidalTrack.t) (d : StreamDetails.t) (st' : State),
     helpers.get_track E session i = Ok (Some track) ->
     get_stream_details E i st = (Ok d, st') ->
     exists (url : string) (h : option TidalSession.t),
       get_track_url E session i = Ok url /\
       login E st2 = (Ok h, st') /\
       d = {| StreamDetails.item_id := TidalTrack.id track;
              StreamDetails.provider := instance_id (self st);
              StreamDetails.content_type := FLAC;
              StreamDetails.duration := TidalTrack.duration track;
              StreamDetails.direct := url |}).
Proof.
  intros session st2. subst session st2. split; [|split].
  - intros url Ht Hu. rewrite get_stream_details_eq. cbn zeta. rewrite Ht, Hu.
    split; [reflexivity|]. now exists "track ", " not found".
  - intros track e Ht Hu. rewrite get_stream_details_eq. cbn zeta.
    now rewrite Ht, Hu.
  - intros track d st' Ht. rewrite get_stream_details_eq. cbn zeta. rewrite Ht.
    destruct (get_track_url E _ i) as [url|e]; [|discriminate].
    set (st2 := logged _ (logged _ st)).
    pose proof (login_instance_id E st2) as Hid.
    destruct (login E st2) as [[h|e] st3]; [|discriminate].
    intros H. injection H as <- <-. exists url, h.
    repeat split. cbn in Hid. now rewrite Hid.
Qed.

Lemma stream_details_after_lookups_witness :
  exists (url : string) (h : option TidalSession.t),
    get_track_url Example.env_stream (_tidal_session (self Example.logged_in)) "7" = Ok url /\
    login Example.env_stream
      (logged (call_get_track_url (_tidal_session (self Example.logged_in)) "7")
         (logged (call_get_track (_tidal_session (self Example.logged_in)) "7")
            Example.logged_in))
    = (Ok h, snd (get_stream_details Example.env_stream "7" Example.logged_in)) /\
    {| StreamDetails.item_id := 7; StreamDetails.provider := "tidal";
       StreamDetails.content_type := FLAC; StreamDetails.duration := 180;
       StreamDetails.direct := "https://cdn.example/7.flac" |}
    = {| StreamDetails.item_id := TidalTrack.id (Example.track 7 true);
         StreamDetails.provider := instance_id (self Example.logged_in);
         StreamDetails.content_type := FLAC;
         StreamDetails.duration := TidalTrack.duration (Example.track 7 true);
         StreamDetails.direct := url |}.
Proof.
  apply (proj2 (proj2 (stream_details_after_lookups Example.env_stream "7"
                         Example.logged_in))).
  - reflexivity.
  - reflexivity.
Defined.

(** C6 as stated fails: the metadata lookup yields no track, the URL
    lookup raises, and what [get_stream_details] raises is the URL
    lookup's failure, not a not-found error. *)
Lemma stream_details_counterexample :
  helpers.get_track Example.env_no_url (_tidal_session (self Example.logged_in)) "0"
    = Ok None /\
  fst (get_stream_details Example.env_no_url "0" Example.logged_in)
    = Raise (OtherError "404 Client Error") /\
  (forall (msg : string) (cause : option exn),
     fst (get_stream_details Example.env_no_url "0" Example.logged_in)
       <> Raise (MediaNotFoundError msg cause)).
Proof.
  split; [reflexivity|]. split; [reflexivity|]. intros msg cause. discriminate.
Qed.

(** ** Single-entity fetches *)

Lemma append_assoc3 (a b c : string) : (a +:+ b) +:+ c = a +:+ b +:+ c.
Proof.
  induction a as [|x a IH]; [reflexivity|].
  change (String x ((a +:+ b) +:+ c) = String x (a +:+ b +:+ c)). now rewrite IH.
Qed.

Lemma not_found_message_names (kind ident : string) :
  names (not_found_message kind ident) ident /\
  names (not_found_message kind ident) kind.
Proof.
  unfold names, not_found_message. split.
  - exists (kind +:+ " "), " not found". now rewrite append_assoc3.
  - now exists "", (" " +:+ ident +:+ " not found").
Qed.

(** The [try ... except MediaNotFoundError] around a body that changes
    nothing but the log. *)
Lemma try_except_reraises {T} (kind ident : string) (m : M T) (st : State) :
  reraises kind ident (fst (m st))
    (fst (try_except_not_found m
            (fun err => raise (MediaNotFoundError (not_found_message kind ident) (Some err)))
            st)).
Proof.
  unfold reraises, try_except_not_found, raise.
  destruct (m st) as [[v|e] st1]; cbn.
  - repeat split; intros; congruence.
  - destruct e as [msg c|msg|msg|msg|d]; (split; [|split]);
      cbn [fst]; intros; congruence.
Qed.

(** A single-entity fetch whose [try] is the method [m] and whose
    outcome without the [try] would be [body]. *)
Ltac reraise_case :=
  match goal with
  | |- reraises ?kind ?i ?body (fst (try_except_not_found ?m ?h ?st)) =>
      replace body with (fst (m st));
      [ apply (try_except_reraises kind i m st)
      | unfold bind at 1; cbn [get_self]; rewrite bind_await;
        match goal with
        | |- context [fetch_then_parse ?r _] => destruct r
        end; reflexivity ]
  end.

(** C7 (code defect).  Each of [get_artist], [get_album], [get_track],
    [get_playlist] turns a not-found failure of the helper's fetch into
    a not-found failure whose message is "<Kind> <id> not found" (raised
    from the original one; the message names the id and the kind; for
    [get_track "missing-id"] it contains "missing-id"), and lets any
    other failure of the fetch through unchanged.  But the translation
    is called without [await]: whatever it would do, the method returns
    its coroutine unrun, with only the fetch in the call log.  So a
    not-found failure of the translation is not caught: it is raised,
    as it is, only when the caller awaits what the method returned. *)
Theorem single_fetch_translation_not_awaited (E : Env) (i : string) (st : State) :
  let session := _tidal_session (self st) in
  reraises "Artist" i
    (fetch_then_parse (helpers.get_artist E session i)
       (pending_translation call_parse_artist (parse_artist E)))
    (fst (get_artist E i st)) /\
  reraises "Album" i
    (fetch_then_parse (helpers.get_album E session i)
       (pending_translation call_parse_album (parse_album E)))
    (fst (get_album E i st)) /\
  reraises "Track" i
    (fetch_then_parse (helpers.get_track E session i)
       (pending_translation call_parse_track (parse_track E)))
    (fst (get_track E i st)) /\
  reraises "Playlist" i
    (fetch_then_parse (helpers.get_playlist E session i)
       (pending_translation call_parse_playlist (parse_playlist E)))
    (fst (get_playlist E i st)) /\
  (forall kind : string,
     names (not_found_message kind i) i /\ names (not_found_message kind i) kind) /\
  (forall (msg : string) (cause : option exn),
     helpers.get_track E session "missing-id" = Raise (MediaNotFoundError msg cause) ->
     fst (get_track E "missing-id" st)
       = Raise (MediaNotFoundError "Track missing-id not found"
                  (Some (MediaNotFoundError msg cause))) /\
     names "Track missing-id not found" "missing-id") /\
  (forall (o : option TidalTrack.t) (e : exn),
     helpers.get_track E session i = Ok o ->
     parse_track E o = Raise e ->
     get_track E i st
       = (Ok (Pending (call_parse_track o) (Raise e)), logged (call_get_track session i) st) /\
     fst (await_pending (Pending (call_parse_track o) (@Raise (option Track.t) e))
            (logged (call_get_track session i) st)) = Raise e).
Proof.
  intros session. subst session. unfold pending_translation.
  split; [|split; [|split; [|split; [|split; [|split]]]]].
  - unfold get_artist. reraise_case.
  - unfold get_album. reraise_case.
  - unfold get_track. reraise_case.
  - unfold get_playlist. reraise_case.
  - intros kind. apply not_found_message_names.
  - intros msg cause Hf. split.
    + pose proof (try_except_reraises "Track" "missing-id"
        (bind get_self (fun p =>
           bind (await (call_get_track (_tidal_session p) "missing-id")
                   (helpers.get_track E (_tidal_session p) "missing-id"))
                (fun o => ret (Pending (call_parse_track o) (parse_track E o))))) st)
        as [Hnf _].
      apply (Hnf msg cause).
      unfold bind at 1. cbn [get_self]. rewrite bind_await, Hf. reflexivity.
    + now exists "Track ", " not found".
  - intros o e Hf Hp. split; [|reflexivity].
    unfold get_track, try_except_not_found. unfold bind at 1. cbn [get_self].
    rewrite bind_await, Hf, Hp. reflexivity.
Qed.

Lemma single_fetch_translation_not_awaited_witness :
  get_track Example.env_parse_missing "7" Example.logged_in
    = (Ok (Pending (call_parse_track (Some (Example.track 7 true)))
             (Raise (MediaNotFoundError "track has no album" None))),
       logged (call_get_track (_tidal_session (self Example.logged_in)) "7")
         Example.logged_in) /\
  fst (await_pending
         (Pending (call_parse_track (Some (Example.track 7 true)))
            (@Raise (option Track.t) (MediaNotFoundError "track has no album" None)))
         (logged (call_get_track (_tidal_session (self Example.logged_in)) "7")
            Example.logged_in))
    = Raise (MediaNotFoundError "track has no album" None).
Proof.
  apply (proj2 (proj2 (proj2 (proj2 (proj2 (proj2
           (single_fetch_translation_not_awaited Example.env_parse_missing "7"
              Example.logged_in))))))).
  - reflexivity.
  - reflexivity.
Defined.

(** ** Search *)

Lemma only_logs_ret (P : Call -> Prop) {A} (a : A) : only_logs P (ret a).
Proof.
  intros st. exists []. rewrite app_nil_r. split; [now destruct st|constructor].
Qed.

Lemma only_logs_await (P : Call -> Prop) {A} (c : Call) (r : result A) :
  P c -> only_logs P (await c r).
Proof.
  intros Hc st. exists [c]. split; [reflexivity|]. constructor; [exact Hc|constructor].
Qed.

Lemma only_logs_bind (P : Call -> Prop) {A B} (m : M A) (k : A -> M B) :
  only_logs P m -> (forall a, only_logs P (k a)) -> only_logs P (bind m k).
Proof.
  intros Hm Hk st. unfold bind. destruct (Hm st) as (new1 & Hs1 & HP1).
  destruct (m st) as [[a|e] st1]; cbn [snd] in *; subst st1.
  - destruct (Hk a {| self := self st; config := config st; calls := calls st ++ new1 |})
      as (new2 & Hs2 & HP2).
    exists (new1 ++ new2). rewrite Hs2. cbn. rewrite <- app_assoc.
    split; [reflexivity|]. now apply Forall_app.
  - now exists new1.
Qed.

Lemma only_logs_for_append (P : Call -> Prop) {A B} (f : A -> M B) (l : list A) :
  (forall x, only_logs P (f x)) -> forall acc, only_logs P (for_append f l acc).
Proof.
  intros Hf. induction l as [|x l IH]; intros acc; cbn.
  - apply only_logs_ret.
  - apply only_logs_bind; [apply Hf|]. intros y. apply IH.
Qed.

Lemma only_logs_if_any_for_append (P : Call -> Prop) {A B} (f : A -> M B) (l : list A) :
  (forall x, only_logs P (f x)) -> only_logs P (if_any_for_append f l).
Proof.
  intros Hf. unfold if_any_for_append. case_bool_decide.
  - apply only_logs_ret.
  - now apply only_logs_for_append.
Qed.

Lemma str_replace_char_filter (old : ascii) (s : string) :
  list_ascii_of_string (str_replace_char old "" s) =
    List.filter (fun c => negb (Ascii.eqb c old)) (list_ascii_of_string s).
Proof.
  induction s as [|c s IH]; [reflexivity|].
  cbn [str_replace_char list_ascii_of_string List.filter].
  destruct (Ascii.eqb c old); cbn [negb].
  - exact IH.
  - cbn [list_ascii_of_string]. now rewrite IH.
Qed.

(** After the search request, [search] only translates. *)
Lemma search_calls (E : Env) (q : string) (mt : option (list MediaType)) (limit : Z)
    (st : State) :
  exists parses : list Call,
    calls (snd (search E q mt limit st)) =
      calls st ++
      call_search (_tidal_session (self st)) (str_replace_char apostrophe "" q) mt limit
      :: parses /\
    Forall is_translation parses.
Proof.
  unfold search. cbn zeta. unfold bind at 1. cbn [get_self]. rewrite bind_await.
  destruct (helpers.search E _ _ mt limit) as [results|e].
  - match goal with
    | |- context [snd (?m (logged ?c st))] =>
        assert (Hm : only_logs is_translation m)
    end.
    { repeat (apply only_logs_bind;
              [apply only_logs_if_any_for_append; intros x;
               apply only_logs_await; exact I | intros ?]).
      apply only_logs_ret. }
    destruct (Hm (logged
      (call_search (_tidal_session (self st)) (str_replace_char apostrophe "" q) mt limit)
      st)) as (parses & Hs & HP).
    exists parses. rewrite Hs. cbn. rewrite <- app_assoc. now split.
  - exists []. split; [reflexivity|constructor].
Qed.

(** C8.  Whatever the query, the one search request [search] makes
    carries the query with every apostrophe removed and every other
    character kept, in order (all later calls are translations of the
    results); for "O'Brien" that is "OBrien". *)
Theorem search_strips_apostrophes (E : Env) (q : string)
    (mt : option (list MediaType)) (limit : Z) (st : State) :
  (exists parses : list Call,
     calls (snd (search E q mt limit st)) =
       calls st ++
       call_search (_tidal_session (self st)) (str_replace_char apostrophe "" q) mt limit
       :: parses /\
     Forall is_translation parses) /\
  list_ascii_of_string (str_replace_char apostrophe "" q) = without_apostrophes q /\
  ~ In apostrophe (list_ascii_of_string (str_replace_char apostrophe "" q)) /\
  str_replace_char apostrophe "" "O'Brien" = "OBrien".
Proof.
  split; [apply search_calls|]. split; [apply str_replace_char_filter|]. split.
  - rewrite str_replace_char_filter. intros Hin.
    apply List.filter_In in Hin as [_ Hne].
    now rewrite Ascii.eqb_refl in Hne.
  - reflexivity.
Qed.

Lemma search_strips_apostrophes_witness :
  exists parses : list Call,
    calls (snd (search Example.env0 "O'Brien" None 5 Example.logged_in)) =
      calls Example.logged_in ++
      call_search (Some Example.session1) "OBrien" None 5 :: parses /\
    Forall is_translation parses.
Proof.
  exact (proj1 (search_strips_apostrophes Example.env0 "O'Brien" None 5
                  Example.logged_in)).
Defined.

(** ** Playlist creation *)





(** * Further properties of the adapter *)

(** ** Setup *)

(** [handle_setup], step by step: the two tokens are loaded, then the
    expiry, whose parsing may raise, then [login] is run. *)
Lemma handle_setup_eq (E : Env) (st : State) :
  handle_setup E st =
    let p2 := with_stored_tokens E st in
    match stored E (self st) (config st) (CONF_EXPIRY_TIME E) with
    | Some v =>
        match fromisoformat E v with
        | Some d =>
            match login E {| self := with_expiry_time (Some d) p2; config := config st;
                             calls := calls st |} with
            | (Ok _, st') => (Ok tt, st')
            | (Raise e, st') => (Raise e, st')
            end
        | None =>
            (Raise (ValueError ("Invalid isoformat string: '" +:+ v +:+ "'")),
             {| self := p2; config := config st; calls := calls st |})
        end
    | None =>
        match login E {| self := p2; config := config st; calls := calls st |} with
        | (Ok _, st') => (Ok tt, st')
        | (Raise e, st') => (Raise e, st')
        end
    end.
Proof.
  destruct st as [p cfg cs].
  unfold handle_setup, with_stored_tokens, stored.
  unfold bind at 1 2 3 4. cbn [get_self config_get self config calls].
  destruct (truthy_str (cfg !! conf_key p (CONF_ACCESS_TOKEN E))) as [a|];
    destruct (truthy_str (cfg !! conf_key p (CONF_REFRESH_TOKEN E))) as [r|];
    destruct (truthy_str (cfg !! conf_key p (CONF_EXPIRY_TIME E))) as [x|];
    try destruct (fromisoformat E x) as [d|];
    unfold bind, set_self, ret, raise; cbn -[login];
    try reflexivity;
    match goal with
    | |- context [login E ?s] => destruct (login E s) as [[h|e] st']; reflexivity
    end.
Qed.

(** X1.  When [setup] returns, the new instance made exactly one session
    request, with the token type "Bearer" and the credentials found in
    the configuration store (an absent or empty entry counts as [None]);
    the SDK answered it with a session [s]; the instance caches [s] and
    its four fields; and the store holds the four writes of the
    refresh. *)
Theorem setup_logs_in (E : Env) (iid : string) (cfg : gmap string string) (st : State) :
  setup E iid cfg = (Ok tt, st) ->
  exists (s : TidalSession.t) (expiry : option datetime),
    expiry = match stored E (new iid) cfg (CONF_EXPIRY_TIME E) with
             | Some v => fromisoformat E v
             | None => None
             end /\
    tidal_session E "Bearer"
      (stored E (new iid) cfg (CONF_ACCESS_TOKEN E))
      (stored E (new iid) cfg (CONF_REFRESH_TOKEN E)) expiry = Ok s /\
    self st = refreshed (new iid) s /\
    config st = foldl (fun m kv => <[kv.1 := kv.2]> m) cfg (refresh_writes E (new iid) s) /\
    calls st =
      call_tidal_session "Bearer"
        (stored E (new iid) cfg (CONF_ACCESS_TOKEN E))
        (stored E (new iid) cfg (CONF_REFRESH_TOKEN E)) expiry
      :: map (fun kv => call_config_set kv.1 kv.2) (refresh_writes E (new iid) s).
Proof.
  unfold setup. rewrite handle_setup_eq. cbn zeta.
  unfold with_stored_tokens. cbn [self config calls].
  destruct (stored E (new iid) cfg (CONF_ACCESS_TOKEN E)) as [a|] eqn:Ha;
    destruct (stored E (new iid) cfg (CONF_REFRESH_TOKEN E)) as [r|] eqn:Hr;
    destruct (stored E (new iid) cfg (CONF_EXPIRY_TIME E)) as [x|] eqn:Hx;
    try (destruct (fromisoformat E x) as [d|] eqn:Hd; [|discriminate]);
    (rewrite login_slow_path by reflexivity);
    unfold session_answer; cbn [_access_token _refresh_token _expiry_time
      with_access_token with_refresh_token with_expiry_time new];
    match goal with
    | |- context [tidal_session E ?t ?a0 ?r0 ?x0] =>
        destruct (tidal_session E t a0 r0 x0) as [s|e] eqn:Hs; [|discriminate];
        intros H; injection H as <-; exists s, x0
    end;
    (split; [reflexivity|]); (split; [exact Hs|]); repeat split.
Qed.

Lemma setup_logs_in_witness :
  exists (s : TidalSession.t) (expiry : option datetime),
    expiry = match stored Example.env2 (new "tidal") ∅ (CONF_EXPIRY_TIME Example.env2) with
             | Some v => fromisoformat Example.env2 v
             | None => None
             end /\
    tidal_session Example.env2 "Bearer"
      (stored Example.env2 (new "tidal") ∅ (CONF_ACCESS_TOKEN Example.env2))
      (stored Example.env2 (new "tidal") ∅ (CONF_REFRESH_TOKEN Example.env2)) expiry = Ok s /\
    self (snd (setup Example.env2 "tidal" ∅)) = refreshed (new "tidal") s /\
    config (snd (setup Example.env2 "tidal" ∅)) =
      foldl (fun m kv => <[kv.1 := kv.2]> m) ∅ (refresh_writes Example.env2 (new "tidal") s) /\
    calls (snd (setup Example.env2 "tidal" ∅)) =
      call_tidal_session "Bearer"
        (stored Example.env2 (new "tidal") ∅ (CONF_ACCESS_TOKEN Example.env2))
        (stored Example.env2 (new "tidal") ∅ (CONF_REFRESH_TOKEN Example.env2)) expiry
      :: map (fun kv => call_config_set kv.1 kv.2)
           (refresh_writes Example.env2 (new "tidal") s).
Proof.
  apply (setup_logs_in Example.env2 "tidal" ∅ (snd (setup Example.env2 "tidal" ∅))).
  reflexivity.
Defined.

(** X2.  When the stored expiry is present but is not an ISO date,
    [handle_setup] raises [ValueError] before it reaches [login]: no call
    is made and the store is untouched.  The two tokens were already
    taken from the store by then; the cached expiry, user id and session
    handle are as before. *)
Theorem handle_setup_invalid_expiry (E : Env) (st : State) (v : string) :
  stored E (self st) (config st) (CONF_EXPIRY_TIME E) = Some v ->
  fromisoformat E v = None ->
  exists (msg : string) (st' : State),
    handle_setup E st = (Raise (ValueError msg), st') /\
    calls st' = calls st /\ config st' = config st /\
    _access_token (self st') =
      match stored E (self st) (config st) (CONF_ACCESS_TOKEN E) with
      | Some a => Some a
      | None => _access_token (self st)
      end /\
    _refresh_token (self st') =
      match stored E (self st) (config st) (CONF_REFRESH_TOKEN E) with
      | Some r => Some r
      | None => _refresh_token (self st)
      end /\
    _expiry_time (self st') = _expiry_time (self st) /\
    _tidal_user_id (self st') = _tidal_user_id (self st) /\
    _tidal_session (self st') = _tidal_session (self st).
Proof.
  intros Hx Hd. rewrite handle_setup_eq. cbn zeta. rewrite Hx, Hd.
  eexists _, _. split; [reflexivity|]. cbn [self config calls].
  unfold with_stored_tokens.
  destruct (stored E (self st) (config st) (CONF_ACCESS_TOKEN E));
    destruct (stored E (self st) (config st) (CONF_REFRESH_TOKEN E));
    repeat split.
Qed.

Lemma handle_setup_invalid_expiry_witness :
  exists (msg : string) (st' : State),
    handle_setup Example.env0
      {| self := new "tidal"; config := Example.cfg_bad_expiry; calls := [] |}
      = (Raise (ValueError msg), st') /\
    calls st' = [] /\ config st' = Example.cfg_bad_expiry /\
    _access_token (self st') = Some "at0" /\
    _refresh_token (self st') = None /\
    _expiry_time (self st') = None /\
    _tidal_user_id (self st') = None /\
    _tidal_session (self st') = None.
Proof.
  apply (handle_setup_invalid_expiry Example.env0
           {| self := new "tidal"; config := Example.cfg_bad_expiry; calls := [] |}
           "tomorrow").
  - reflexivity.
  - reflexivity.
Defined.

(** ** What a refresh persists *)

Lemma conf_key_inj (p : TidalProvider.t) (a b : string) :
  conf_key p a = conf_key p b -> a = b.
Proof.
  unfold conf_key. intros H.
  apply (inj (String.app "providers/")) in H.
  apply (inj (String.app (instance_id p))) in H.
  now apply (inj (String.app "/values/")) in H.
Qed.

(** X3.  When the four configuration constants are pairwise different,
    each of the four entries a refresh writes can be read back from the
    store (the user id as [str] of it, the expiry in ISO format), and
    every other entry of the store is as it was. *)
Theorem refresh_writes_readable (E : Env) (st : State) (s : TidalSession.t) :
  NoDup [CONF_USERNAME E; CONF_ACCESS_TOKEN E; CONF_REFRESH_TOKEN E; CONF_EXPIRY_TIME E] ->
  login_condition (now E) (self st) = Ok false ->
  session_answer E (self st) = Ok s ->
  let cfg' := config (snd (login E st)) in
  let p := self st in
  cfg' !! conf_key p (CONF_USERNAME E) = Some (str (TidalSession.user_id s)) /\
  cfg' !! conf_key p (CONF_ACCESS_TOKEN E) = Some (TidalSession.access_token s) /\
  cfg' !! conf_key p (CONF_REFRESH_TOKEN E) = Some (TidalSession.refresh_token s) /\
  cfg' !! conf_key p (CONF_EXPIRY_TIME E)
    = Some (isoformat E (TidalSession.expiry_time s)) /\
  (forall k : string,
     k ∉ map (conf_key p) [CONF_USERNAME E; CONF_ACCESS_TOKEN E; CONF_REFRESH_TOKEN E;
                           CONF_EXPIRY_TIME E] ->
     cfg' !! k = config st !! k).
Proof.
  intros Hnd Hc Hs cfg' p. subst cfg' p.
  rewrite (login_refresh_returns E st s Hc Hs). cbn [snd after_refresh config foldl
    refresh_writes fst].
  apply NoDup_cons in Hnd as [H1 Hnd]. apply NoDup_cons in Hnd as [H2 Hnd].
  apply NoDup_cons in Hnd as [H3 _].
  apply not_elem_of_cons in H1 as [U1 H1]. apply not_elem_of_cons in H1 as [U2 H1].
  apply not_elem_of_cons in H1 as [U3 _]. apply not_elem_of_cons in H2 as [U4 H2].
  apply not_elem_of_cons in H2 as [U5 _]. apply not_elem_of_cons in H3 as [U6 _].
  assert (Hne : forall a b, a <> b -> conf_key (self st) a <> conf_key (self st) b)
    by (intros a b Hab Heq; apply Hab; now apply conf_key_inj in Heq).
  repeat split.
  - rewrite !lookup_insert_ne by (apply Hne; congruence). apply lookup_insert_eq.
  - rewrite !lookup_insert_ne by (apply Hne; congruence). apply lookup_insert_eq.
  - rewrite !lookup_insert_ne by (apply Hne; congruence). apply lookup_insert_eq.
  - apply lookup_insert_eq.
  - intros k Hk. cbn [map] in Hk.
    apply not_elem_of_cons in Hk as [K1 Hk]. apply not_elem_of_cons in Hk as [K2 Hk].
    apply not_elem_of_cons in Hk as [K3 Hk]. apply not_elem_of_cons in Hk as [K4 _].
    rewrite !lookup_insert_ne by congruence. reflexivity.
Qed.

Lemma refresh_writes_readable_witness :
  let cfg' := config (snd (login Example.env2 Example.fresh)) in
  let p := self Example.fresh in
  cfg' !! conf_key p (CONF_USERNAME Example.env2) = Some (str 42) /\
  cfg' !! conf_key p (CONF_ACCESS_TOKEN Example.env2) = Some "at2" /\
  cfg' !! conf_key p (CONF_REFRESH_TOKEN Example.env2) = Some "rt2" /\
  cfg' !! conf_key p (CONF_EXPIRY_TIME Example.env2)
    = Some (isoformat Example.env2 (Naive 172800000000)) /\
  (forall k : string,
     k ∉ map (conf_key p)
           [CONF_USERNAME Example.env2; CONF_ACCESS_TOKEN Example.env2;
            CONF_REFRESH_TOKEN Example.env2; CONF_EXPIRY_TIME Example.env2] ->
     cfg' !! k = config Example.fresh !! k).
Proof.
  apply (refresh_writes_readable Example.env2 Example.fresh Example.session2).
  - apply (bool_decide_unpack
             (NoDup [CONF_USERNAME Example.env2; CONF_ACCESS_TOKEN Example.env2;
                     CONF_REFRESH_TOKEN Example.env2; CONF_EXPIRY_TIME Example.env2])).
    vm_compute. exact I.
  - reflexivity.
  - reflexivity.
Defined.

Lemma truthy_str_Some (v : string) : v <> "" -> truthy_str (Some v) = Some v.
Proof. intros H. unfold truthy_str. now rewrite bool_decide_eq_false_2. Qed.

Lemma after_refresh_tokens (E : Env) (st : State) (s : TidalSession.t) :
  NoDup [CONF_ACCESS_TOKEN E; CONF_REFRESH_TOKEN E; CONF_EXPIRY_TIME E] ->
  config (after_refresh E st s) !! conf_key (self st) (CONF_ACCESS_TOKEN E)
    = Some (TidalSession.access_token s) /\
  config (after_refresh E st s) !! conf_key (self st) (CONF_REFRESH_TOKEN E)
    = Some (TidalSession.refresh_token s) /\
  config (after_refresh E st s) !! conf_key (self st) (CONF_EXPIRY_TIME E)
    = Some (isoformat E (TidalSession.expiry_time s)).
Proof.
  intros Hnd. cbn [after_refresh config foldl refresh_writes fst snd].
  apply NoDup_cons in Hnd as [H2 Hnd]. apply NoDup_cons in Hnd as [H3 _].
  apply not_elem_of_cons in H2 as [U4 H2]. apply not_elem_of_cons in H2 as [U5 _].
  apply not_elem_of_cons in H3 as [U6 _].
  assert (Hne : forall a b, a <> b -> conf_key (self st) a <> conf_key (self st) b)
    by (intros a b Hab Heq; apply Hab; now apply conf_key_inj in Heq).
  repeat split.
  - rewrite !lookup_insert_ne by (apply Hne; congruence). apply lookup_insert_eq.
  - rewrite !lookup_insert_ne by (apply Hne; congruence). apply lookup_insert_eq.
  - apply lookup_insert_eq.
Qed.

(** X4.  What a refresh persists is what the next start-up logs in
    with: when the three credential constants are pairwise different,
    the session's two tokens are non-empty, and [fromisoformat] reads
    back the ISO string written for the session's expiry, then [setup]
    of an instance with the same id on the store the refresh left makes
    its session request with exactly the session's access token,
    refresh token and expiry time. *)
Theorem setup_reads_back_refresh (E E' : Env) (st : State) (s : TidalSession.t) :
  NoDup [CONF_ACCESS_TOKEN E; CONF_REFRESH_TOKEN E; CONF_EXPIRY_TIME E] ->
  CONF_ACCESS_TOKEN E' = CONF_ACCESS_TOKEN E ->
  CONF_REFRESH_TOKEN E' = CONF_REFRESH_TOKEN E ->
  CONF_EXPIRY_TIME E' = CONF_EXPIRY_TIME E ->
  login_condition (now E) (self st) = Ok false ->
  session_answer E (self st) = Ok s ->
  TidalSession.access_token s <> "" ->
  TidalSession.refresh_token s <> "" ->
  isoformat E (TidalSession.expiry_time s) <> "" ->
  fromisoformat E' (isoformat E (TidalSession.expiry_time s))
    = Some (TidalSession.expiry_time s) ->
  exists rest : list Call,
    calls (snd (setup E' (instance_id (self st)) (config (snd (login E st))))) =
      call_tidal_session "Bearer"
        (Some (TidalSession.access_token s)) (Some (TidalSession.refresh_token s))
        (Some (TidalSession.expiry_time s))
      :: rest.
Proof.
  intros Hnd Ea Er Ex Hc Hs Na Nr Nx Hiso.
  rewrite (login_refresh_returns E st s Hc Hs). cbn [snd].
  destruct (after_refresh_tokens E st s Hnd) as (La & Lr & Lx).
  unfold setup. rewrite handle_setup_eq. cbn zeta.
  unfold with_stored_tokens, stored. cbn [self config calls].
  rewrite Ea, Er, Ex.
  change (conf_key (new (instance_id (self st)))) with (conf_key (self st)).
  rewrite La, Lr, Lx.
  rewrite !truthy_str_Some by assumption. rewrite Hiso.
  rewrite login_slow_path by reflexivity.
  unfold session_answer, session_request. cbn [self config calls _access_token
    _refresh_token _expiry_time with_access_token with_refresh_token with_expiry_time new].
  destruct (tidal_session E' _ _ _ _) as [s'|e]; cbn; eexists; reflexivity.
Qed.

Lemma setup_reads_back_refresh_witness :
  exists rest : list Call,
    calls (snd (setup Example.env2_reading "tidal"
                  (config (snd (login Example.env2 Example.fresh))))) =
      call_tidal_session "Bearer" (Some "at2") (Some "rt2") (Some (Naive 172800000000)) :: rest.
Proof.
  apply (setup_reads_back_refresh Example.env2 Example.env2_reading Example.fresh
           Example.session2).
  - apply (bool_decide_unpack
             (NoDup [CONF_ACCESS_TOKEN Example.env2; CONF_REFRESH_TOKEN Example.env2;
                     CONF_EXPIRY_TIME Example.env2])).
    vm_compute. exact I.
  - reflexivity.
  - reflexivity.
  - reflexivity.
  - reflexivity.
  - reflexivity.
  - discriminate.
  - discriminate.
  - vm_compute. discriminate.
  - reflexivity.
Defined.

(** ** What [login] guarantees to its caller *)

(** X5.  Whichever path it took, a [login] that returns hands out the
    handle that is cached afterwards, the cached access token is that
    handle's, and an expiry time is cached: one that compared as more
    than 30 minutes ahead of the clock (fast path), or the handle's own
    (refresh). *)
Theorem login_returns_the_cached_handle
    (E : Env) (st st' : State) (h : option TidalSession.t) :
  login E st = (Ok h, st') ->
  exists (s : TidalSession.t) (e : datetime),
    h = Some s /\
    _tidal_session (self st') = Some s /\
    _access_token (self st') = Some (TidalSession.access_token s) /\
    _expiry_time (self st') = Some e /\
    (later_than e (now E + timedelta_minutes 30) = inl true \/
     e = TidalSession.expiry_time s).
Proof.
  intros H.
  destruct (login_condition (now E) (self st)) as [[|]|err] eqn:Hc.
  - rewrite (login_fast_path E st Hc) in H. injection H as <- <-.
    unfold login_condition in Hc.
    destruct (_tidal_session (self st)) as [s|]; [|discriminate].
    case_bool_decide as Ht; [|discriminate].
    destruct (_expiry_time (self st)) as [e|] eqn:He; [|discriminate].
    destruct (later_than e (now E + timedelta_minutes 30)) as [b|msg] eqn:Hl;
      [|discriminate].
    injection Hc as ->.
    exists s, e. split; [reflexivity|]. split; [reflexivity|].
    split; [now symmetry|]. split; [reflexivity|now left].
  - rewrite (login_slow_path E st Hc) in H.
    destruct (session_answer E (self st)) as [s|err]; [|discriminate].
    injection H as <- <-. exists s, (TidalSession.expiry_time s).
    repeat split. now right.
  - rewrite (login_type_error E st err Hc) in H. discriminate.
Qed.

Lemma login_returns_the_cached_handle_witness :
  exists (s : TidalSession.t) (e : datetime),
    Some Example.session2 = Some s /\
    _tidal_session (self (snd (login Example.env2 Example.fresh))) = Some s /\
    _access_token (self (snd (login Example.env2 Example.fresh)))
      = Some (TidalSession.access_token s) /\
    _expiry_time (self (snd (login Example.env2 Example.fresh))) = Some e /\
    (later_than e (now Example.env2 + timedelta_minutes 30) = inl true \/
     e = TidalSession.expiry_time s).
Proof.
  apply (login_returns_the_cached_handle Example.env2 Example.fresh
           (snd (login Example.env2 Example.fresh)) (Some Example.session2)).
  reflexivity.
Defined.

(** X6.  A handle that [login] returned is good until 30 minutes before
    the cached expiry: any later [login] whose clock compares as still
    more than 30 minutes short of that expiry returns the same handle
    and leaves the state, call log included, as it is. *)
Theorem login_again_is_free
    (E : Env) (st st' : State) (h : option TidalSession.t) :
  login E st = (Ok h, st') ->
  exists e : datetime,
    _expiry_time (self st') = Some e /\
    forall E' : Env,
      later_than e (now E' + timedelta_minutes 30) = inl true ->
      login E' st' = (Ok h, st').
Proof.
  intros H.
  assert (Hpost : exists s e, h = Some s /\ _tidal_session (self st') = Some s /\
            _access_token (self st') = Some (TidalSession.access_token s) /\
            _expiry_time (self st') = Some e).
  { destruct (login_condition (now E) (self st)) as [[|]|err] eqn:Hc.
    - rewrite (login_fast_path E st Hc) in H. injection H as <- <-.
      unfold login_condition in Hc.
      destruct (_tidal_session (self st)) as [s|]; [|discriminate].
      case_bool_decide as Ht; [|discriminate].
      destruct (_expiry_time (self st)) as [e|] eqn:He; [|discriminate].
      exists s, e. split; [reflexivity|]. split; [reflexivity|].
      split; [now symmetry|reflexivity].
    - rewrite (login_slow_path E st Hc) in H.
      destruct (session_answer E (self st)) as [s|err]; [|discriminate].
      injection H as <- <-. exists s, (TidalSession.expiry_time s). repeat split.
    - rewrite (login_type_error E st err Hc) in H. discriminate. }
  destruct Hpost as (s & e & -> & Hs & Ha & He).
  exists e. split; [exact He|]. intros E' Hgt.
  rewrite login_fast_path.
  - now rewrite Hs.
  - unfold login_condition. rewrite Hs, Ha, He.
    rewrite bool_decide_eq_true_2 by reflexivity.
    now rewrite Hgt.
Qed.

Lemma login_again_is_free_witness :
  exists e : datetime,
    _expiry_time (self (snd (login Example.env2 Example.fresh))) = Some e /\
    forall E' : Env,
      later_than e (now E' + timedelta_minutes 30) = inl true ->
      login E' (snd (login Example.env2 Example.fresh))
        = (Ok (Some Example.session2), snd (login Example.env2 Example.fresh)).
Proof.
  apply (login_again_is_free Example.env2 Example.fresh).
  reflexivity.
Defined.

(** ** Which operations persist anything *)

Lemma only_logs_get_self (P : Call -> Prop) : only_logs P get_self.
Proof.
  intros st. exists []. rewrite app_nil_r. split; [now destruct st|constructor].
Qed.

Lemma only_logs_raise (P : Call -> Prop) {A} (e : exn) : only_logs P (@raise A e).
Proof.
  intros st. exists []. rewrite app_nil_r. split; [now destruct st|constructor].
Qed.

Lemma only_logs_try_except (P : Call -> Prop) {A} (m : M A) (e' : exn -> exn) :
  only_logs P m -> only_logs P (try_except_not_found m (fun err => raise (e' err))).
Proof.
  intros Hm st. unfold try_except_not_found, raise. destruct (Hm st) as (new & Hs & HP).
  exists new. destruct (m st) as [[a|[msg c|msg|msg|msg|d]] st1]; cbn [snd] in *; now split.
Qed.

Lemma only_logs_enumerate_tracks_loop (P : Call -> Prop) (E : Env)
    (tracks : list TidalTrack.t) :
  (forall o, P (call_parse_track o)) ->
  forall index result, only_logs P (enumerate_tracks_loop E index tracks result).
Proof.
  intros HP. induction tracks as [|t rest IH]; intros index result; cbn.
  - apply only_logs_ret.
  - destruct (TidalTrack.available t); [|apply IH].
    apply only_logs_bind; [now apply only_logs_await|].
    intros [tr|]; [apply IH|apply only_logs_raise].
Qed.

Lemma only_logs_playlist_tracks_loop (P : Call -> Prop) {S} (E : Env)
    (body : Track.t -> S -> M (Flow S)) (tracks : list TidalTrack.t) :
  (forall o, P (call_parse_track o)) ->
  (forall t acc, only_logs P (body t acc)) ->
  forall index acc, only_logs P (playlist_tracks_loop E body index tracks acc).
Proof.
  intros HP Hb. induction tracks as [|t rest IH]; intros index acc; cbn.
  - apply only_logs_ret.
  - destruct (TidalTrack.available t); [|apply IH].
    apply only_logs_bind; [now apply only_logs_await|].
    intros [tr|]; [|apply IH].
    apply only_logs_bind; [apply Hb|]. intros [acc'|acc']; [apply IH|apply only_logs_ret].
Qed.

Lemma only_logs_similar_tracks_loop (P : Call -> Prop) (E : Env)
    (objs : list TidalTrack.t) :
  (forall o, P (call_parse_track o)) ->
  forall tracks, only_logs P (similar_tracks_loop E objs tracks).
Proof.
  intros HP. induction objs as [|t rest IH]; intros tracks; cbn.
  - apply only_logs_ret.
  - destruct (TidalTrack.available t); [|apply IH].
    apply only_logs_bind; [now apply only_logs_await|]. intros [tr|]; apply IH.
Qed.

Lemma only_logs_remove_body (P : Call -> Prop) (ps : list Z) (t : Track.t)
    (ids : list string) :
  only_logs P (remove_body ps t ids).
Proof. unfold remove_body. case_bool_decide; apply only_logs_ret. Qed.

(** Closing a goal [only_logs P m] for a method made of awaits and loops. *)
Ltac only_logs_tac :=
  repeat first
    [ apply only_logs_ret
    | apply only_logs_raise
    | apply only_logs_get_self
    | apply only_logs_remove_body
    | apply only_logs_try_except
    | apply only_logs_await; exact (fun H => H)
    | apply only_logs_for_append; intros ?
    | apply only_logs_if_any_for_append; intros ?
    | apply only_logs_enumerate_tracks_loop; intros ?; exact (fun H => H)
    | apply only_logs_similar_tracks_loop; intros ?; exact (fun H => H)
    | apply only_logs_playlist_tracks_loop;
        [intros ?; exact (fun H => H) | intros ? ?; cbn beta]
    | apply only_logs_bind; [|intros ?] ].

Lemma run_only_logs (E : Env) (o : Operation) :
  o <> op_handle_setup -> o <> op_login ->
  (forall i, o <> op_get_stream_details i) ->
  exists (A : Type) (m : M A),
    (forall st, run E o st = snd (m st)) /\
    only_logs (fun c => ~ touches_credentials c) m.
Proof.
  intros H1 H2 H3.
  destruct o; try congruence; try (now contradiction (H3 item_id));
    eexists _, _; (split; [intros st; reflexivity|]).
  - unfold search. cbn zeta. only_logs_tac.
  - unfold get_library_artists. only_logs_tac.
  - unfold get_library_albums. only_logs_tac.
  - unfold get_library_tracks. only_logs_tac.
  - unfold get_library_playlists. only_logs_tac.
  - unfold get_album_tracks. only_logs_tac.
  - unfold get_artist_albums. only_logs_tac.
  - unfold get_artist_toptracks. only_logs_tac.
  - unfold get_playlist_tracks, iter_playlist_tracks. only_logs_tac.
  - unfold get_similar_tracks. only_logs_tac.
  - unfold library_add. only_logs_tac.
  - unfold library_remove. only_logs_tac.
  - unfold add_playlist_tracks. only_logs_tac.
  - unfold remove_playlist_tracks, iter_playlist_tracks. only_logs_tac.
  - unfold create_playlist. only_logs_tac.
  - unfold get_artist. only_logs_tac.
  - unfold get_album. only_logs_tac.
  - unfold get_track. only_logs_tac.
  - unfold get_playlist. only_logs_tac.
Qed.

(** X7.  Only [handle_setup], [login] and [get_stream_details] can
    establish a session or write the configuration store: every other
    public operation, whether it returns or raises, leaves the instance
    fields and the store exactly as they were, and adds to the call log
    neither a session request nor a configuration write.  In particular
    none of them re-validates the session: they use the cached handle as
    it is. *)
Theorem only_login_persists (E : Env) (o : Operation) (st : State) :
  o <> op_handle_setup -> o <> op_login ->
  (forall i, o <> op_get_stream_details i) ->
  self (run E o st) = self st /\
  config (run E o st) = config st /\
  exists new : list Call,
    calls (run E o st) = calls st ++ new /\
    Forall (fun c => ~ touches_credentials c) new.
Proof.
  intros H1 H2 H3.
  destruct (run_only_logs E o H1 H2 H3) as (A & m & Hrun & Hm).
  rewrite Hrun. destruct (Hm st) as (new & Hs & HP). rewrite Hs. cbn.
  repeat split. now exists new.
Qed.

Lemma only_login_persists_witness :
  self (run Example.env_playlist (op_remove_playlist_tracks "pl" [2; 4]) Example.logged_in)
    = self Example.logged_in /\
  config (run Example.env_playlist (op_remove_playlist_tracks "pl" [2; 4])
            Example.logged_in)
    = config Example.logged_in /\
  exists new : list Call,
    calls (run Example.env_playlist (op_remove_playlist_tracks "pl" [2; 4])
             Example.logged_in)
      = calls Example.logged_in ++ new /\
    Forall (fun c => ~ touches_credentials c) new.
Proof.
  apply (only_login_persists Example.env_playlist (op_remove_playlist_tracks "pl" [2; 4])
           Example.logged_in).
  - discriminate.
  - discriminate.
  - discriminate.
Defined.

(** ** Removal by position, against the listing *)

Lemma listing_loop_yielded (E : Env) (tracks : list TidalTrack.t) :
  forall (index : Z) (acc : list Track.t) (f : Flow (list Track.t)) (st st' : State),
    playlist_tracks_loop E (fun track acc => ret (Continue (acc ++ [track])))
      index tracks acc st = (Ok f, st') ->
    f = Continue (acc ++ yielded E index tracks) /\
    Forall (translation_returns E) tracks.
Proof.
  induction tracks as [|t rest IH]; intros index acc f st st' H; cbn in H.
  - injection H as <- _. split; [now rewrite app_nil_r|constructor].
  - cbn [yielded]. destruct (TidalTrack.available t) eqn:Ha.
    + rewrite bind_await in H.
      destruct (parse_track E (Some t)) as [[tr|]|e] eqn:Hp; try discriminate.
      * unfold bind at 1 in H. cbn in H.
        apply IH in H as [-> HF]. split; [now rewrite <- app_assoc|].
        constructor; [|exact HF]. intros _. rewrite Hp. now eexists.
      * apply IH in H as [-> HF]. split; [reflexivity|].
        constructor; [|exact HF]. intros _. rewrite Hp. now eexists.
    + apply IH in H as [-> HF]. split; [reflexivity|].
      constructor; [|exact HF]. intros Ha'. congruence.
Qed.

Lemma yielded_positions (E : Env) (tracks : list TidalTrack.t) :
  forall index : Z,
    Forall (fun r => exists p, Track.position r = Some p /\ index < p)
      (yielded E index tracks).
Proof.
  induction tracks as [|t rest IH]; intros index; cbn [yielded]; [constructor|].
  assert (Hrest : Forall (fun r => exists p, Track.position r = Some p /\ index < p)
                    (yielded E (index + 1) rest)).
  { eapply Forall_impl; [apply IH|]. intros r (p & Hp & Hlt). exists p. split; [exact Hp|lia]. }
  destruct (TidalTrack.available t); [|exact Hrest].
  destruct (parse_track E (Some t)) as [[tr|]|e]; try exact Hrest.
  constructor; [|exact Hrest]. exists (index + 1). split; [reflexivity|lia].
Qed.

(** Nothing later in the listing is requested once every requested
    position has been met. *)
Lemma ids_at_exhausted (E : Env) (ps matched : list Z) (index : Z)
    (tracks : list TidalTrack.t) :
  List.NoDup matched -> incl matched ps -> Forall (fun p => p <= index) matched ->
  length matched = length ps ->
  ids_at ps (yielded E index tracks) = [].
Proof.
  intros Hnd Hincl Hle Hlen.
  assert (Hall : incl ps matched)
    by (apply List.NoDup_length_incl; [exact Hnd|lia|exact Hincl]).
  unfold ids_at.
  assert (Hf : Forall (fun r => position_in (Track.position r) ps = false)
                 (yielded E index tracks)).
  { eapply Forall_impl; [apply yielded_positions|]. intros r (p & Hp & Hlt).
    rewrite Hp. cbn. apply bool_decide_eq_false_2. intros Hin.
    apply list_elem_of_In, Hall in Hin.
    rewrite Forall_forall in Hle. apply list_elem_of_In, Hle in Hin. lia. }
  induction Hf as [|r l Hr _ IH]; [reflexivity|]. cbn. now rewrite Hr.
Qed.

Lemma ids_at_cons (ps : list Z) (p : Z) (tr : Track.t) (l : list Track.t) :
  ids_at ps (Track.set_position p tr :: l) =
    if position_in (Some p) ps then Track.item_id tr :: ids_at ps l else ids_at ps l.
Proof.
  unfold ids_at. cbn [List.filter Track.position Track.set_position].
  now destruct (position_in (Some p) ps).
Qed.

(** The removal loop collects exactly the ids the listing has at the
    requested positions: leaving the loop early loses none. *)
Lemma remove_loop_complete (E : Env) (ps : list Z) (tracks : list TidalTrack.t) :
  Forall (translation_returns E) tracks ->
  forall (index : Z) (ids : list string) (matched : list Z) (st : State),
    List.NoDup matched -> incl matched ps -> Forall (fun p => p <= index) matched ->
    length matched = length ids ->
    exists f : Flow (list string),
      fst (playlist_tracks_loop E (remove_body ps) index tracks ids st) = Ok f /\
      flow_value f = ids ++ ids_at ps (yielded E index tracks).
Proof.
  induction 1 as [|t rest Ht _ IH]; intros index ids matched st Hnd Hincl Hle Hlen.
  - exists (Continue ids). split; [reflexivity|]. cbn. now rewrite app_nil_r.
  - rewrite remove_loop_cons. cbn [yielded].
    assert (Hle' : Forall (fun p => p <= index + 1) matched)
      by (eapply Forall_impl; [exact Hle|]; cbn; intros; lia).
    destruct (TidalTrack.available t) eqn:Ha;
      [|now apply (IH (index + 1) ids matched st)].
    destruct (Ht Ha) as [[tr|] Hp]; rewrite Hp;
      [|now apply (IH (index + 1) ids matched _)].
    rewrite ids_at_cons. unfold collect. destruct (position_in (Some (index + 1)) ps) eqn:Hin.
    + cbn [map app].
      assert (Hnd' : List.NoDup ((index + 1) :: matched)).
      { constructor; [|exact Hnd]. intros Hm.
        rewrite Forall_forall in Hle. apply list_elem_of_In, Hle in Hm. lia. }
      assert (Hincl' : incl ((index + 1) :: matched) ps).
      { intros p [<-|Hp']; [|now apply Hincl].
        apply list_elem_of_In. cbn in Hin. now apply bool_decide_eq_true_1 in Hin. }
      assert (Hle'' : Forall (fun p => p <= index + 1) ((index + 1) :: matched))
        by (constructor; [lia|exact Hle']).
      assert (Hlen' : length ((index + 1) :: matched) = length (ids ++ [Track.item_id tr]))
        by (rewrite length_app; cbn; lia).
      case_bool_decide as Hstop.
      * exists (Break (ids ++ [Track.item_id tr])). split; [reflexivity|]. cbn [flow_value].
        rewrite (ids_at_exhausted E ps _ (index + 1) rest Hnd' Hincl' Hle'') by congruence.
        reflexivity.
      * destruct (IH (index + 1) (ids ++ [Track.item_id tr]) _
                    (logged (call_parse_track (Some t)) st) Hnd' Hincl' Hle'' Hlen')
          as (f & Hf & Hv).
        exists f. split; [exact Hf|]. rewrite Hv. now rewrite <- app_assoc.
    + case_bool_decide as Hstop.
      * exists (Break ids). split; [reflexivity|]. cbn [flow_value].
        rewrite (ids_at_exhausted E ps matched (index + 1) rest Hnd Hincl Hle') by congruence.
        now rewrite app_nil_r.
      * now apply (IH (index + 1) ids matched _).
Qed.

(** X8.  [remove_playlist_tracks] removes exactly what the listing shows
    at the requested positions: if [get_playlist_tracks] on the same
    state lists [res], the batch removal carries the item ids of the
    tracks of [res] whose position is requested, in playlist order, each
    once, however often or in whatever order the positions are given;
    leaving the loop early loses none of them. *)
Theorem remove_matches_listing (E : Env) (i : string) (ps : list Z) (st st1 : State)
    (res : list Track.t) :
  get_playlist_tracks E i st = (Ok res, st1) ->
  exists parses : list Call,
    remove_playlist_tracks E i ps st =
      (add_remove_playlist_tracks E (_tidal_session (self st)) i (ids_at ps res) false,
       after_removal st i parses (ids_at ps res)) /\
    Forall is_parse_track parses.
Proof.
  intros H. unfold get_playlist_tracks, iter_playlist_tracks in H.
  unfold bind at 1 in H. cbn [get_self] in H. rewrite bind_await in H.
  destruct (helpers.get_playlist_tracks E _ i) as [tracks|e] eqn:Hh; [|discriminate].
  unfold bind in H.
  destruct (playlist_tracks_loop E _ 0 tracks [] _) as [[f|e] st2] eqn:Hl; [|discriminate].
  apply listing_loop_yielded in Hl as [-> Hok]. cbn in H. injection H as <- _.
  rewrite (remove_playlist_tracks_eq E i ps st tracks Hh).
  destruct (remove_loop_spec E ps tracks 0 []
              (logged (call_get_playlist_tracks (_tidal_session (self st)) i) st))
    as [(parses & Hs & HP) _].
  destruct (remove_loop_complete E ps tracks Hok 0 [] []
              (logged (call_get_playlist_tracks (_tidal_session (self st)) i) st))
    as (f & Hf & Hv); [constructor|intros p []|constructor|reflexivity|].
  destruct (playlist_tracks_loop E (remove_body ps) 0 tracks [] _) as [r st3];
    cbn [fst snd] in *. subst r st3. cbn [app] in Hv. rewrite Hv.
  exists parses. split; [|exact HP].
  unfold after_removal, logged. cbn. now rewrite <- !app_assoc.
Qed.

Lemma remove_matches_listing_witness :
  exists parses : list Call,
    remove_playlist_tracks Example.env_playlist "pl" [4; 2; 4; 9] Example.logged_in =
      (add_remove_playlist_tracks Example.env_playlist
         (_tidal_session (self Example.logged_in)) "pl"
         (ids_at [4; 2; 4; 9]
            (map (fun k => Track.set_position (k - 100) (Example.parsed k))
               [101; 102; 103; 104; 105])) false,
       after_removal Example.logged_in "pl" parses
         (ids_at [4; 2; 4; 9]
            (map (fun k => Track.set_position (k - 100) (Example.parsed k))
               [101; 102; 103; 104; 105]))) /\
    Forall is_parse_track parses.
Proof.
  apply (remove_matches_listing Example.env_playlist "pl" [4; 2; 4; 9] Example.logged_in
           (snd (get_playlist_tracks Example.env_playlist "pl" Example.logged_in))).
  reflexivity.
Defined.

(** ** Translations that yield no track *)

Lemma enumerate_loop_untranslated (E : Env) (tracks : list TidalTrack.t) :
  Forall (translation_returns E) tracks -> Exists (untranslated E) tracks ->
  forall (index : Z) (result : list Track.t) (st : State),
    exists msg : string,
      fst (enumerate_tracks_loop E index tracks result st) = Raise (AttributeError msg).
Proof.
  induction 1 as [|t rest Ht _ IH]; intros Hex index result st.
  - now apply Exists_nil in Hex.
  - cbn [enumerate_tracks_loop].
    destruct (TidalTrack.available t) eqn:Ha.
    + rewrite bind_await. destruct (Ht Ha) as [[tr|] Hp]; rewrite Hp.
      * apply Exists_cons in Hex as [[_ Hu]|Hex]; [congruence|]. now apply IH.
      * now eexists.
    + apply Exists_cons in Hex as [[Hu _]|Hex]; [congruence|]. now apply IH.
Qed.

Lemma listing_loop_returns (E : Env) (tracks : list TidalTrack.t) :
  Forall (translation_returns E) tracks ->
  forall (index : Z) (acc : list Track.t) (st : State),
    fst (playlist_tracks_loop E (fun track acc => ret (Continue (acc ++ [track])))
           index tracks acc st)
      = Ok (Continue (acc ++ yielded E index tracks)).
Proof.
  induction 1 as [|t rest Ht _ IH]; intros index acc st.
  - cbn. now rewrite app_nil_r.
  - cbn [playlist_tracks_loop yielded].
    destruct (TidalTrack.available t) eqn:Ha; [|apply IH].
    rewrite bind_await. destruct (Ht Ha) as [[tr|] Hp]; rewrite Hp; [|apply IH].
    unfold bind at 1. cbn [ret]. rewrite IH. now rewrite <- app_assoc.
Qed.

(** The loop of [get_similar_tracks], when it returns. *)
Lemma similar_loop_spec (E : Env) (objs : list TidalTrack.t) :
  forall (tracks res : list Track.t) (st st' : State),
    similar_tracks_loop E objs tracks st = (Ok res, st') ->
    exists new : list Track.t,
      res = tracks ++ new /\
      Forall2 (fun r t => TidalTrack.available t = true /\
                          parse_track E (Some t) = Ok (Some r))
        new (List.filter (fun t => survives E (0, t)) objs).
Proof.
  induction objs as [|t rest IH]; intros tracks res st st' H; cbn in H.
  - injection H as <- _. exists []. split; [now rewrite app_nil_r|constructor].
  - cbn [List.filter].
    destruct (TidalTrack.available t) eqn:Ha.
    + rewrite bind_await in H.
      destruct (parse_track E (Some t)) as [[tr|]|e] eqn:Hp; try discriminate.
      * apply IH in H as (new & -> & HF).
        rewrite (survives_true E 0 t tr Ha Hp).
        exists (tr :: new). split; [now rewrite <- app_assoc|].
        constructor; [now split|exact HF].
      * rewrite (survives_falsy E 0 t Hp). exact (IH _ _ _ _ H).
    + rewrite (survives_unavailable E 0 t Ha). exact (IH _ _ _ _ H).
Qed.

Lemma similar_loop_returns (E : Env) (objs : list TidalTrack.t) :
  Forall (translation_returns E) objs ->
  forall (tracks : list Track.t) (st : State),
    exists res : list Track.t, fst (similar_tracks_loop E objs tracks st) = Ok res.
Proof.
  induction 1 as [|t rest Ht _ IH]; intros tracks st.
  - now eexists.
  - cbn [similar_tracks_loop].
    destruct (TidalTrack.available t) eqn:Ha; [|apply IH].
    rewrite bind_await. destruct (Ht Ha) as [[tr|] Hp]; rewrite Hp; apply IH.
Qed.

(** X9.  An available track object whose translation is no track (a
    falsy result) is treated differently by the listings: when no
    translation raises, [get_album_tracks] and [get_artist_toptracks]
    fail with [AttributeError] (they assign a position to the missing
    track), while [get_playlist_tracks] and [get_similar_tracks] skip it
    and return. *)
Theorem untranslated_track_raises_or_skips (E : Env) (i : string) (st : State)
    (tracks : list TidalTrack.t) :
  Forall (translation_returns E) tracks ->
  Exists (untranslated E) tracks ->
  (helpers.get_album_tracks E (_tidal_session (self st)) i = Ok tracks ->
   exists msg, fst (get_album_tracks E i st) = Raise (AttributeError msg)) /\
  (helpers.get_artist_toptracks E (_tidal_session (self st)) i = Ok tracks ->
   exists msg, fst (get_artist_toptracks E i st) = Raise (AttributeError msg)) /\
  (helpers.get_playlist_tracks E (_tidal_session (self st)) i = Ok tracks ->
   fst (get_playlist_tracks E i st) = Ok (yielded E 0 tracks)) /\
  (forall limit : Z,
     helpers.get_similar_tracks E (_tidal_session (self st)) i limit = Ok tracks ->
     exists res, fst (get_similar_tracks E i limit st) = Ok res).
Proof.
  intros Hok Hex. split; [|split; [|split]].
  - intros Hh. unfold get_album_tracks. unfold bind at 1. cbn [get_self].
    rewrite bind_await, Hh. now apply enumerate_loop_untranslated.
  - intros Hh. unfold get_artist_toptracks. unfold bind at 1. cbn [get_self].
    rewrite bind_await, Hh. now apply enumerate_loop_untranslated.
  - intros Hh. unfold get_playlist_tracks, iter_playlist_tracks.
    unfold bind at 1. cbn [get_self]. rewrite bind_await, Hh. unfold bind.
    pose proof (listing_loop_returns E tracks Hok 0 []
                  (logged (call_get_playlist_tracks (_tidal_session (self st)) i) st))
      as Hl.
    destruct (playlist_tracks_loop E _ 0 tracks [] _) as [r st1]. cbn [fst] in Hl.
    subst r. reflexivity.
  - intros limit Hh. unfold get_similar_tracks. unfold bind at 1. cbn [get_self].
    rewrite bind_await, Hh. now apply similar_loop_returns.
Qed.

Lemma untranslated_track_raises_or_skips_witness :
  (exists msg, fst (get_album_tracks Example.env_untranslated "a" Example.logged_in)
                 = Raise (AttributeError msg)) /\
  fst (get_playlist_tracks Example.env_untranslated "a" Example.logged_in)
    = Ok [Track.set_position 1 (Example.parsed 1); Track.set_position 3 (Example.parsed 3)].
Proof.
  destruct (untranslated_track_raises_or_skips Example.env_untranslated "a"
              Example.logged_in
              [Example.track 1 true; Example.track 2 true; Example.track 3 true])
    as (Ha & _ & Hp & _).
  - repeat constructor; intros _; vm_compute; now eexists.
  - apply Exists_cons_tl, Exists_cons_hd. split; reflexivity.
  - split; [apply Ha; reflexivity|apply Hp; reflexivity].
Defined.

(** ** What the remaining listings return *)

(** [for x in l: acc.append(await f(x))] with [f] a helper call: when it
    returns, one result per element, in order, appended to [acc]. *)
Lemma for_append_awaits {A B} (c : A -> Call) (g : A -> result B) (l : list A) :
  forall (acc res : list B) (st st' : State),
    for_append (fun x => await (c x) (g x)) l acc st = (Ok res, st') ->
    exists new : list B, res = acc ++ new /\ Forall2 (fun r x => g x = Ok r) new l.
Proof.
  induction l as [|x l IH]; intros acc res st st' H; cbn [for_append] in H.
  - injection H as <- _. exists []. split; [now rewrite app_nil_r|constructor].
  - rewrite bind_await in H. destruct (g x) as [y|e] eqn:Hg; [|discriminate].
    apply IH in H as (new & -> & HF). exists (y :: new).
    split; [now rewrite <- app_assoc|]. now constructor.
Qed.

Lemma if_any_for_append_awaits {A B} (c : A -> Call) (g : A -> result B) (l : list A)
    (res : list B) (st st' : State) :
  if_any_for_append (fun x => await (c x) (g x)) l st = (Ok res, st') ->
  Forall2 (fun r x => g x = Ok r) res l.
Proof.
  unfold if_any_for_append. case_bool_decide as Hl.
  - intros H. injection H as <- _. subst l. constructor.
  - intros H. apply for_append_awaits in H as (new & -> & HF). exact HF.
Qed.

(** X10.  When [get_similar_tracks] returns, its result is, in the
    helper's order, the translation of every track object that is
    available and translates to a track; unavailable objects and falsy
    translations are dropped, and the translations are returned as they
    are (no position is assigned). *)
Theorem similar_tracks_are_available (E : Env) (i : string) (limit : Z)
    (st st' : State) (res : list Track.t) :
  get_similar_tracks E i limit st = (Ok res, st') ->
  exists objs : list TidalTrack.t,
    helpers.get_similar_tracks E (_tidal_session (self st)) i limit = Ok objs /\
    Forall2 (fun r t => TidalTrack.available t = true /\
                        parse_track E (Some t) = Ok (Some r))
      res (List.filter (fun t => survives E (0, t)) objs).
Proof.
  unfold get_similar_tracks. unfold bind at 1. cbn [get_self]. rewrite bind_await.
  destruct (helpers.get_similar_tracks E _ i limit) as [objs|e]; [|discriminate].
  intros H. apply similar_loop_spec in H as (new & -> & HF). now exists objs.
Qed.

Lemma similar_tracks_are_available_witness :
  exists objs : list TidalTrack.t,
    helpers.get_similar_tracks Example.env_untranslated
      (_tidal_session (self Example.logged_in)) "t" 25 = Ok objs /\
    Forall2 (fun r t => TidalTrack.available t = true /\
                        parse_track Example.env_untranslated (Some t) = Ok (Some r))
      [Example.parsed 1]
      (List.filter (fun t => survives Example.env_untranslated (0, t)) objs).
Proof.
  apply (similar_tracks_are_available Example.env_untranslated "t" 25 Example.logged_in
           (snd (get_similar_tracks Example.env_untranslated "t" 25 Example.logged_in))).
  reflexivity.
Defined.

(** X11.  When [get_library_tracks] is consumed to its end, it has
    yielded, in the helper's order, what the translation returned for
    each available track object, and nothing for the unavailable ones;
    a falsy translation is yielded as it is (this listing does not test
    it). *)
Theorem library_tracks_are_available (E : Env) (st st' : State)
    (res : list (option Track.t)) :
  get_library_tracks E st = (Ok res, st') ->
  exists objs : list TidalTrack.t,
    helpers.get_library_tracks E (_tidal_session (self st)) (_tidal_user_id (self st))
      = Ok objs /\
    Forall2 (fun r t => parse_track E (Some t) = Ok r)
      res (filter (fun t => TidalTrack.available t = true) objs).
Proof.
  unfold get_library_tracks. unfold bind at 1. cbn [get_self]. rewrite bind_await.
  destruct (helpers.get_library_tracks E _ _) as [objs|e]; [|discriminate].
  intros H.
  apply (for_append_awaits (fun t => call_parse_track (Some t))
           (fun t => parse_track E (Some t))) in H as (new & -> & HF).
  now exists objs.
Qed.

Lemma library_tracks_are_available_witness :
  exists objs : list TidalTrack.t,
    helpers.get_library_tracks Example.env_untranslated
      (_tidal_session (self Example.logged_in)) (_tidal_user_id (self Example.logged_in))
      = Ok objs /\
    Forall2 (fun r t => parse_track Example.env_untranslated (Some t) = Ok r)
      [Some (Example.parsed 1); None]
      (filter (fun t => TidalTrack.available t = true) objs).
Proof.
  apply (library_tracks_are_available Example.env_untranslated Example.logged_in
           (snd (get_library_tracks Example.env_untranslated Example.logged_in))).
  reflexivity.
Defined.

(** X12.  The listings that do not filter: when [get_library_artists],
    [get_library_albums], [get_library_playlists] or [get_artist_albums]
    returns, its result has exactly one entry per object of the helper's
    answer, in the same order, each the translation of its object. *)
Theorem unfiltered_listings_translate_all (E : Env) (st : State) :
  (forall (res : list Artist.t) (st' : State),
     get_library_artists E st = (Ok res, st') ->
     exists objs,
       helpers.get_library_artists E (_tidal_session (self st)) (_tidal_user_id (self st))
         = Ok objs /\
       Forall2 (fun r o => parse_artist E o = Ok r) res objs) /\
  (forall (res : list Album.t) (st' : State),
     get_library_albums E st = (Ok res, st') ->
     exists objs,
       helpers.get_library_albums E (_tidal_session (self st)) (_tidal_user_id (self st))
         = Ok objs /\
       Forall2 (fun r o => parse_album E o = Ok r) res objs) /\
  (forall (res : list Playlist.t) (st' : State),
     get_library_playlists E st = (Ok res, st') ->
     exists objs,
       helpers.get_library_playlists E (_tidal_session (self st))
         (_tidal_user_id (self st)) = Ok objs /\
       Forall2 (fun r o => parse_playlist E o = Ok r) res objs) /\
  (forall (i : string) (res : list Album.t) (st' : State),
     get_artist_albums E i st = (Ok res, st') ->
     exists objs,
       helpers.get_artist_albums E (_tidal_session (self st)) i = Ok objs /\
       Forall2 (fun r o => parse_album E o = Ok r) res objs).
Proof.
  split; [|split; [|split]].
  - intros res st'. unfold get_library_artists. unfold bind at 1. cbn [get_self].
    rewrite bind_await.
    destruct (helpers.get_library_artists E _ _) as [objs|e]; [|discriminate].
    intros H. apply for_append_awaits in H as (new & -> & HF). now exists objs.
  - intros res st'. unfold get_library_albums. unfold bind at 1. cbn [get_self].
    rewrite bind_await.
    destruct (helpers.get_library_albums E _ _) as [objs|e]; [|discriminate].
    intros H. apply for_append_awaits in H as (new & -> & HF). now exists objs.
  - intros res st'. unfold get_library_playlists. unfold bind at 1. cbn [get_self].
    rewrite bind_await.
    destruct (helpers.get_library_playlists E _ _) as [objs|e]; [|discriminate].
    intros H. apply for_append_awaits in H as (new & -> & HF). now exists objs.
  - intros i res st'. unfold get_artist_albums. unfold bind at 1. cbn [get_self].
    rewrite bind_await.
    destruct (helpers.get_artist_albums E _ i) as [objs|e]; [|discriminate].
    intros H. apply for_append_awaits in H as (new & -> & HF). now exists objs.
Qed.

Lemma unfiltered_listings_translate_all_witness :
  exists objs,
    helpers.get_library_artists Example.env_untranslated
      (_tidal_session (self Example.logged_in)) (_tidal_user_id (self Example.logged_in))
      = Ok objs /\
    Forall2 (fun r o => parse_artist Example.env_untranslated o = Ok r)
      [ {| Artist.item_id := "1"; Artist.name := "A" |};
        {| Artist.item_id := "2"; Artist.name := "B" |} ] objs.
Proof.
  apply (proj1 (unfiltered_listings_translate_all Example.env_untranslated
                  Example.logged_in)
           _ (snd (get_library_artists Example.env_untranslated Example.logged_in))).
  reflexivity.
Defined.

(** X13.  When [search] returns, each of the four groups of its result
    holds, in the helper's order, the translations of that group's hits,
    one per hit; an empty group is translated by no call at all. *)
Theorem search_translates_every_hit (E : Env) (q : string)
    (mt : option (list MediaType)) (limit : Z) (st st' : State) (r : SearchResults.t) :
  search E q mt limit st = (Ok r, st') ->
  exists hits : SearchHits.t,
    helpers.search E (_tidal_session (self st)) (str_replace_char apostrophe "" q) mt limit
      = Ok hits /\
    Forall2 (fun a o => parse_artist E o = Ok a)
      (SearchResults.artists r) (SearchHits.artists hits) /\
    Forall2 (fun a o => parse_album E o = Ok a)
      (SearchResults.albums r) (SearchHits.albums hits) /\
    Forall2 (fun p o => parse_playlist E o = Ok p)
      (SearchResults.playlists r) (SearchHits.playlists hits) /\
    Forall2 (fun t o => parse_track E (Some o) = Ok t)
      (SearchResults.tracks r) (SearchHits.tracks hits) /\
    (SearchHits.artists hits = [] -> SearchHits.albums hits = [] ->
     SearchHits.playlists hits = [] -> SearchHits.tracks hits = [] ->
     calls st' = calls st ++
       [call_search (_tidal_session (self st)) (str_replace_char apostrophe "" q)
          mt limit]).
Proof.
  unfold search. cbn zeta. unfold bind at 1. cbn [get_self]. rewrite bind_await.
  destruct (helpers.search E _ _ mt limit) as [hits|e]; [|discriminate].
  unfold bind.
  destruct (if_any_for_append _ (SearchHits.artists hits) _) as [[a|e] s1] eqn:H1;
    [|discriminate].
  destruct (if_any_for_append _ (SearchHits.albums hits) s1) as [[b|e] s2] eqn:H2;
    [|discriminate].
  destruct (if_any_for_append _ (SearchHits.playlists hits) s2) as [[p|e] s3] eqn:H3;
    [|discriminate].
  destruct (if_any_for_append _ (SearchHits.tracks hits) s3) as [[t|e] s4] eqn:H4;
    [|discriminate].
  intros H. injection H as <- <-. exists hits. cbn.
  split; [reflexivity|].
  split; [exact (if_any_for_append_awaits _ _ _ _ _ _ H1)|].
  split; [exact (if_any_for_append_awaits _ _ _ _ _ _ H2)|].
  split; [exact (if_any_for_append_awaits _ _ _ _ _ _ H3)|].
  split; [exact (if_any_for_append_awaits (fun o => call_parse_track (Some o))
                   (fun o => parse_track E (Some o)) _ _ _ _ H4)|].
  intros E1 E2 E3 E4. rewrite E1 in H1. rewrite E2 in H2. rewrite E3 in H3.
  rewrite E4 in H4. cbn in H1, H2, H3, H4.
  injection H1 as _ <-. injection H2 as _ <-. injection H3 as _ <-.
  injection H4 as _ <-. reflexivity.
Qed.

Lemma search_translates_every_hit_witness :
  exists hits : SearchHits.t,
    helpers.search Example.env_hits (_tidal_session (self Example.logged_in))
      (str_replace_char apostrophe "" "O'Brien") None 5 = Ok hits /\
    Forall2 (fun a o => parse_artist Example.env_hits o = Ok a)
      [ {| Artist.item_id := "1"; Artist.name := "Sinead OBrien" |} ]
      (SearchHits.artists hits) /\
    Forall2 (fun a o => parse_album Example.env_hits o = Ok a)
      [ {| Album.item_id := "21"; Album.name := "Time Bend" |} ]
      (SearchHits.albums hits) /\
    Forall2 (fun p o => parse_playlist Example.env_hits o = Ok p)
      [ {| Playlist.item_id := "p9"; Playlist.name := "Mix" |} ]
      (SearchHits.playlists hits) /\
    Forall2 (fun t o => parse_track Example.env_hits (Some o) = Ok t)
      [ Some (Example.parsed 31); Some (Example.parsed 32) ]
      (SearchHits.tracks hits) /\
    (SearchHits.artists hits = [] -> SearchHits.albums hits = [] ->
     SearchHits.playlists hits = [] -> SearchHits.tracks hits = [] ->
     calls (snd (search Example.env_hits "O'Brien" None 5 Example.logged_in)) =
       calls Example.logged_in ++
       [call_search (_tidal_session (self Example.logged_in))
          (str_replace_char apostrophe "" "O'Brien") None 5]).
Proof.
  apply (search_translates_every_hit Example.env_hits "O'Brien" None 5 Example.logged_in
           (snd (search Example.env_hits "O'Brien" None 5 Example.logged_in))
           {| SearchResults.artists :=
                [ {| Artist.item_id := "1"; Artist.name := "Sinead OBrien" |} ];
              SearchResults.albums :=
                [ {| Album.item_id := "21"; Album.name := "Time Bend" |} ];
              SearchResults.playlists :=
                [ {| Playlist.item_id := "p9"; Playlist.name := "Mix" |} ];
              SearchResults.tracks :=
                [ Some (Example.parsed 31); Some (Example.parsed 32) ] |}).
  reflexivity.
Defined.

(** ** Queries without apostrophes *)

Lemma str_replace_char_id (old : ascii) (s : string) :
  ~ In old (list_ascii_of_string s) -> str_replace_char old "" s = s.
Proof.
  induction s as [|c s IH]; intros Hn; [reflexivity|].
  cbn [str_replace_char list_ascii_of_string] in *.
  destruct (Ascii.eqb c old) eqn:Hc.
  - apply Ascii.eqb_eq in Hc. exfalso. apply Hn. now left.
  - f_equal. apply IH. intros Hin. apply Hn. now right.
Qed.

Lemma str_replace_char_clean (old : ascii) (s : string) :
  ~ In old (list_ascii_of_string (str_replace_char old "" s)).
Proof.
  rewrite str_replace_char_filter. intros Hin.
  apply List.filter_In in Hin as [_ Hne]. now rewrite Ascii.eqb_refl in Hne.
Qed.

(** X14.  A query that contains no apostrophe is submitted by [search]
    exactly as it was given; and stripping is idempotent, so a query
    that went through [search] once would be submitted unchanged a
    second time. *)
Theorem search_keeps_plain_queries (E : Env) (q : string)
    (mt : option (list MediaType)) (limit : Z) (st : State) :
  ~ In apostrophe (list_ascii_of_string q) ->
  (exists parses : list Call,
     calls (snd (search E q mt limit st)) =
       calls st ++ call_search (_tidal_session (self st)) q mt limit :: parses /\
     Forall is_translation parses) /\
  (forall q' : string,
     str_replace_char apostrophe "" (str_replace_char apostrophe "" q')
       = str_replace_char apostrophe "" q').
Proof.
  intros Hq. split.
  - destruct (search_calls E q mt limit st) as (parses & Hc & HP).
    rewrite (str_replace_char_id apostrophe q Hq) in Hc. now exists parses.
  - intros q'. apply str_replace_char_id, str_replace_char_clean.
Qed.

Lemma search_keeps_plain_queries_witness :
  (exists parses : list Call,
     calls (snd (search Example.env0 "Miles Davis" None 5 Example.logged_in)) =
       calls Example.logged_in ++
       call_search (_tidal_session (self Example.logged_in)) "Miles Davis" None 5
       :: parses /\
     Forall is_translation parses) /\
  (forall q' : string,
     str_replace_char apostrophe "" (str_replace_char apostrophe "" q')
       = str_replace_char apostrophe "" q').
Proof.
  apply (search_keeps_plain_queries Example.env0 "Miles Davis" None 5 Example.logged_in).
  cbn. intros H. repeat (destruct H as [H|H]; [discriminate H|]). exact H.
Defined.

(** ** The configuration schema and what a refresh writes *)

(** X15.  The configuration entries the provider declares are the ones a
    refresh writes: after the session request, a refresh writes one
    value per declared entry, in the order of declaration, under that
    entry's key scoped to the instance; and every declared entry is a
    hidden, optional string. *)
Theorem refresh_writes_declared_entries (E : Env) (st : State) (s : TidalSession.t) :
  login_condition (now E) (self st) = Ok false ->
  session_answer E (self st) = Ok s ->
  calls (snd (login E st)) =
    calls st ++ session_request (self st)
      :: zip_with (fun entry value => call_config_set (conf_key (self st) (key entry)) value)
           (get_config_entries E)
           [ str (TidalSession.user_id s); TidalSession.access_token s;
             TidalSession.refresh_token s; isoformat E (TidalSession.expiry_time s) ] /\
  Forall (fun entry => hidden entry = true /\ required entry = false /\
                       type entry = CET_STRING)
    (get_config_entries E).
Proof.
  intros Hc Hs. rewrite (login_refresh_returns E st s Hc Hs). split.
  - reflexivity.
  - repeat constructor.
Qed.

Lemma refresh_writes_declared_entries_witness :
  calls (snd (login Example.env2 Example.fresh)) =
    calls Example.fresh ++ session_request (self Example.fresh)
      :: zip_with
           (fun entry value => call_config_set (conf_key (self Example.fresh) (key entry))
                                 value)
           (get_config_entries Example.env2)
           [ str 42; "at2"; "rt2"; isoformat Example.env2 (Naive 172800000000) ] /\
  Forall (fun entry => hidden entry = true /\ required entry = false /\
                       type entry = CET_STRING)
    (get_config_entries Example.env2).
Proof.
  apply (refresh_writes_declared_entries Example.env2 Example.fresh Example.session2).
  - reflexivity.
  - reflexivity.
Defined.

(** ** Fields no operation assigns *)

Lemma login_stable (E : Env) (st : State) :
  instance_id (self (snd (login E st))) = instance_id (self st) /\
  _token_type (self (snd (login E st))) = _token_type (self st).
Proof.
  destruct (login_condition (now E) (self st)) as [[|]|e] eqn:Hc.
  - now rewrite (login_fast_path E st Hc).
  - rewrite (login_slow_path E st Hc). now destruct (session_answer E (self st)).
  - now rewrite (login_type_error E st e Hc).
Qed.

Lemma with_stored_tokens_stable (E : Env) (st : State) :
  instance_id (with_stored_tokens E st) = instance_id (self st) /\
  _token_type (with_stored_tokens E st) = _token_type (self st).
Proof.
  unfold with_stored_tokens.
  destruct (stored E (self st) (config st) (CONF_ACCESS_TOKEN E));
    destruct (stored E (self st) (config st) (CONF_REFRESH_TOKEN E)); now split.
Qed.

Lemma handle_setup_stable (E : Env) (st : State) :
  instance_id (self (snd (handle_setup E st))) = instance_id (self st) /\
  _token_type (self (snd (handle_setup E st))) = _token_type (self st).
Proof.
  rewrite handle_setup_eq. cbn zeta.
  destruct (with_stored_tokens_stable E st) as [Hi Ht].
  destruct (stored E (self st) (config st) (CONF_EXPIRY_TIME E)) as [v|];
    [destruct (fromisoformat E v) as [d|]|];
    try match goal with
    | |- context [login E ?s] =>
        destruct (login_stable E s) as [Li Lt];
        destruct (login E s) as [[h|e] st']; cbn [snd self] in *;
        rewrite Li, Lt
    end; cbn; now split.
Qed.

Lemma get_stream_details_stable (E : Env) (i : string) (st : State) :
  instance_id (self (snd (get_stream_details E i st))) = instance_id (self st) /\
  _token_type (self (snd (get_stream_details E i st))) = _token_type (self st).
Proof.
  rewrite get_stream_details_eq. cbn zeta.
  destruct (helpers.get_track E _ i) as [tr|e]; [|now split].
  destruct (get_track_url E _ i) as [url|e]; [|now split].
  destruct tr as [tr|]; [|now split].
  match goal with
  | |- context [login E ?s] =>
      destruct (login_stable E s) as [Li Lt];
      destruct (login E s) as [[h|e] st']; cbn [snd self] in *; now split
  end.
Qed.

(** X16.  No operation assigns the instance id or the [_token_type]
    field: whatever operation runs, and whether it returns or raises,
    both are afterwards what they were; so the field [_token_type]
    declared by the class is never consulted (session requests carry
    the constant "Bearer"), and the keys under which an instance reads
    and writes its configuration never change. *)
Theorem instance_id_and_token_type_are_stable (E : Env) (o : Operation) (st : State) :
  instance_id (self (run E o st)) = instance_id (self st) /\
  _token_type (self (run E o st)) = _token_type (self st) /\
  (forall conf : string, conf_key (self (run E o st)) conf = conf_key (self st) conf).
Proof.
  assert (H : instance_id (self (run E o st)) = instance_id (self st) /\
              _token_type (self (run E o st)) = _token_type (self st)).
  { destruct o;
      try (rewrite keeps_self_run by (try intros ?; discriminate); now split).
    - apply handle_setup_stable.
    - apply login_stable.
    - apply get_stream_details_stable. }
  destruct H as [Hi Ht]. repeat split; try assumption.
  intros conf. unfold conf_key. now rewrite Hi.
Qed.

(** ** Stream resolution and re-validation *)

Lemma session_requests_logged (c : Call) (st : State) :
  is_session_request c = false ->
  session_requests (calls (logged c st)) = session_requests (calls st).
Proof.
  intros Hc. unfold session_requests, logged. cbn [calls].
  rewrite List.filter_app, length_app. cbn. rewrite Hc. cbn. lia.
Qed.

Lemma login_session_requests (E : Env) (st : State) :
  (session_requests (calls (snd (login E st))) <= S (session_requests (calls st)))%nat.
Proof.
  destruct (login_condition (now E) (self st)) as [[|]|e] eqn:Hc.
  - rewrite (login_fast_path E st Hc). cbn. lia.
  - rewrite (login_slow_path E st Hc).
    destruct (session_answer E (self st)) as [s|e]; unfold session_requests; cbn;
      rewrite List.filter_app, length_app; cbn; lia.
  - rewrite (login_type_error E st e Hc). cbn. lia.
Qed.

(** X17.  [get_stream_details] re-validates at most once, and only when
    both lookups went through and the metadata lookup found a track:
    it never makes more than one session request; and when the metadata
    lookup raises or finds no track, or the URL lookup raises, it makes
    none, and leaves the instance fields and the configuration store as
    they were. *)
Theorem stream_details_revalidates_at_most_once (E : Env) (i : string) (st : State) :
  let session := _tidal_session (self st) in
  let st' := snd (get_stream_details E i st) in
  (session_requests (calls st') <= S (session_requests (calls st)))%nat /\
  ((exists e, helpers.get_track E session i = Raise e) \/
   helpers.get_track E session i = Ok None \/
   (exists e, get_track_url E session i = Raise e) ->
   session_requests (calls st') = session_requests (calls st) /\
   self st' = self st /\ config st' = config st).
Proof.
  intros session st'. subst session st'. rewrite get_stream_details_eq. cbn zeta.
  set (st1 := logged (call_get_track (_tidal_session (self st)) i) st).
  set (st2 := logged (call_get_track_url (_tidal_session (self st)) i) st1).
  assert (H1 : session_requests (calls st1) = session_requests (calls st))
    by (now apply session_requests_logged).
  assert (H2 : session_requests (calls st2) = session_requests (calls st))
    by (unfold st2; now rewrite session_requests_logged).
  destruct (helpers.get_track E _ i) as [tr|e].
  - destruct (get_track_url E _ i) as [url|e].
    + destruct tr as [tr|].
      * pose proof (login_session_requests E st2) as Hl.
        destruct (login E st2) as [[h|e] st3]; cbn [snd] in *;
          (split; [lia|]);
          intros [[e' He]|[He|[e' He]]]; discriminate.
      * cbn [snd]. split; [lia|]. intros _. now rewrite H2.
    + cbn [snd]. split; [lia|]. intros _. now rewrite H2.
  - cbn [snd]. split; [lia|]. intros _. now rewrite H1.
Qed.

Lemma stream_details_revalidates_at_most_once_witness :
  session_requests (calls (snd (get_stream_details Example.env_no_url "0"
                                  Example.logged_in)))
    = session_requests (calls Example.logged_in) /\
  self (snd (get_stream_details Example.env_no_url "0" Example.logged_in))
    = self Example.logged_in /\
  config (snd (get_stream_details Example.env_no_url "0" Example.logged_in))
    = config Example.logged_in.
Proof.
  apply (proj2 (stream_details_revalidates_at_most_once Example.env_no_url "0"
                  Example.logged_in)).
  right. left. reflexivity.
Defined.

(** ** Removal with nothing requested *)

(** X18.  With no position requested, [remove_playlist_tracks] still
    lists the playlist and still issues a batch removal, of no id:
    unless a translation raises, its outcome is that of the removal
    call with the empty list; and when the first track object is
    available and translates, that translation is the only one made. *)
Theorem remove_nothing_still_calls (E : Env) (i : string) (st : State)
    (tracks : list TidalTrack.t) :
  helpers.get_playlist_tracks E (_tidal_session (self st)) i = Ok tracks ->
  ((exists (e : exn) (t : TidalTrack.t),
      In t tracks /\ parse_track E (Some t) = Raise e /\
      fst (remove_playlist_tracks E i [] st) = Raise e) \/
   (exists parses : list Call,
      remove_playlist_tracks E i [] st =
        (add_remove_playlist_tracks E (_tidal_session (self st)) i [] false,
         after_removal st i parses []) /\
      Forall is_parse_track parses)) /\
  (forall (t : TidalTrack.t) (rest : list TidalTrack.t) (tr : Track.t),
     tracks = t :: rest -> TidalTrack.available t = true ->
     parse_track E (Some t) = Ok (Some tr) ->
     remove_playlist_tracks E i [] st =
       (add_remove_playlist_tracks E (_tidal_session (self st)) i [] false,
        after_removal st i [call_parse_track (Some t)] [])).
Proof.
  intros Hh. split.
  - destruct (remove_playlist_tracks_spec E i [] st tracks Hh)
      as [Hr|(ids & parses & Heq & HP & Hids)]; [now left|right].
    destruct ids as [|x ids].
    + now exists parses.
    + apply Forall_cons in Hids as [(p & t & tr & Hin & _) _]. now apply elem_of_nil in Hin.
  - intros t rest tr -> Ha Hp.
    rewrite (remove_playlist_tracks_eq E i [] st _ Hh).
    rewrite remove_loop_cons, Ha, Hp.
    rewrite (collect_out [] (0 + 1)) by apply not_elem_of_nil.
    rewrite bool_decide_eq_true_2 by reflexivity.
    unfold after_removal, logged. cbn. now rewrite <- !app_assoc.
Qed.

Lemma remove_nothing_still_calls_witness :
  remove_playlist_tracks Example.env_playlist "pl" [] Example.logged_in =
    (add_remove_playlist_tracks Example.env_playlist
       (_tidal_session (self Example.logged_in)) "pl" [] false,
     after_removal Example.logged_in "pl"
       [call_parse_track (Some (Example.track 101 true))] []).
Proof.
  apply (proj2 (remove_nothing_still_calls Example.env_playlist "pl" Example.logged_in
                  Example.playlist5 eq_refl)
           (Example.track 101 true)
           [Example.track 102 true; Example.track 103 true; Example.track 104 true;
            Example.track 105 true]
           (Example.parsed 101)).
  - reflexivity.
  - reflexivity.
  - reflexivity.
Defined.

(** ** Naive expiry times *)

Lemma login_preserves_naive (E : Env) :
  naive_env E -> preserves expiry_is_naive (login E).
Proof.
  intros [_ Hs] st HP.
  destruct (login_condition (now E) (self st)) as [[|]|e] eqn:Hc.
  - now rewrite (login_fast_path E st Hc).
  - rewrite (login_slow_path E st Hc).
    destruct (session_answer E (self st)) as [s|e] eqn:Ha; cbn; [|assumption].
    intros d Hd. cbn in Hd. injection Hd as <-.
    unfold session_answer in Ha. now apply Hs in Ha.
  - now rewrite (login_type_error E st e Hc).
Qed.

Lemma handle_setup_preserves_naive (E : Env) :
  naive_env E -> preserves expiry_is_naive (handle_setup E).
Proof.
  intros HE. unfold handle_setup.
  apply preserves_bind; [apply keeps_preserves; auto with tidal|]. intros p.
  apply preserves_bind; [apply keeps_preserves; auto with tidal|]. intros a.
  apply preserves_bind; [apply keeps_preserves; auto with tidal|]. intros r.
  apply preserves_bind; [apply keeps_preserves; auto with tidal|]. intros x.
  apply preserves_bind.
  { destruct (truthy_str a); [|apply keeps_preserves; auto with tidal].
    intros st HP. exact HP. }
  intros _. apply preserves_bind.
  { destruct (truthy_str r); [|apply keeps_preserves; auto with tidal].
    intros st HP. exact HP. }
  intros _. apply preserves_bind.
  { destruct (truthy_str x) as [v|]; [|apply keeps_preserves; auto with tidal].
    destruct (fromisoformat E v) as [d|] eqn:Hd; [|apply keeps_preserves; auto with tidal].
    intros st _ d' Hd'. cbn in Hd'. injection Hd' as <-.
    now apply (proj1 HE) in Hd. }
  intros _. apply preserves_bind; [now apply login_preserves_naive|].
  intros _. apply keeps_preserves; auto with tidal.
Qed.

Lemma get_stream_details_preserves_naive (E : Env) (i : string) :
  naive_env E -> preserves expiry_is_naive (get_stream_details E i).
Proof.
  intros HE. unfold get_stream_details.
  apply preserves_bind; [apply keeps_preserves; auto with tidal|]. intros p.
  apply preserves_bind; [apply keeps_preserves; auto with tidal|]. intros tr.
  apply preserves_bind; [apply keeps_preserves; auto with tidal|]. intros url.
  destruct tr as [tr|]; [|apply keeps_preserves; auto with tidal].
  apply preserves_bind; [now apply login_preserves_naive|].
  intros _. apply keeps_preserves; auto with tidal.
Qed.

Lemma run_preserves_naive (E : Env) (o : Operation) (st : State) :
  naive_env E -> expiry_is_naive (self st) -> expiry_is_naive (self (run E o st)).
Proof.
  intros HE HP.
  destruct o;
    try (rewrite keeps_self_run by (try intros ?; discriminate); exact HP).
  - now apply handle_setup_preserves_naive.
  - now apply login_preserves_naive.
  - now apply get_stream_details_preserves_naive.
Qed.

Lemma reachable_naive_reachable (st : State) : reachable_naive st -> reachable st.
Proof.
  induction 1 as [E iid cfg _ | E o st _ _ IH | st cfg _ IH].
  - apply reach_setup.
  - now apply reach_run.
  - now apply reach_config.
Qed.

Lemma reachable_naive_expiry (st : State) :
  reachable_naive st -> expiry_is_naive (self st).
Proof.
  induction 1 as [E iid cfg HE | E o st HE _ IH | st cfg _ IH].
  - apply (handle_setup_preserves_naive E HE). cbn. intros d Hd. discriminate.
  - now apply run_preserves_naive.
  - exact IH.
Qed.

(** X19.  When the collaborators only produce naive [datetime] objects
    ([fromisoformat] on what the store holds, the SDK for the expiry of
    its sessions), every state reached through [setup] and the public
    operations is a reachable state whose cached expiry, if any, is
    naive; there the comparison of [login]'s condition evaluates to a
    boolean whatever the clock reads, and a [login] that raises raises
    what the SDK's session request raised. *)
Theorem naive_expiry_never_raises (st : State) :
  reachable_naive st ->
  reachable st /\
  expiry_is_naive (self st) /\
  (forall now : Z, exists b : bool, login_condition now (self st) = Ok b) /\
  (forall (E : Env) (e : exn),
     fst (login E st) = Raise e -> session_answer E (self st) = Raise e).
Proof.
  intros Hr.
  pose proof (reachable_naive_reachable st Hr) as Hreach.
  pose proof (reachable_naive_expiry st Hr) as Hn.
  assert (Hb : forall now : Z, exists b : bool, login_condition now (self st) = Ok b).
  { intros now. pose proof (reachable_session_has_expiry_inv st Hreach) as HP.
    destruct (login_condition now (self st)) as [b|e] eqn:Hc; [now exists b|].
    apply (login_condition_raises now (self st) e HP) in Hc as (t & off & msg & He & _).
    apply Hn in He as [t' He]. discriminate. }
  split; [exact Hreach|]. split; [exact Hn|]. split; [exact Hb|].
  intros E e. destruct (Hb (now E)) as [[|] Hc].
  - rewrite (login_fast_path E st Hc). discriminate.
  - rewrite (login_slow_path E st Hc).
    destruct (session_answer E (self st)) as [s|e']; cbn; [discriminate|].
    intros H. injection H as ->. reflexivity.
Qed.

Lemma naive_env_reading : naive_env Example.env2_reading.
Proof.
  split.
  - intros v d H. cbn in H. case_bool_decide; [|discriminate].
    injection H as <-. now eexists.
  - intros tt a r x s H. cbn in H. injection H as <-. now eexists.
Qed.

Lemma naive_expiry_never_raises_witness :
  let st := run Example.env2_reading (op_get_stream_details "7")
              (snd (setup Example.env2_reading "tidal"
                      (config (snd (login Example.env2 Example.fresh))))) in
  reachable st /\
  expiry_is_naive (self st) /\
  (forall now : Z, exists b : bool, login_condition now (self st) = Ok b) /\
  (forall (E : Env) (e : exn),
     fst (login E st) = Raise e -> session_answer E (self st) = Raise e).
Proof.
  intros st. apply (naive_expiry_never_raises st).
  apply reach_naive_run; [exact naive_env_reading|].
  apply reach_naive_setup. exact naive_env_reading.
Defined.
